(** * Parallel histogram benchmark: hist_threads, hist_openmp, hist_seq

    A shallow embedding of the three C++ programs of the repository
    (src/hist_threads.cpp, and src/hist_openmp.cpp and src/hist_seq.cpp as
    carried by scripts/build.sh) and the properties of their generation and
    counting phases.

    Worker threads are modelled by an interleaving semantics: every worker
    has a private state, all workers share one store, and a schedule (a list
    of worker indices) says which worker performs its next shared-memory
    action.  A result is only read after a join, that is, once every worker
    has run to completion. *)

From Stdlib Require Import Ascii DecimalString Znumtheory.
From stdpp Require Import base numbers list strings.

Local Open Scope Z_scope.
#[local] Unset Default Proof Using.

(** ** Machine integers *)

(** [uint64_t] arithmetic. *)
Definition wrap64 (z : Z) : Z := z mod 2 ^ 64.
(** [unsigned] arithmetic. *)
Definition wrap32u (z : Z) : Z := z mod 2 ^ 32.
(** [int] arithmetic, two's complement. *)
Definition wrap32s (z : Z) : Z := (z + 2 ^ 31) mod 2 ^ 32 - 2 ^ 31.

Definition INT_MAX : Z := 2 ^ 31 - 1.
Definition INT_MIN : Z := - 2 ^ 31.

(** ** Run configuration *)

(** [struct Args] of the three programs.  [threads] is absent from the
    sequential baseline, which ignores it. *)
Record Args := mkArgs {
  N : Z;            (* uint64_t *)
  minv : Z;         (* int *)
  maxv : Z;         (* int *)
  seed : Z;         (* unsigned *)
  rep : Z;          (* int *)
  variant : string;
  threads : Z       (* int *)
}.

(** [if (a.maxv < a.minv) swap(a.maxv, a.minv);] *)
Definition normalize (a : Args) : Args :=
  if maxv a <? minv a
  then mkArgs (N a) (maxv a) (minv a) (seed a) (rep a) (variant a) (threads a)
  else a.

(** The same configuration with another [--variant]. *)
Definition with_variant (a : Args) (v : string) : Args :=
  mkArgs (N a) (minv a) (maxv a) (seed a) (rep a) v (threads a).

(** [const int bins = a.maxv - a.minv + 1;] *)
Definition bins (a : Args) : Z := wrap32s (maxv a - minv a + 1).

(** The values the fields can hold after parsing, and a range whose width
    fits an [int].  [N] stays below 2^63 so that the [(long long)a.N] of the
    OpenMP loops is [a.N] itself. *)
Record valid_args (a : Args) : Prop := {
  valid_N : 0 ≤ N a < 2 ^ 63;
  valid_minv : INT_MIN ≤ minv a ≤ INT_MAX;
  valid_maxv : INT_MIN ≤ maxv a ≤ INT_MAX;
  valid_width : Z.abs (maxv a - minv a) < INT_MAX;
  valid_seed : 0 ≤ seed a < 2 ^ 32;
  valid_rep : INT_MIN ≤ rep a ≤ INT_MAX;
  valid_threads : INT_MIN ≤ threads a ≤ INT_MAX
}.

(** ** Partitioner of hist_threads.cpp *)

(** [const uint64_t chunk = (a.N + (uint64_t)T - 1) / (uint64_t)T;] *)
Definition chunk (n T : Z) : Z := wrap64 (wrap64 (n + T) - 1) / T.

(** [const uint64_t start = (uint64_t)t * chunk;] *)
Definition start (n T t : Z) : Z := wrap64 (t * chunk n T).

(** [const uint64_t end = min<uint64_t>(a.N, (uint64_t)(t+1) * chunk);] *)
Definition end_ (n T t : Z) : Z := Z.min n (wrap64 ((t + 1) * chunk n T)).

(** The indices a [for (i = lo; i < hi; ++i)] loop visits, in order. *)
Definition block_idx (b : Z * Z) : list Z := seqZ b.1 (b.2 - b.1).

(** The block of worker [t], and one block per worker in worker order. *)
Definition thread_block (n T : Z) (t : nat) : Z * Z :=
  (start n T (Z.of_nat t), end_ n T (Z.of_nat t)).

Definition thread_blocks (n T : Z) : list (Z * Z) :=
  thread_block n T <$> seq 0 (Z.to_nat T).

(** A list of blocks tiles [0, n) when the blocks together enumerate
    0, 1, ..., n-1 in some order: no index is missed and none is given
    twice. *)
Definition tiles (n : Z) (blocks : list (Z * Z)) : Prop :=
  concat (block_idx <$> blocks) ≡ₚ seqZ 0 n.


(** ** Outcomes and vectors *)

(** What a phase of the program yields under a given schedule.  [Fault] is
    C++ undefined behaviour or an uncaught exception (an access outside a
    vector, a vector of negative size or of a size above [max_size()]).  [Pending] says that the schedule
    ended while some worker still had work to do, so the join has not
    returned yet. *)
Inductive outcome (A : Type) : Type :=
  | Done (x : A)
  | Pending
  | Fault.
Global Arguments Done {A} x.
Global Arguments Pending {A}.
Global Arguments Fault {A}.

Definition obind {A B} (o : outcome A) (k : A → outcome B) : outcome B :=
  match o with
  | Done x => k x
  | Pending => Pending
  | Fault => Fault
  end.

Notation "x ←o o ; k" := (obind o (λ x, k))
  (at level 20, o at level 100, k at level 200, only parsing).

(** [v[i]] and [v[i] = x]; [None] outside the vector. *)
Definition vec_get {A} (v : list A) (i : Z) : option A :=
  if 0 <=? i then v !! Z.to_nat i else None.

Definition vec_set {A} (v : list A) (i : Z) (x : A) : option (list A) :=
  if (0 <=? i) && (i <? Z.of_nat (length v))
  then Some (<[Z.to_nat i := x]> v) else None.

(** [vector<T> v(n, x)]: a negative [int] size converts to a huge [size_t]
    and the constructor throws. *)
Definition vec_make {A} (n : Z) (x : A) : option (list A) :=
  if n <? 0 then None else Some (replicate (Z.to_nat n) x).

Definition of_option {A} (o : option A) : outcome A :=
  match o with Some x => Done x | None => Fault end.

(** [vector<int>::max_size()] of the library [g++] links on a 64-bit
    target: [PTRDIFF_MAX / sizeof(int)]. *)
Definition data_max_size : Z := 2 ^ 61 - 1.

(** [vector<int> data(a.N);] the constructor throws [std::length_error]
    for a size above [max_size()], before it allocates. *)
Definition data_alloc (n : Z) : option (list Z) :=
  if n <=? data_max_size then Some (replicate (Z.to_nat n) 0) else None.

(** ** A pool of workers under a schedule *)

Section pool.
Context {L S : Type}.
(** One action of worker [t]: its private state and the shared store before
    and after; [None] is a fault.  A worker that is finished, or blocked on
    a lock or barrier, leaves both unchanged. *)
Variable step : nat → L → S → option (L * S).
(** Has the worker returned from its body? *)
Variable fin : L → bool.

Definition pool_step (t : nat) (st : list L * S) : option (list L * S) :=
  match st.1 !! t with
  | None => Some st
  | Some l =>
      match step t l st.2 with
      | Some (l', s') => Some (<[t := l']> st.1, s')
      | None => None
      end
  end.

Fixpoint pool_run (sched : list nat) (st : list L * S) : option (list L * S) :=
  match sched with
  | [] => Some st
  | t :: sched =>
      match pool_step t st with
      | Some st' => pool_run sched st'
      | None => None
      end
  end.

(** [for (auto& th : ths) th.join();] and the barrier that closes an OpenMP
    parallel region. *)
Definition join (sched : list nat) (st : list L * S) : outcome (list L * S) :=
  match pool_run sched st with
  | None => Fault
  | Some st' => if forallb fin st'.1 then Done st' else Pending
  end.
End pool.

(** ** The random engine *)

(** [std::mt19937_64] and [std::uniform_int_distribution<int>] belong to the
    C++ library, not to the repository: the programs only construct an engine
    from a seed and draw from it. *)
Class Rng (G : Type) := {
  (** [mt19937_64 rng(s);] *)
  mt19937_64 : Z → G;
  (** [dist(rng)] for [uniform_int_distribution<int> dist(lo, hi)]: the
      value drawn and the engine afterwards. *)
  uniform_int : Z → Z → G → Z * G
}.

(** The contract of [uniform_int_distribution]: a value of [lo, hi]. *)
Class RngLaws (G : Type) `{Rng G} : Prop :=
  uniform_int_range : ∀ lo hi g, lo ≤ hi → lo ≤ (uniform_int lo hi g).1 ≤ hi.

(** [a.seed + (unsigned)t * 1337u + (unsigned)r * 17u] *)
Definition worker_seed (a : Args) (t r : Z) : Z :=
  wrap32u (wrap32u (seed a + wrap32u (wrap32u t * 1337))
           + wrap32u (wrap32u r * 17)).

(** [a.seed + (unsigned)r * 17u] of the sequential baseline. *)
Definition seq_seed (a : Args) (r : Z) : Z :=
  wrap32u (seed a + wrap32u (wrap32u r * 17)).

(** ** Generation phase *)

Section generation.
Context {G : Type} `{Rng G}.
Variable a : Args.

(** The locals of a generation worker: loop index, loop bound, engine. *)
Record gen_worker := mkGen { gw_i : Z; gw_end : Z; gw_rng : G }.

(** One iteration of [for (i = start; i < end; ++i) data[i] = dist(rng);]
    (in hist_openmp.cpp [i] is a [long long] below [a.N], where the
    increment needs no wrap-around). *)
Definition gen_step (t : nat) (w : gen_worker) (data : list Z)
  : option (gen_worker * list Z) :=
  if gw_i w <? gw_end w then
    let '(v, g) := uniform_int (minv a) (maxv a) (gw_rng w) in
    data' ← vec_set data (gw_i w) v;
    Some (mkGen (wrap64 (gw_i w + 1)) (gw_end w) g, data')
  else Some (w, data).

Definition gen_fin (w : gen_worker) : bool := negb (gw_i w <? gw_end w).

(** Worker [t] starts at the beginning of its block with an engine of its
    own. *)
Definition gen_init (r : Z) (blocks : list (Z * Z)) : list gen_worker :=
  imap (λ t b, mkGen b.1 b.2 (mt19937_64 (worker_seed a (Z.of_nat t) r))) blocks.

(** [vector<int> data(a.N);], the workers, the join. *)
Definition gen_phase (r : Z) (blocks : list (Z * Z)) (sched : list nat)
  : outcome (list Z) :=
  data ←o of_option (data_alloc (N a));
  st ←o join gen_step gen_fin sched (gen_init r blocks, data);
  Done st.2.

(** The sequential baseline: [for (i = 0; i < a.N; ++i) data[i] = dist(rng);]
    as [n] iterations from index [i]. *)
Fixpoint seq_fill (n : nat) (i : Z) (g : G) (data : list Z) : option (list Z) :=
  match n with
  | O => Some data
  | S n =>
      let '(v, g') := uniform_int (minv a) (maxv a) g in
      data' ← vec_set data i v;
      seq_fill n (wrap64 (i + 1)) g' data'
  end.

(** [vector<int> data(a.N);] and the loop. *)
Definition seq_gen (r : Z) : option (list Z) :=
  data ← data_alloc (N a);
  seq_fill (Z.to_nat (N a)) 0 (mt19937_64 (seq_seed a r)) data.
End generation.
Global Arguments gen_worker : clear implicits.

(** ** Counting phase *)

Definition LLONG_MAX : Z := 2 ^ 63 - 1.

(** [++v] on a [uint64_t]. *)
Definition incr_u64 (v : Z) : option Z := Some (wrap64 (v + 1)).
(** [++v] and [v += 1] on a [long long]: overflow is undefined. *)
Definition incr_ll (v : Z) : option Z :=
  if v <? LLONG_MAX then Some (v + 1) else None.
(** [fetch_add(1LL)] on an [atomic<long long>]: two's complement, no
    undefined result. *)
Definition fetch_add_ll (v : Z) : option Z :=
  Some ((v + 1 + 2 ^ 63) mod 2 ^ 64 - 2 ^ 63).

(** [y + x] on [uint64_t] and on [long long]. *)
Definition add_u64 (y x : Z) : option Z := Some (wrap64 (y + x)).
Definition add_ll (y x : Z) : option Z :=
  if (- 2 ^ 63 <=? y + x) && (y + x <=? LLONG_MAX) then Some (y + x) else None.

(** [for (int b = 0; b < bins; ++b) dst[b] += src[b];] *)
Definition add_row (add : Z → Z → option Z) (nbins : Z) (dst src : list Z)
  : option (list Z) :=
  foldl (λ acc b, dst ← acc; x ← vec_get src b; y ← vec_get dst b;
                  s ← add y x; vec_set dst b s)
        (Some dst) (seqZ 0 nbins).

(** [accumulate(hist.begin(), hist.end(), uint64_t{0})], and the loop
    [sum_hist += (uint64_t)hist[b].load()] over all bins. *)
Definition accumulate (hist : list Z) : Z :=
  foldl (λ acc x, wrap64 (acc + wrap64 x)) 0 hist.

Section counting.
Variable a : Args.
Variable data : list Z.

(** [const int idx = data[i] - a.minv;] *)
Definition bin_of (x : Z) : Z := wrap32s (x - minv a).

(** The locals of a counting worker: loop index and loop bound. *)
Record cnt_worker := mkCnt { cw_i : Z; cw_end : Z }.

Definition cnt_init (blocks : list (Z * Z)) : list cnt_worker :=
  (λ b, mkCnt b.1 b.2) <$> blocks.

Definition cnt_fin (w : cnt_worker) : bool := negb (cw_i w <? cw_end w).

(** *** private, hist_threads.cpp: [++locals[t][idx]] *)
Definition priv_step (t : nat) (w : cnt_worker) (locals : list (list Z))
  : option (cnt_worker * list (list Z)) :=
  if cw_i w <? cw_end w then
    x ← vec_get data (cw_i w);
    local ← locals !! t;
    v ← vec_get local (bin_of x);
    v' ← incr_u64 v;
    local' ← vec_set local (bin_of x) v';
    Some (mkCnt (wrap64 (cw_i w + 1)) (cw_end w), <[t := local']> locals)
  else Some (w, locals).

(** [for (int t = 0; t < T; ++t) for (int b = 0; b < bins; ++b)
      hist_global[b] += locals[t][b];] *)
Definition reduce_locals (nbins T : Z) (locals : list (list Z))
    (hist_global : list Z) : option (list Z) :=
  foldl (λ acc t, hg ← acc; row ← vec_get locals t; add_row add_u64 nbins hg row)
        (Some hist_global) (seqZ 0 T).

(** *** atomic: one indivisible read-modify-write of [hist[idx]]
    ([fetch_add] in hist_threads.cpp, [omp atomic update] in
    hist_openmp.cpp) *)
Definition atomic_step (incr : Z → option Z) (t : nat) (w : cnt_worker)
    (hist : list Z) : option (cnt_worker * list Z) :=
  if cw_i w <? cw_end w then
    x ← vec_get data (cw_i w);
    v ← vec_get hist (bin_of x);
    v' ← incr v;
    hist' ← vec_set hist (bin_of x) v';
    Some (mkCnt (wrap64 (cw_i w + 1)) (cw_end w), hist')
  else Some (w, hist).

(** *** mutex: [lock(idx); ++hist[idx]; unlock(idx)]

    The increment is an ordinary load followed by an ordinary store; only
    the lock of the bin keeps two workers from interleaving them. *)
Inductive mtx_pc : Type :=
  | MIdle                       (* between two iterations *)
  | MHeld (idx : Z)             (* lock taken *)
  | MLoaded (idx : Z) (v : Z)   (* hist[idx] read into a register *)
  | MStored (idx : Z).          (* hist[idx] written back, lock still held *)

Record mtx_worker := mkMtx { mw_i : Z; mw_end : Z; mw_pc : mtx_pc }.

(** The shared store: the bins and, per bin, whether its lock is taken. *)
Record mtx_store := mkStore { ms_hist : list Z; ms_locks : list bool }.

Definition mtx_init (blocks : list (Z * Z)) : list mtx_worker :=
  (λ b, mkMtx b.1 b.2 MIdle) <$> blocks.

Definition mtx_fin (w : mtx_worker) : bool :=
  match mw_pc w with
  | MIdle => negb (mw_i w <? mw_end w)
  | _ => false
  end.

Definition mtx_step (t : nat) (w : mtx_worker) (s : mtx_store)
  : option (mtx_worker * mtx_store) :=
  match mw_pc w with
  | MIdle =>
      if mw_i w <? mw_end w then
        x ← vec_get data (mw_i w);
        held ← vec_get (ms_locks s) (bin_of x);
        if held : bool then Some (w, s)     (* blocked: try again later *)
        else
          locks' ← vec_set (ms_locks s) (bin_of x) true;
          Some (mkMtx (mw_i w) (mw_end w) (MHeld (bin_of x)),
                mkStore (ms_hist s) locks')
      else Some (w, s)
  | MHeld idx =>
      v ← vec_get (ms_hist s) idx;
      Some (mkMtx (mw_i w) (mw_end w) (MLoaded idx v), s)
  | MLoaded idx v =>
      v' ← incr_ll v;
      hist' ← vec_set (ms_hist s) idx v';
      Some (mkMtx (mw_i w) (mw_end w) (MStored idx),
            mkStore hist' (ms_locks s))
  | MStored idx =>
      locks' ← vec_set (ms_locks s) idx false;
      Some (mkMtx (wrap64 (mw_i w + 1)) (mw_end w) MIdle,
            mkStore (ms_hist s) locks')
  end.

(** *** private, hist_openmp.cpp: a [hist_local] per worker, the barrier
    that ends the [omp for], then the merge inside [omp critical].

    The critical region runs in mutual exclusion and nothing outside it
    touches [hist_global], so the merge loop is one action. *)
Inductive omp_pc : Type :=
  | OCount      (* inside the omp for *)
  | OBarrier    (* arrived at the barrier *)
  | OMerged.    (* left the critical region *)

Record opriv_worker :=
  mkOpriv { ow_i : Z; ow_end : Z; ow_local : list Z; ow_pc : omp_pc }.

(** [hist_global] and the number of workers that reached the barrier. *)
Record opriv_store := mkOstore { os_hist : list Z; os_arrived : Z }.

Definition opriv_init (nbins : Z) (blocks : list (Z * Z)) : list opriv_worker :=
  (λ b, mkOpriv b.1 b.2 (replicate (Z.to_nat nbins) 0) OCount) <$> blocks.

Definition opriv_fin (w : opriv_worker) : bool :=
  match ow_pc w with OMerged => true | _ => false end.

Definition opriv_step (nbins T : Z) (t : nat) (w : opriv_worker)
    (s : opriv_store) : option (opriv_worker * opriv_store) :=
  match ow_pc w with
  | OCount =>
      if ow_i w <? ow_end w then
        x ← vec_get data (ow_i w);
        v ← vec_get (ow_local w) (bin_of x);
        v' ← incr_ll v;
        local' ← vec_set (ow_local w) (bin_of x) v';
        Some (mkOpriv (ow_i w + 1) (ow_end w) local' OCount, s)
      else
        Some (mkOpriv (ow_i w) (ow_end w) (ow_local w) OBarrier,
              mkOstore (os_hist s) (os_arrived s + 1))
  | OBarrier =>
      if os_arrived s =? T then
        hg ← add_row add_ll nbins (os_hist s) (ow_local w);
        Some (mkOpriv (ow_i w) (ow_end w) (ow_local w) OMerged,
              mkOstore hg (os_arrived s))
      else Some (w, s)
  | OMerged => Some (w, s)
  end.

(** *** The sequential baseline: [for (i = 0; i < a.N; ++i) ++hist[idx];]
    as [n] iterations from index [i]. *)
Fixpoint seq_count (n : nat) (i : Z) (hist : list Z) : option (list Z) :=
  match n with
  | O => Some hist
  | S n =>
      x ← vec_get data i;
      v ← vec_get hist (bin_of x);
      v' ← incr_u64 v;
      hist' ← vec_set hist (bin_of x) v';
      seq_count n (wrap64 (i + 1)) hist'
  end.
End counting.

(** ** The OpenMP runtime *)

(** What hist_openmp.cpp takes from the OpenMP runtime: the size of the team
    of a parallel region, and the blocks of a [for schedule(static)] loop
    without a chunk size (at most one block of consecutive iterations per
    thread; their sizes are left to the runtime). *)
Class OmpRuntime := {
  (** [omp_get_num_threads()] inside a parallel region, given the argument
      of the last [omp_set_num_threads] call, if there was one. *)
  omp_get_num_threads : option Z → Z;
  (** The blocks of the iterations [0, n) for a team of [T], by thread
      number. *)
  omp_static : Z → Z → list (Z * Z)
}.

Class OmpLaws `{OmpRuntime} : Prop := {
  omp_team_size : ∀ req, 1 ≤ omp_get_num_threads req ≤ INT_MAX;
  omp_static_length : ∀ n T, length (omp_static n T) = Z.to_nat T;
  (** every iteration is executed exactly once *)
  omp_static_tiles : ∀ n T,
    0 ≤ n < 2 ^ 63 → 1 ≤ T ≤ INT_MAX → tiles n (omp_static n T)
}.

(** [(long long)a.N] *)
Definition as_ll (z : Z) : Z := (z + 2 ^ 63) mod 2 ^ 64 - 2 ^ 63.

(** ** The three programs *)

(** One line of CSV output. *)
Record timing_record := mkRecord {
  r_backend : string;
  r_variant : string;
  r_threads : Z;
  r_N : Z;
  r_bins : Z;
  r_min : Z;
  r_max : Z;
  r_seed : Z;
  r_gen_ms : Z;
  r_hist_ms : Z;
  r_total_ms : Z;
  r_sum_hist : Z
}.

(** What a run does that can be seen from outside.  [EvGenerated] is not
    output: it marks that the generation phase of a repetition ran, and
    carries the dataset it produced. *)
Inductive event : Type :=
  | EvHeader                          (* the CSV header on stdout *)
  | EvGenerated (r : Z) (data : list Z)
  | EvRecord (rec : timing_record)    (* one CSV line on stdout *)
  | EvUnsupported (v : string).       (* "Variant no soportada" on stderr *)

(** What one repetition takes from its environment: the interleaving of the
    workers in its two parallel phases and the two durations read off the
    clock. *)
Record rep_env := mkEnv {
  gen_sched : list nat;
  cnt_sched : list nat;
  gen_ms : Z;
  hist_ms : Z
}.

(** [for (int r = 0; r < a.rep; ++r) { ... }  return 0;] where the body may
    [return] a status itself.  [count] iterations remain, the next has index
    [r]. *)
Fixpoint run_reps (body : Z → outcome (list event * option Z))
    (r : Z) (count : nat) : outcome (list event * Z) :=
  match count with
  | O => Done ([], 0)
  | S count =>
      out ←o body r;
      match out.2 with
      | Some status => Done (out.1, status)
      | None =>
          rest ←o run_reps body (r + 1) count;
          Done (out.1 ++ rest.1, rest.2)
      end
  end.

(** The end of the loop body of all three programs: the durations, then the
    CSV line. *)
Definition emit (backend vname : string) (a : Args) (T : Z) (e : rep_env)
    (sum_hist : Z) : timing_record :=
  let tot_ms := gen_ms e + hist_ms e in
  mkRecord backend vname T (N a) (bins a) (minv a) (maxv a) (seed a)
           (gen_ms e) (hist_ms e) tot_ms sum_hist.

Definition rep_tail (backend vname : string) (a : Args) (T : Z) (r : Z)
    (data : list Z) (e : rep_env) (sum_hist : Z)
  : outcome (list event * option Z) :=
  Done ([EvGenerated r data; EvRecord (emit backend vname a T e sum_hist)], None).

Definition supported (v : string) : bool :=
  (String.eqb v "private" || String.eqb v "atomic" || String.eqb v "mutex")%bool.

Section programs.
Context {G : Type} `{Rng G} `{OmpRuntime}.

(** *** hist_threads.cpp *)

(** The counting phase: the histogram and [sum_hist]. *)
Definition threads_count (a : Args) (T : Z) (data : list Z) (sched : list nat)
  : outcome (list Z * Z) :=
  let blocks := thread_blocks (N a) T in
  if String.eqb (variant a) "private" then
    row ←o of_option (vec_make (bins a) 0);
    locals ←o of_option (vec_make T row);
    st ←o join (priv_step a data) cnt_fin sched (cnt_init blocks, locals);
    zero ←o of_option (vec_make (bins a) 0);
    hist_global ←o of_option (reduce_locals (bins a) T st.2 zero);
    Done (hist_global, accumulate hist_global)
  else if String.eqb (variant a) "atomic" then
    hist ←o of_option (vec_make (bins a) 0);
    st ←o join (atomic_step a data fetch_add_ll) cnt_fin sched
            (cnt_init blocks, hist);
    Done (st.2, accumulate st.2)
  else
    hist ←o of_option (vec_make (bins a) 0);
    bin_mtx ←o of_option (vec_make (bins a) false);
    st ←o join (mtx_step a data) mtx_fin sched
            (mtx_init blocks, mkStore hist bin_mtx);
    Done (ms_hist st.2, accumulate (ms_hist st.2)).

(** The two parallel phases of one repetition: the dataset, the histogram
    and [sum_hist]. *)
Definition threads_phases (a : Args) (T : Z) (r : Z) (e : rep_env)
  : outcome (list Z * (list Z * Z)) :=
  data ←o gen_phase a r (thread_blocks (N a) T) (gen_sched e);
  res ←o threads_count a T data (cnt_sched e);
  Done (data, res).

(** The body of the repetition loop. *)
Definition threads_rep (a : Args) (T : Z) (r : Z) (e : rep_env)
  : outcome (list event * option Z) :=
  p ←o threads_phases a T r e;
  rep_tail "threads" (variant a) a T r p.1 e p.2.2.

(** [if (a.threads <= 0) a.threads = 4;  const int T = a.threads;] *)
Definition threads_T (a : Args) : Z :=
  if threads a <=? 0 then 4 else threads a.

(** [main]: the parsed arguments, whether [--csv-header] was given, and the
    environment of each repetition. *)
Definition threads_main (a0 : Args) (csv_header : bool) (env : Z → rep_env)
  : outcome (list event * Z) :=
  if csv_header then Done ([EvHeader], 0)
  else
    let a := normalize a0 in
    let T := threads_T a in
    if negb (supported (variant a)) then Done ([EvUnsupported (variant a)], 2)
    else run_reps (λ r, threads_rep a T r (env r)) 0 (Z.to_nat (rep a)).

(** *** hist_openmp.cpp *)

(** [if (a.threads > 0) omp_set_num_threads(a.threads);] *)
Definition omp_request (a : Args) : option Z :=
  if threads a >? 0 then Some (threads a) else None.

(** The counting phase: the histogram and [sum_hist], or [None] in the
    final [else] branch. *)
Definition omp_count (a : Args) (T : Z) (data : list Z) (sched : list nat)
  : outcome (option (list Z * Z)) :=
  let blocks := omp_static (as_ll (N a)) T in
  if String.eqb (variant a) "private" then
    hist_global ←o of_option (vec_make (bins a) 0);
    st ←o join (opriv_step a data (bins a) T) opriv_fin sched
            (opriv_init (bins a) blocks, mkOstore hist_global 0);
    Done (Some (os_hist st.2, accumulate (os_hist st.2)))
  else if String.eqb (variant a) "atomic" then
    hist ←o of_option (vec_make (bins a) 0);
    st ←o join (atomic_step a data incr_ll) cnt_fin sched
            (cnt_init blocks, hist);
    Done (Some (st.2, accumulate st.2))
  else if String.eqb (variant a) "mutex" then
    hist ←o of_option (vec_make (bins a) 0);
    locks ←o of_option (vec_make (bins a) false);
    st ←o join (mtx_step a data) mtx_fin sched
            (mtx_init blocks, mkStore hist locks);
    Done (Some (ms_hist st.2, accumulate (ms_hist st.2)))
  else Done None.

Definition omp_phases (a : Args) (r : Z) (e : rep_env)
  : outcome (list Z * option (list Z * Z)) :=
  let T := omp_get_num_threads (omp_request a) in
  data ←o gen_phase a r (omp_static (as_ll (N a)) T) (gen_sched e);
  res ←o omp_count a T data (cnt_sched e);
  Done (data, res).

Definition omp_rep (a : Args) (r : Z) (e : rep_env)
  : outcome (list event * option Z) :=
  let T := omp_get_num_threads (omp_request a) in
  p ←o omp_phases a r e;
  match p.2 with
  | Some hs => rep_tail "openmp" (variant a) a T r p.1 e hs.2
  | None => Done ([EvGenerated r p.1; EvUnsupported (variant a)], Some 2)
  end.

Definition omp_main (a0 : Args) (csv_header : bool) (env : Z → rep_env)
  : outcome (list event * Z) :=
  if csv_header then Done ([EvHeader], 0)
  else
    let a := normalize a0 in
    run_reps (λ r, omp_rep a r (env r)) 0 (Z.to_nat (rep a)).

(** *** hist_seq.cpp *)

Definition seq_hist (a : Args) (data : list Z) : option (list Z) :=
  zero ← vec_make (bins a) 0;
  seq_count a data (Z.to_nat (N a)) 0 zero.

Definition seq_rep (a : Args) (r : Z) (e : rep_env)
  : outcome (list event * option Z) :=
  data ←o of_option (seq_gen a r);
  hist ←o of_option (seq_hist a data);
  rep_tail "seq" "baseline" a 1 r data e (accumulate hist).

Definition seq_main (a0 : Args) (csv_header : bool) (env : Z → rep_env)
  : outcome (list event * Z) :=
  if csv_header then Done ([EvHeader], 0)
  else
    let a := normalize a0 in
    run_reps (λ r, seq_rep a r (env r)) 0 (Z.to_nat (rep a)).

(** *** The two parallel programs side by side *)

Inductive backend : Type := Threads | OpenMP.

Definition phases (be : backend) (a : Args) (r : Z) (e : rep_env)
  : outcome (list Z * option (list Z * Z)) :=
  match be with
  | Threads => p ←o threads_phases a (threads_T a) r e; Done (p.1, Some p.2)
  | OpenMP => omp_phases a r e
  end.

Definition count (be : backend) (a : Args) (data : list Z) (sched : list nat)
  : outcome (option (list Z * Z)) :=
  match be with
  | Threads => res ←o threads_count a (threads_T a) data sched; Done (Some res)
  | OpenMP => omp_count a (omp_get_num_threads (omp_request a)) data sched
  end.

Definition rep_body (be : backend) (a : Args) (r : Z) (e : rep_env)
  : outcome (list event * option Z) :=
  match be with
  | Threads => threads_rep a (threads_T a) r e
  | OpenMP => omp_rep a r e
  end.

Definition run_main (be : backend) (a0 : Args) (csv_header : bool)
    (env : Z → rep_env) : outcome (list event * Z) :=
  match be with
  | Threads => threads_main a0 csv_header env
  | OpenMP => omp_main a0 csv_header env
  end.
End programs.

(** ** A concrete engine and a concrete runtime

    Used where a statement needs an executable instance. *)

(** A 64-bit linear congruential engine; the distribution reduces its high
    bits modulo the width of the range. *)
Definition lcg_next (g : Z) : Z :=
  (g * 6364136223846793005 + 1442695040888963407) mod 2 ^ 64.

Definition lcg_uniform (lo hi : Z) (g : Z) : Z * Z :=
  let g' := lcg_next g in (lo + (g' / 2 ^ 33) mod (hi - lo + 1), g').

Definition lcg : Rng Z := {| mt19937_64 := λ s, s; uniform_int := lcg_uniform |}.

(** The static schedule of GNU libgomp, the runtime [g++ -fopenmp] of
    scripts/build.sh links: with [q = n / T] and [r = n mod T], the first
    [r] threads take [q + 1] iterations each and the others [q]. *)
Definition gomp_block (n T : Z) (tid : nat) : Z * Z :=
  let q := n / T in
  let r := n mod T in
  let t := Z.of_nat tid in
  if t <? r then (t * (q + 1), (t + 1) * (q + 1))
  else (t * q + r, (t + 1) * q + r).

Definition gomp_static (n T : Z) : list (Z * Z) :=
  gomp_block n T <$> seq 0 (Z.to_nat T).

(** The team has the requested size, or [ncpu] threads when none was
    requested. *)
Definition gomp_team (ncpu : Z) (req : option Z) : Z :=
  match req with
  | Some n => if (1 <=? n) && (n <=? INT_MAX) then n else ncpu
  | None => ncpu
  end.

Definition gomp (ncpu : Z) : OmpRuntime :=
  {| omp_get_num_threads := gomp_team ncpu; omp_static := gomp_static |}.

(** ** The command line *)

(** [std::stoll] and [std::stoi] belong to the C++ library: the programs
    call them on the argument that follows a flag and catch none of their
    exceptions.  [None] is [std::invalid_argument] or
    [std::out_of_range]. *)
Class Conv := {
  stoll : string → option Z;
  stoi : string → option Z
}.

(** What their return types [long long] and [int] guarantee. *)
Class ConvLaws `{Conv} : Prop := {
  stoll_range : ∀ s z, stoll s = Some z → - 2 ^ 63 ≤ z ≤ LLONG_MAX;
  stoi_range : ∀ s z, stoi s = Some z → INT_MIN ≤ z ≤ INT_MAX
}.

(** [for (int i=0;i<argc;i++) if (name == argv[i]) return true;
    return false;] *)
Fixpoint has_flag (argv : list string) (name : string) : bool :=
  match argv with
  | [] => false
  | x :: argv => if String.eqb name x then true else has_flag argv name
  end.

(** The loop of the three getters,
    [for (int i=0;i<argc-1;i++) if (name == argv[i]) return f(argv[i+1]);]
    up to the conversion [f]: the argument behind the first occurrence of
    [name], the last argument not being compared. *)
Fixpoint arg_after (argv : list string) (name : string) : option string :=
  match argv with
  | x :: ((y :: _) as rest) =>
      if String.eqb name x then Some y else arg_after rest name
  | _ => None
  end.

(** [return string(argv[i+1]);] or [return def;] *)
Definition get_str (argv : list string) (name def : string) : string :=
  match arg_after argv name with Some v => v | None => def end.

(** [return stoll(argv[i+1]);] or [return def;] *)
Definition get_ll `{Conv} (argv : list string) (name : string) (def : Z)
  : option Z :=
  match arg_after argv name with Some v => stoll v | None => Some def end.

(** [return stoi(argv[i+1]);] or [return def;] *)
Definition get_int `{Conv} (argv : list string) (name : string) (def : Z)
  : option Z :=
  match arg_after argv name with Some v => stoi v | None => Some def end.

(** [Args a;] with the member initialisers of each program.  [hw] is what
    [thread::hardware_concurrency()] returns, an [unsigned] that
    hist_threads.cpp converts to [int].  The [struct Args] of hist_seq.cpp
    has neither [variant] nor [threads]: the two fields hold what the
    program prints in their columns. *)
Definition threads_defaults (hw : Z) : Args :=
  mkArgs 10000000 0 255 12345 1 "private" (wrap32s hw).

Definition omp_defaults : Args :=
  mkArgs 10000000 0 255 12345 1 "private" (-1).

Definition seq_defaults : Args :=
  mkArgs 1000000 0 255 12345 1 "baseline" 1.

(** The seven assignments of [main] in hist_threads.cpp and
    hist_openmp.cpp, in order, from the defaults [d]:
    [a.N = (uint64_t)get_ll(argc, argv, "--n", (long long)a.N);] ...
    [a.threads = get_int(argc, argv, "--threads", a.threads);] *)
Definition parse_args `{Conv} (d : Args) (argv : list string) : option Args :=
  n ← get_ll argv "--n" (as_ll (N d));
  mn ← get_int argv "--min" (minv d);
  mx ← get_int argv "--max" (maxv d);
  sd ← get_int argv "--seed" (wrap32s (seed d));
  rp ← get_int argv "--rep" (rep d);
  let v := get_str argv "--variant" (variant d) in
  th ← get_int argv "--threads" (threads d);
  Some (mkArgs (wrap64 n) mn mx (wrap32u sd) rp v th).

(** The five assignments of [main] in hist_seq.cpp. *)
Definition seq_parse_args `{Conv} (d : Args) (argv : list string)
  : option Args :=
  n ← get_ll argv "--n" (as_ll (N d));
  mn ← get_int argv "--min" (minv d);
  mx ← get_int argv "--max" (maxv d);
  sd ← get_int argv "--seed" (wrap32s (seed d));
  rp ← get_int argv "--rep" (rep d);
  Some (mkArgs (wrap64 n) mn mx (wrap32u sd) rp (variant d) (threads d)).

Section command_line.
Context {G : Type} `{Rng G} `{OmpRuntime} `{Conv}.

(** [main(argc, argv)] of the three programs: the header and nothing else
    when [--csv-header] is among the arguments, otherwise the arguments
    are converted and the run starts.  An exception of a conversion is
    caught nowhere. *)
Definition threads_cli (hw : Z) (argv : list string) (env : Z → rep_env)
  : outcome (list event * Z) :=
  if has_flag argv "--csv-header" then Done ([EvHeader], 0)
  else
    a ←o of_option (parse_args (threads_defaults hw) argv);
    threads_main a false env.

Definition omp_cli (argv : list string) (env : Z → rep_env)
  : outcome (list event * Z) :=
  if has_flag argv "--csv-header" then Done ([EvHeader], 0)
  else
    a ←o of_option (parse_args omp_defaults argv);
    omp_main a false env.

Definition seq_cli (argv : list string) (env : Z → rep_env)
  : outcome (list event * Z) :=
  if has_flag argv "--csv-header" then Done ([EvHeader], 0)
  else
    a ←o of_option (seq_parse_args seq_defaults argv);
    seq_main a false env.
End command_line.

(** ** The CSV output *)

(** [cout << z] for the integer types of the programs: decimal digits, with
    a minus sign below zero. *)
Definition show (z : Z) : string := NilZero.string_of_int (Z.to_int z).

Definition newline : string := String "010"%char "".

(** The line [--csv-header] prints. *)
Definition csv_header : string :=
  "backend,variant,threads,N,bins,min,max,seed,gen_ms,hist_ms,total_ms,sum_hist"
  +:+ newline.

(** [cout << backend << "," << a.variant << "," << T << "," << a.N << ","
         << bins << "," << a.minv << "," << a.maxv << "," << a.seed << ","
         << gen_ms << "," << hist_ms << "," << tot_ms << "," << sum_hist
         << "\n";] *)
Definition csv_line (rec : timing_record) : string :=
  r_backend rec +:+ "," +:+ r_variant rec +:+ "," +:+ show (r_threads rec)
  +:+ "," +:+ show (r_N rec) +:+ "," +:+ show (r_bins rec)
  +:+ "," +:+ show (r_min rec) +:+ "," +:+ show (r_max rec)
  +:+ "," +:+ show (r_seed rec) +:+ "," +:+ show (r_gen_ms rec)
  +:+ "," +:+ show (r_hist_ms rec) +:+ "," +:+ show (r_total_ms rec)
  +:+ "," +:+ show (r_sum_hist rec) +:+ newline.

(** What a run writes to standard output, line by line. *)
Definition stdout_lines (evs : list event) : list string :=
  omap (λ ev, match ev with
              | EvHeader => Some csv_header
              | EvRecord rec => Some (csv_line rec)
              | _ => None
              end) evs.

(** ** The conversions of the C++ library, concretely

    [strtol] and [strtoll] in base 10: white space is skipped, an optional
    sign is read, then decimal digits up to the first character that is
    none; what follows is ignored.  No digit at all is
    [std::invalid_argument], a value outside the result type
    [std::out_of_range]. *)
Definition is_space (c : Ascii.ascii) : bool :=
  let n := Ascii.N_of_ascii c in ((n =? 32) || ((9 <=? n) && (n <=? 13)))%N.

Definition digit_val (c : Ascii.ascii) : option Z :=
  let n := Z.of_N (Ascii.N_of_ascii c) in
  if (48 <=? n) && (n <=? 57) then Some (n - 48) else None.

Fixpoint skip_space (s : string) : string :=
  match s with
  | String c s' => if is_space c then skip_space s' else s
  | EmptyString => s
  end.

(** The value of the leading digits, [acc] being the value of those
    already read, if any. *)
Fixpoint read_digits (s : string) (acc : option Z) : option Z :=
  match s with
  | String c s' =>
      match digit_val c with
      | Some d => read_digits s' (Some (10 * default 0 acc + d))
      | None => acc
      end
  | EmptyString => acc
  end.

Definition read_integer (s : string) : option Z :=
  match skip_space s with
  | String "-"%char s' => Z.opp <$> read_digits s' None
  | String "+"%char s' => read_digits s' None
  | s' => read_digits s' None
  end.

Definition std_stoll (s : string) : option Z :=
  z ← read_integer s;
  if (- 2 ^ 63 <=? z) && (z <=? LLONG_MAX) then Some z else None.

Definition std_stoi (s : string) : option Z :=
  z ← read_integer s;
  if (INT_MIN <=? z) && (z <=? INT_MAX) then Some z else None.

Definition std_conv : Conv := {| stoll := std_stoll; stoi := std_stoi |}.

(** ** scripts/run_bench.sh

    The script runs the two parallel programs over the three variants and
    a set of thread counts and collects their lines in one CSV file.  Its
    messages on the terminal and the name of the CSV file are left out;
    what the model keeps is the arguments it accepts, the commands it
    issues, in order, and when it stops. *)

(** The variables the script sets from its arguments, as text. *)
Record bench := mkBench {
  sh_BACKEND : string;
  sh_N : string;
  sh_MIN : string;
  sh_MAX : string;
  sh_REPS : string;
  sh_THREADS : string;
  sh_SEED : string
}.

(** [BACKEND="both"  N=5000000  MIN=0; MAX=255  REPS=1  SEED=42] and an
    empty [THREADS]. *)
Definition bench_defaults : bench :=
  mkBench "both" "5000000" "0" "255" "1" "" "42".

(** The branches of [case "$1" in --backend) BACKEND="$2"; shift 2;; ...
    esac] but the last: the assignment a flag stands for, [None] for a
    first argument that only the default branch matches. *)
Definition bench_assign (flag v : string) (b : bench) : option bench :=
  if String.eqb flag "--backend" then
    Some (mkBench v (sh_N b) (sh_MIN b) (sh_MAX b) (sh_REPS b)
            (sh_THREADS b) (sh_SEED b))
  else if String.eqb flag "--n" then
    Some (mkBench (sh_BACKEND b) v (sh_MIN b) (sh_MAX b) (sh_REPS b)
            (sh_THREADS b) (sh_SEED b))
  else if String.eqb flag "--min" then
    Some (mkBench (sh_BACKEND b) (sh_N b) v (sh_MAX b) (sh_REPS b)
            (sh_THREADS b) (sh_SEED b))
  else if String.eqb flag "--max" then
    Some (mkBench (sh_BACKEND b) (sh_N b) (sh_MIN b) v (sh_REPS b)
            (sh_THREADS b) (sh_SEED b))
  else if String.eqb flag "--reps" then
    Some (mkBench (sh_BACKEND b) (sh_N b) (sh_MIN b) (sh_MAX b) v
            (sh_THREADS b) (sh_SEED b))
  else if String.eqb flag "--threads" then
    Some (mkBench (sh_BACKEND b) (sh_N b) (sh_MIN b) (sh_MAX b) (sh_REPS b)
            v (sh_SEED b))
  else if String.eqb flag "--seed" then
    Some (mkBench (sh_BACKEND b) (sh_N b) (sh_MIN b) (sh_MAX b) (sh_REPS b)
            (sh_THREADS b) v)
  else None.

(** Why the argument loop ends the script. *)
Inductive bench_stop : Type :=
  | UnknownArg (arg : string)     (* echo "Arg desconocido: $1"; exit 1 *)
  | UnboundValue (flag : string). (* "$2" with one argument left, under set -u *)

(** [while [[ $# -gt 0 ]]; do case "$1" in ... esac; done]: the first
    argument selects the branch, the branch reads the second, and
    [shift 2] drops both. *)
Fixpoint bench_args (args : list string) (b : bench) : bench_stop + bench :=
  match args with
  | [] => inr b
  | flag :: rest =>
      match rest with
      | v :: rest' =>
          match bench_assign flag v b with
          | Some b' => bench_args rest' b'
          | None => inl (UnknownArg flag)
          end
      | [] =>
          match bench_assign flag "" b with
          | Some _ => inl (UnboundValue flag)
          | None => inl (UnknownArg flag)
          end
      end
  end.

(** [SET="1"; t=2; while [[ $t -le $MAXT ]]; do SET="$SET $t"; t=$((t*2));
    done], the words of [SET] as numbers.  Shell arithmetic is 64-bit and
    signed; [None] when [fuel] iterations do not end the loop. *)
Fixpoint thread_set_loop (fuel : nat) (maxt t : Z) (SET : list Z)
  : option (list Z) :=
  match fuel with
  | O => None
  | S fuel =>
      if t <=? maxt
      then thread_set_loop fuel maxt (as_ll (t * 2)) (SET ++ [t])
      else Some SET
  end.

Definition thread_set (fuel : nat) (maxt : Z) : option (list Z) :=
  thread_set_loop fuel maxt 2 [1].

(** The words an unquoted [$X] leaves on a command line: the text is
    split at blanks, tabs and line feeds.  A word with a star, a question
    mark, an opening bracket or a backslash would then be matched against the files of the working
    directory, which the model does not have: [None]. *)
Definition is_ifs (c : ascii) : bool :=
  (Ascii.eqb c " " || Ascii.eqb c "009" || Ascii.eqb c "010")%bool.

Definition is_glob (c : ascii) : bool :=
  (Ascii.eqb c "042" || Ascii.eqb c "?" || Ascii.eqb c "["
   || Ascii.eqb c "092")%bool.

Fixpoint has_glob (s : string) : bool :=
  match s with
  | String c s' => (is_glob c || has_glob s')%bool
  | EmptyString => false
  end.

(** [cur] is the word being read, if one has begun. *)
Fixpoint fields_from (s : string) (cur : option string) : list string :=
  match s with
  | EmptyString => match cur with Some w => [w] | None => [] end
  | String c s' =>
      if is_ifs c then
        match cur with
        | Some w => w :: fields_from s' None
        | None => fields_from s' None
        end
      else
        fields_from s'
          (Some (match cur with Some w => w | None => "" end +:+ String c ""))
  end.

Definition expand (s : string) : option (list string) :=
  if has_glob s then None else Some (fields_from s None).

(** A command the script issues: the value it gives [OMP_NUM_THREADS] for
    that command, if any, and the argument vector. *)
Record command := mkCmd {
  cmd_omp_num_threads : option string;
  cmd_argv : list string
}.

(** [OMP_NUM_THREADS=$t ./bin/hist_openmp --n $N --min $MIN --max $MAX
      --variant $variant --seed $SEED --rep 1]
    with the words [n], [mn], [mx] and [sd] of the four variables. *)
Definition openmp_cmd (n mn mx sd : list string) (variant t : string)
  : command :=
  mkCmd (Some t)
    ("./bin/hist_openmp" :: "--n" :: n ++ "--min" :: mn ++ "--max" :: mx
       ++ "--variant" :: variant :: "--seed" :: sd ++ ["--rep"; "1"]).

(** [./bin/hist_threads --n $N --threads $t --min $MIN --max $MAX
      --variant $variant --seed $SEED --rep 1] *)
Definition threads_cmd (n mn mx sd : list string) (variant t : string)
  : command :=
  mkCmd None
    ("./bin/hist_threads" :: "--n" :: n ++ "--threads" :: t :: "--min" :: mn
       ++ "--max" :: mx ++ "--variant" :: variant :: "--seed" :: sd
       ++ ["--rep"; "1"]).

(** [for variant in private atomic mutex; do for t in $SET; do
      for r in $(seq 1 $REPS); do ... done; done; done]
    where [seq] prints [k] words. *)
Definition sweep (cmd : string → string → command) (SET : list string)
    (k : nat) : list command :=
  variant ← ["private"; "atomic"; "mutex"];
  t ← SET;
  _ ← replicate k ();
  [cmd variant t].

(** [echo "backend,...,sum_hist" > "$CSV"]: the first line of the CSV
    file, with the line feed [echo] adds. *)
Definition bench_header : string :=
  "backend,variant,threads,N,bins,min,max,seed,gen_ms,hist_ms,total_ms,sum_hist"
  +:+ newline.

(** The commands of a list in order, each appending its standard output to
    the CSV file ([>> "$CSV"]), up to the first that returns a status other
    than 0 and so ends the script ([set -e]).  [exec i c] is what command
    [c] prints and returns when it is the command number [i] of the run.
    The result: the commands run, the lines appended, and the status that
    ended the script, if any. *)
Fixpoint run_all (exec : nat → command → list string * Z) (i : nat)
    (cmds : list command) : list command * list string * option Z :=
  match cmds with
  | [] => ([], [], None)
  | c :: cmds =>
      let out := exec i c in
      if out.2 =? 0
      then let r := run_all exec (S i) cmds in
           (c :: r.1.1, out.1 ++ r.1.2, r.2)
      else ([c], out.1, Some out.2)
  end.

(** What a call of the script comes to. *)
Inductive bench_result : Type :=
  (** stopped by the argument loop, before the CSV file exists *)
  | BenchStopped (why : bench_stop)
  (** outside the model: an expansion that depends on the working
      directory, or a loop that [fuel] iterations do not end *)
  | BenchUnknown
  (** the commands run, the lines of the CSV file, the exit status, and
      whether the CSV file has been copied to last.csv *)
  | BenchDone (ran : list command) (csv : list string) (status : Z)
      (copied : bool).

(** The words of [SET]: the powers of two up to [MAXT], the number
    [nproc --all] prints, when [THREADS] is empty, and the words of
    [THREADS] otherwise. *)
Definition thread_words (fuel : nat) (b : bench) (maxt : Z)
  : option (list string) :=
  if String.eqb (sh_THREADS b) "" then
    match thread_set fuel maxt with
    | Some ts => Some (show <$> ts)
    | None => None
    end
  else expand (sh_THREADS b).

(** [case "$BACKEND" in openmp) run_openmp ;; threads) run_threads ;;
    both) run_openmp; run_threads ;; esac] with its default branch
    [exit 2]: the commands to run, [None] for the default branch. *)
Definition bench_commands (b : bench) (n mn mx sd SET : list string)
    (k : nat) : option (list command) :=
  let run_openmp := sweep (openmp_cmd n mn mx sd) SET k in
  let run_threads := sweep (threads_cmd n mn mx sd) SET k in
  if String.eqb (sh_BACKEND b) "openmp" then Some run_openmp
  else if String.eqb (sh_BACKEND b) "threads" then Some run_threads
  else if String.eqb (sh_BACKEND b) "both" then Some (run_openmp ++ run_threads)
  else None.

(** The script: its arguments, the number [nproc --all] prints, the number
    of words [seq 1 $REPS] prints, and what each command prints and
    returns.  The model is [BenchUnknown] as soon as one of the texts the
    script may expand holds a pattern character. *)
Definition run_bench (fuel : nat) (args : list string) (maxt : Z) (k : nat)
    (exec : nat → command → list string * Z) : bench_result :=
  match bench_args args bench_defaults with
  | inl why => BenchStopped why
  | inr b =>
      match thread_words fuel b maxt, expand (sh_N b), expand (sh_MIN b),
            expand (sh_MAX b), expand (sh_SEED b) with
      | Some SET, Some n, Some mn, Some mx, Some sd =>
          match bench_commands b n mn mx sd SET k with
          | Some cmds =>
              let r := run_all exec 0 cmds in
              match r.2 with
              | None => BenchDone r.1.1 (bench_header :: r.1.2) 0 true
              | Some st => BenchDone r.1.1 (bench_header :: r.1.2) st false
              end
          | None => BenchDone [] [bench_header] 2 false
          end
      | _, _, _, _, _ => BenchUnknown
      end
  end.

(** ** The script and the programs together *)

Section bench_programs.
Context {G : Type} `{Rng G} `{Conv}.

(** [omp_of v] is the OpenMP runtime of a process started with
    [OMP_NUM_THREADS] set to [v], or not set at all; [hw] is what
    [thread::hardware_concurrency()] returns on the machine. *)
Variable omp_of : option string → OmpRuntime.
Variable hw : Z.

(** What a command of the script runs: scripts/build.sh makes
    [bin/hist_openmp] from hist_openmp.cpp and [bin/hist_threads] from
    hist_threads.cpp.  The argument vector of [main] begins with the name
    of the program.  [None] for any other command. *)
Definition program_run (c : command) (env : Z → rep_env)
  : option (outcome (list event * Z)) :=
  match cmd_argv c with
  | prog :: _ =>
      if String.eqb prog "./bin/hist_openmp" then
        Some (@omp_cli G _ (omp_of (cmd_omp_num_threads c)) _ (cmd_argv c) env)
      else if String.eqb prog "./bin/hist_threads" then
        Some (threads_cli hw (cmd_argv c) env)
      else None
  | [] => None
  end.
End bench_programs.
(** * Properties *)

(** ** Machine integers *)

Lemma wrap64_small z : 0 ≤ z < 2 ^ 64 → wrap64 z = z.
Proof. intros. unfold wrap64. by apply Z.mod_small. Qed.

Lemma wrap32u_small z : 0 ≤ z < 2 ^ 32 → wrap32u z = z.
Proof. intros. unfold wrap32u. by apply Z.mod_small. Qed.

Lemma wrap32s_small z : INT_MIN ≤ z ≤ INT_MAX → wrap32s z = z.
Proof.
  unfold wrap32s, INT_MIN, INT_MAX. intros.
  rewrite Z.mod_small; lia.
Qed.

(** ** The partitioner *)

Section partition.
Variables n T : Z.
Hypothesis Hn : 0 ≤ n < 2 ^ 63.
Hypothesis HT : 1 ≤ T ≤ INT_MAX.

Lemma chunk_unwrapped : chunk n T = (n + T - 1) / T.
Proof using Hn HT.
    unfold chunk, INT_MAX in *.
    rewrite (wrap64_small (n + T)) by lia.
    rewrite wrap64_small by lia. done.
Qed.

Lemma chunk_nonneg : 0 ≤ chunk n T.
Proof using Hn HT. rewrite chunk_unwrapped. apply Z.div_pos; lia. Qed.

  (** [chunk] is the ceiling of n / T. *)
Lemma chunk_ceil : T * (chunk n T - 1) < n ≤ T * chunk n T.
Proof using Hn HT.
    rewrite chunk_unwrapped.
    pose proof (Z.div_mod (n + T - 1) T ltac:(lia)).
    pose proof (Z.mod_pos_bound (n + T - 1) T ltac:(lia)).
    nia.
Qed.

Lemma chunk_bound t : 0 ≤ t ≤ T → 0 ≤ t * chunk n T < 2 ^ 64.
Proof using Hn HT.
    intros Ht. pose proof chunk_nonneg. pose proof chunk_ceil.
    unfold INT_MAX in *. split; [nia|].
    assert (t * chunk n T ≤ T * chunk n T) by nia.
    assert (T * chunk n T < n + T) by nia. lia.
Qed.

Lemma start_unwrapped t : 0 ≤ t ≤ T → start n T t = t * chunk n T.
Proof using Hn HT. intros. unfold start. apply wrap64_small, chunk_bound. lia. Qed.

Lemma end_unwrapped t :
    0 ≤ t < T → end_ n T t = Z.min n ((t + 1) * chunk n T).
Proof using Hn HT.
    intros. unfold end_. f_equal. apply wrap64_small, chunk_bound. lia.
Qed.

  (** The first [k] blocks enumerate the indices below [min n (k * chunk)]. *)
Lemma thread_blocks_prefix (k : nat) :
    Z.of_nat k ≤ T →
    concat (block_idx <$> (thread_block n T <$> seq 0 k))
    = seqZ 0 (Z.min n (Z.of_nat k * chunk n T)).
Proof using Hn HT.
    induction k as [|k IH]; intros Hk.
    - simpl. rewrite seqZ_nil; [done|lia].
    - rewrite seq_S, !fmap_app, concat_app, IH by lia. simpl.
      rewrite app_nil_r. unfold block_idx, thread_block. simpl.
      rewrite start_unwrapped, end_unwrapped by lia.
      pose proof chunk_nonneg.
      replace (Z.of_nat k + 1) with (Z.of_nat (S k)) by lia.
      set (c := chunk n T) in *.
      destruct (Z.le_gt_cases n (Z.of_nat k * c)) as [Hle|Hgt].
      + rewrite (seqZ_nil (Z.of_nat k * c)) by lia.
        rewrite app_nil_r. f_equal. nia.
      + rewrite (Z.min_r n (Z.of_nat k * c)) by lia.
        replace (Z.min n (Z.of_nat (S k) * c))
          with (Z.of_nat k * c + (Z.min n (Z.of_nat (S k) * c) - Z.of_nat k * c)) at 2
          by lia.
        rewrite seqZ_app by nia. done.
Qed.

Lemma thread_blocks_concat :
  concat (block_idx <$> thread_blocks n T) = seqZ 0 n.
Proof using Hn HT.
  unfold thread_blocks. rewrite thread_blocks_prefix by lia.
  f_equal. pose proof chunk_ceil. rewrite Z2Nat.id by lia. lia.
Qed.

Lemma thread_blocks_tiles : tiles n (thread_blocks n T).
Proof using Hn HT. unfold tiles. by rewrite thread_blocks_concat. Qed.

Lemma length_thread_blocks : length (thread_blocks n T) = Z.to_nat T.
Proof. unfold thread_blocks. by rewrite length_fmap, length_seq. Qed.

End partition.

(** ** Vectors *)

Lemma vec_get_Some {A} (v : list A) i x :
  vec_get v i = Some x ↔ 0 ≤ i ∧ v !! Z.to_nat i = Some x.
Proof.
  unfold vec_get. destruct (Z.leb_spec 0 i).
  - split; [by intros ?|by intros [_ ?]].
  - split; [done|]. intros [Hi _]. lia.
Qed.

Lemma vec_get_lookup {A} (v : list A) i x :
  0 ≤ i → v !! Z.to_nat i = Some x → vec_get v i = Some x.
Proof. intros. by apply vec_get_Some. Qed.

Lemma vec_set_Some {A} (v : list A) i x :
  0 ≤ i < Z.of_nat (length v) → vec_set v i x = Some (<[Z.to_nat i := x]> v).
Proof.
  intros. unfold vec_set.
  destruct (Z.leb_spec 0 i); [|lia].
  destruct (Z.ltb_spec i (Z.of_nat (length v))); [done|lia].
Qed.

Lemma vec_make_Some {A} n (x : A) :
  0 ≤ n → vec_make n x = Some (replicate (Z.to_nat n) x).
Proof. intros. unfold vec_make. destruct (Z.ltb_spec n 0); [lia|done]. Qed.

(** ** Counters that do not overflow *)

Lemma incr_ll_small v : 0 ≤ v < LLONG_MAX → incr_ll v = Some (v + 1).
Proof. intros. unfold incr_ll. by destruct (Z.ltb_spec v LLONG_MAX); [|lia]. Qed.

Lemma fetch_add_ll_small v : 0 ≤ v < LLONG_MAX → fetch_add_ll v = Some (v + 1).
Proof.
  unfold fetch_add_ll, LLONG_MAX. intros. f_equal.
  rewrite Z.mod_small; lia.
Qed.

(** ** Pools: invariants and completion *)

Lemma forallb_false_lookup {A} (f : A → bool) (l : list A) :
  forallb f l = false → ∃ i x, l !! i = Some x ∧ f x = false.
Proof.
  induction l as [|x l IH]; simpl; [done|].
  destruct (f x) eqn:Hx; simpl.
  - intros (i & y & ? & ?)%IH. by exists (S i), y.
  - intros _. by exists 0%nat, x.
Qed.

Lemma forallb_true_lookup {A} (f : A → bool) (l : list A) i x :
  forallb f l = true → l !! i = Some x → f x = true.
Proof.
  revert i. induction l as [|y l IH]; intros i Hall Hi; [done|].
  simpl in Hall. apply andb_prop in Hall as [Hy Hall].
  destruct i as [|i]; simplify_eq/=; [done|]. by eapply IH.
Qed.

Section pool_facts.
Context {L S : Type}.
Variable step : nat → L → S → option (L * S).
Variable fin : L → bool.

Lemma pool_run_app s1 s2 st :
  pool_run step (s1 ++ s2) st = pool_run step s1 st ≫= pool_run step s2.
Proof.
  revert st. induction s1 as [|t s1 IH]; intros st; simpl; [done|].
  destruct (pool_step step t st); simpl; [apply IH|done].
Qed.

Variable Inv : list L → S → Prop.
Hypothesis step_inv : ∀ t ls s l,
  Inv ls s → ls !! t = Some l →
  ∃ l' s', step t l s = Some (l', s') ∧ Inv (<[t := l']> ls) s'.

(** No schedule leads to a fault, and the invariant holds after it. *)
Lemma pool_run_inv sched ls s :
  Inv ls s →
  ∃ ls' s', pool_run step sched (ls, s) = Some (ls', s') ∧ Inv ls' s'.
Proof using step_inv.
  revert ls s. induction sched as [|t sched IH]; intros ls s HI; simpl.
  - by exists ls, s.
  - unfold pool_step; simpl. destruct (ls !! t) as [l|] eqn:Hl.
    + destruct (step_inv t ls s l HI Hl) as (l' & s' & -> & HI').
      by apply IH.
    + by apply IH.
Qed.

Lemma join_not_Fault sched ls s : Inv ls s → join step fin sched (ls, s) ≠ Fault.
Proof using step_inv.
  intros HI. unfold join.
  destruct (pool_run_inv sched ls s HI) as (ls' & s' & -> & _).
  simpl. by destruct (forallb fin ls').
Qed.

Lemma join_Done_inv sched ls s st :
  Inv ls s → join step fin sched (ls, s) = Done st →
  Inv st.1 st.2 ∧ forallb fin st.1 = true.
Proof using step_inv.
  intros HI. unfold join.
  destruct (pool_run_inv sched ls s HI) as (ls' & s' & -> & HI').
  simpl. destruct (forallb fin ls') eqn:Hfin; [|done].
  by intros [= <-].
Qed.

Variable measure : list L → S → nat.
Hypothesis progress : ∀ ls s,
  Inv ls s → forallb fin ls = false →
  ∃ t l l' s', ls !! t = Some l ∧ step t l s = Some (l', s') ∧
               (measure (<[t := l']> ls) s' < measure ls s)%nat.

(** From every state the workers can reach, some schedule runs all of them
    to completion: the pool cannot deadlock. *)
Lemma pool_completes ls s :
  Inv ls s →
  ∃ sched ls' s', pool_run step sched (ls, s) = Some (ls', s') ∧
                  forallb fin ls' = true.
Proof using step_inv progress.
  remember (measure ls s) as m eqn:Hm. revert ls s Hm.
  induction (lt_wf m) as [m _ IH]. intros ls s -> HI.
  destruct (forallb fin ls) eqn:Hfin.
  - by exists [], ls, s.
  - destruct (progress ls s HI Hfin) as (t & l & l' & s' & Hl & Hst & Hlt).
    destruct (step_inv t ls s l HI Hl) as (l2 & s2 & Hst2 & HI').
    rewrite Hst in Hst2. injection Hst2 as <- <-.
    destruct (IH _ Hlt _ _ eq_refl HI') as (sched & ls' & s'' & Hrun & Hfin').
    exists (t :: sched), ls', s''. split; [|done].
    simpl. unfold pool_step. simpl. by rewrite Hl, Hst.
Qed.

Lemma join_completes sched ls s :
  Inv ls s → ∃ sched' st, join step fin (sched ++ sched') (ls, s) = Done st.
Proof using step_inv progress.
  intros HI.
  destruct (pool_run_inv sched ls s HI) as (ls1 & s1 & Hrun1 & HI1).
  destruct (pool_completes ls1 s1 HI1) as (sched' & ls2 & s2 & Hrun2 & Hfin).
  exists sched', (ls2, s2). unfold join.
  rewrite pool_run_app, Hrun1. simpl. rewrite Hrun2. simpl. by rewrite Hfin.
Qed.
End pool_facts.

(** A sum over the workers changes by what the updated worker changes. *)
Lemma sum_list_with_insert {A} (f : A → nat) (l : list A) i x y :
  l !! i = Some x →
  (sum_list_with f (<[i := y]> l) + f x = sum_list_with f l + f y)%nat.
Proof.
  revert i. induction l as [|z l IH]; intros [|i] Hi; simplify_eq/=; [lia|].
  specialize (IH i Hi). lia.
Qed.

(** ** Tilings *)

Lemma elem_of_block_idx b x : x ∈ block_idx b ↔ b.1 ≤ x < b.2.
Proof. unfold block_idx. rewrite elem_of_seqZ. lia. Qed.

Lemma elem_of_concat {A} (x : A) (ls : list (list A)) :
  x ∈ concat ls ↔ ∃ l, x ∈ l ∧ l ∈ ls.
Proof.
  induction ls as [|l ls IH]; simpl.
  - split; [by intros ?%elem_of_nil|]. by intros (l & _ & ?%elem_of_nil).
  - rewrite elem_of_app, IH. split.
    + intros [?|(l' & ? & ?)]; [exists l|exists l']; split; try done;
        [apply list_elem_of_here|by apply list_elem_of_further].
    + intros (l' & Hx & [->|?]%elem_of_cons); [by left|right; by exists l'].
Qed.

Lemma NoDup_concat_lookup {A} (ls : list (list A)) i j l1 l2 x :
  NoDup (concat ls) → i ≠ j → ls !! i = Some l1 → ls !! j = Some l2 →
  x ∈ l1 → x ∈ l2 → False.
Proof.
  revert i j. induction ls as [|l ls IH]; intros i j Hnd Hij Hi Hj H1 H2;
    [done|].
  simpl in Hnd. apply NoDup_app in Hnd as (_ & Hdis & Hnd).
  destruct i as [|i], j as [|j]; simplify_eq/=.
  - apply (Hdis x H1). apply elem_of_concat. exists l2. split; [done|].
    by eapply list_elem_of_lookup_2.
  - apply (Hdis x H2). apply elem_of_concat. exists l1. split; [done|].
    by eapply list_elem_of_lookup_2.
  - eapply (IH i j); eauto.
Qed.

Section tiles_facts.
Variables (n : Z) (blocks : list (Z * Z)).
Hypothesis Htiles : tiles n blocks.

Lemma tiles_in_range t b x :
  blocks !! t = Some b → b.1 ≤ x < b.2 → 0 ≤ x < n.
Proof using Htiles.
  intros Hb Hx. assert (x ∈ seqZ 0 n) as Hin; [|apply elem_of_seqZ in Hin; lia].
  rewrite <- Htiles. apply elem_of_concat. exists (block_idx b).
  split; [by apply elem_of_block_idx|].
  apply list_elem_of_fmap. exists b. split; [done|].
  by eapply list_elem_of_lookup_2.
Qed.

Lemma tiles_disjoint t1 t2 b1 b2 x :
  t1 ≠ t2 → blocks !! t1 = Some b1 → blocks !! t2 = Some b2 →
  b1.1 ≤ x < b1.2 → b2.1 ≤ x < b2.2 → False.
Proof using Htiles.
  intros Hne H1 H2 Hx1 Hx2.
  eapply (NoDup_concat_lookup (block_idx <$> blocks) t1 t2 _ _ x); [|done|..].
  - rewrite Htiles. apply NoDup_seqZ.
  - by rewrite list_lookup_fmap, H1.
  - by rewrite list_lookup_fmap, H2.
  - by apply elem_of_block_idx.
  - by apply elem_of_block_idx.
Qed.

Lemma tiles_cover x :
  0 ≤ x < n → ∃ t b, blocks !! t = Some b ∧ b.1 ≤ x < b.2.
Proof using Htiles.
  intros Hx. assert (x ∈ seqZ 0 n) as Hin by (apply elem_of_seqZ; lia).
  rewrite <- Htiles in Hin.
  apply elem_of_concat in Hin as (l & Hxl & Hl).
  apply list_elem_of_fmap in Hl as (b & -> & Hb).
  apply list_elem_of_lookup in Hb as (t & Hb).
  exists t, b. split; [done|]. by apply elem_of_block_idx.
Qed.
End tiles_facts.

(** ** Generation phase *)

Lemma data_alloc_Some n :
  n ≤ data_max_size → data_alloc n = Some (replicate (Z.to_nat n) 0).
Proof. intros Hn. unfold data_alloc. by destruct (Z.leb_spec n data_max_size); [|lia]. Qed.

Lemma data_alloc_None n : data_max_size < n → data_alloc n = None.
Proof. intros Hn. unfold data_alloc. by destruct (Z.leb_spec n data_max_size); [lia|]. Qed.

Lemma data_alloc_inv n d :
  data_alloc n = Some d →
  n ≤ data_max_size ∧ d = replicate (Z.to_nat n) 0.
Proof.
  unfold data_alloc. destruct (Z.leb_spec n data_max_size); [|done].
  by intros [= <-].
Qed.

Section gen_facts.
Context {G : Type} `{Rng G}.
Variable a : Args.
Variable r : Z.
Variable blocks : list (Z * Z).
Hypothesis HN : 0 ≤ N a < 2 ^ 63.
Hypothesis Htiles : tiles (N a) blocks.

(** The engine after [k] draws, and the value of draw number [k]. *)
Fixpoint engine_after (g : G) (k : nat) : G :=
  match k with
  | O => g
  | S k => (uniform_int (minv a) (maxv a) (engine_after g k)).2
  end.

Definition nth_draw (g : G) (k : nat) : Z :=
  (uniform_int (minv a) (maxv a) (engine_after g k)).1.

Definition worker_engine (t : nat) : G :=
  mt19937_64 (worker_seed a (Z.of_nat t) r).

(** The dataset the generation phase is to produce: element [j] of the
    block of worker [t] is draw [j] of the engine of worker [t]. *)
Definition gen_spec (data : list Z) : Prop :=
  length data = Z.to_nat (N a) ∧
  ∀ t b (j : nat), blocks !! t = Some b → b.1 + Z.of_nat j < b.2 →
    data !! Z.to_nat (b.1 + Z.of_nat j) = Some (nth_draw (worker_engine t) j).

(** Worker [t] has made [k] draws and stored them at the start of its
    block. *)
Definition gen_worker_inv (data : list Z) (t : nat) (b : Z * Z)
    (w : gen_worker G) : Prop :=
  gw_end w = b.2 ∧
  ∃ k : nat, gw_i w = b.1 + Z.of_nat k ∧
    (k = 0%nat ∨ b.1 + Z.of_nat k ≤ b.2) ∧
    gw_rng w = engine_after (worker_engine t) k ∧
    ∀ j : nat, (j < k)%nat →
      data !! Z.to_nat (b.1 + Z.of_nat j) = Some (nth_draw (worker_engine t) j).

Definition gen_inv (ws : list (gen_worker G)) (data : list Z) : Prop :=
  length data = Z.to_nat (N a) ∧ length ws = length blocks ∧
  ∀ t b w, blocks !! t = Some b → ws !! t = Some w →
    gen_worker_inv data t b w.

Definition gen_measure (ws : list (gen_worker G)) (data : list Z) : nat :=
  sum_list_with (λ w, Z.to_nat (gw_end w - gw_i w)) ws.

Lemma gen_inv_init :
  gen_inv (gen_init a r blocks) (replicate (Z.to_nat (N a)) 0).
Proof.
  split; [by rewrite length_replicate|]. split.
  - unfold gen_init. by rewrite length_imap.
  - intros t b w Hb Hw. unfold gen_init in Hw.
    rewrite list_lookup_imap, Hb in Hw. simpl in Hw. injection Hw as <-.
    split; [done|]. exists 0%nat. simpl. split; [lia|]. split; [by left|].
    split; [done|]. intros j Hj. lia.
Qed.

Lemma gen_inv_block ws data t w :
  gen_inv ws data → ws !! t = Some w →
  ∃ b, blocks !! t = Some b ∧ gen_worker_inv data t b w.
Proof.
  intros (Hlen & Hlw & Hall) Hw.
  destruct (lookup_lt_is_Some_2 blocks t) as [b Hb].
  { rewrite <- Hlw. by eapply lookup_lt_Some. }
  exists b. split; [done|]. by apply Hall.
Qed.

(** A worker inside its loop writes its next draw, without fault. *)
Lemma gen_step_live ws data t w :
  gen_inv ws data → ws !! t = Some w → gw_i w < gw_end w →
  ∃ v g, uniform_int (minv a) (maxv a) (gw_rng w) = (v, g) ∧
    0 ≤ gw_i w < N a ∧
    gen_step a t w data
    = Some (mkGen (gw_i w + 1) (gw_end w) g, <[Z.to_nat (gw_i w) := v]> data).
Proof using HN Htiles.
  intros HI Hw Hlt.
  destruct (gen_inv_block ws data t w HI Hw)
    as (b & Hb & Hend & k & Hi & Hk & Hrng & Hdata).
  destruct HI as (Hlen & _).
  destruct (uniform_int (minv a) (maxv a) (gw_rng w)) as [v g] eqn:Hdraw.
  exists v, g. split; [done|].
  assert (0 ≤ gw_i w < N a) as Hrange.
  { apply (tiles_in_range (N a) blocks Htiles t b); [done|]. lia. }
  split; [done|].
  unfold gen_step. destruct (Z.ltb_spec (gw_i w) (gw_end w)); [|lia].
  rewrite Hdraw, vec_set_Some by lia. simpl.
  by rewrite wrap64_small by lia.
Qed.

Lemma gen_step_idle t w data :
  ¬ gw_i w < gw_end w → gen_step a t w data = Some (w, data).
Proof.
  intros. unfold gen_step. by destruct (Z.ltb_spec (gw_i w) (gw_end w)).
Qed.

Lemma gen_step_inv t ws data w :
  gen_inv ws data → ws !! t = Some w →
  ∃ w' data', gen_step a t w data = Some (w', data') ∧
              gen_inv (<[t := w']> ws) data'.
Proof using HN Htiles.
  intros HI Hw. destruct (Z.lt_ge_cases (gw_i w) (gw_end w)) as [Hlt|Hge].
  - destruct (gen_step_live ws data t w HI Hw Hlt)
      as (v & g & Hdraw & Hrange & ->).
    eexists _, _. split; [done|].
    destruct (gen_inv_block ws data t w HI Hw)
      as (b & Hb & Hend & k & Hi & Hk & Hrng & Hdata).
    destruct HI as (Hlen & Hlw & Hall).
    split; [by rewrite length_insert|]. split; [by rewrite length_insert|].
    intros t' b' w' Hb' Hw'.
    destruct (decide (t = t')) as [<-|Hne].
    + rewrite list_lookup_insert_eq in Hw' by (by eapply lookup_lt_Some).
      injection Hw' as <-. simplify_eq. split; [done|].
      exists (S k). simpl. split; [lia|]. split; [right; lia|]. split.
      { by rewrite <- Hrng, Hdraw. }
      intros j Hj. destruct (decide (j = k)) as [->|Hjk].
      * rewrite <- Hi, list_lookup_insert_eq by lia.
        unfold nth_draw. by rewrite <- Hrng, Hdraw.
      * assert (0 ≤ b.1 + Z.of_nat j < N a).
        { apply (tiles_in_range (N a) blocks Htiles t b); [done|]. lia. }
        rewrite list_lookup_insert_ne by lia. apply Hdata. lia.
    + rewrite list_lookup_insert_ne in Hw' by done.
      destruct (Hall t' b' w' Hb' Hw') as (Hend' & k' & Hi' & Hk' & Hrng' & Hdata').
      split; [done|]. exists k'. split; [done|]. split; [done|].
      split; [done|]. intros j Hj.
      assert (b'.1 ≤ b'.1 + Z.of_nat j < b'.2) as Hin by lia.
      pose proof (tiles_in_range (N a) blocks Htiles t' b' _ Hb' Hin).
      rewrite list_lookup_insert_ne; [by apply Hdata'|].
      intros Heq. apply (tiles_disjoint (N a) blocks Htiles t t' b b'
                           (gw_i w)); [done..|lia|].
      assert (gw_i w = b'.1 + Z.of_nat j) as -> by lia. done.
  - rewrite gen_step_idle by lia. exists w, data. split; [done|].
    by rewrite list_insert_id.
Qed.

Lemma gen_progress ws data :
  gen_inv ws data → forallb gen_fin ws = false →
  ∃ t w w' data', ws !! t = Some w ∧ gen_step a t w data = Some (w', data') ∧
    (gen_measure (<[t := w']> ws) data' < gen_measure ws data)%nat.
Proof using HN Htiles.
  intros HI (t & w & Hw & Hfin)%forallb_false_lookup.
  unfold gen_fin in Hfin. apply negb_false_iff, Z.ltb_lt in Hfin.
  destruct (gen_step_live ws data t w HI Hw Hfin)
    as (v & g & Hdraw & Hrange & Hstep).
  eexists t, w, _, _. split; [done|]. split; [done|].
  unfold gen_measure.
  pose proof (sum_list_with_insert (λ w, Z.to_nat (gw_end w - gw_i w)) ws t w
                (mkGen (gw_i w + 1) (gw_end w) g) Hw) as Hsum.
  simpl in Hsum. lia.
Qed.

Lemma gen_final ws data :
  gen_inv ws data → forallb gen_fin ws = true → gen_spec data.
Proof.
  intros (Hlen & Hlw & Hall) Hfin. split; [done|].
  intros t b j Hb Hj.
  destruct (lookup_lt_is_Some_2 ws t) as [w Hw].
  { rewrite Hlw. by eapply lookup_lt_Some. }
  destruct (Hall t b w Hb Hw) as (Hend & k & Hi & Hk & Hrng & Hdata).
  pose proof (forallb_true_lookup _ _ _ _ Hfin Hw) as Hf.
  unfold gen_fin in Hf. apply negb_true_iff, Z.ltb_ge in Hf.
  apply Hdata. lia.
Qed.

(** The generation phase never faults; when the join returns, the dataset
    is the specified one; and every interleaving can be continued to a
    join. *)
Lemma gen_phase_not_Fault sched :
  N a ≤ data_max_size → gen_phase a r blocks sched ≠ Fault.
Proof using HN Htiles.
  intros Hmax. unfold gen_phase. rewrite data_alloc_Some by done.
  cbn [of_option obind].
  pose proof (join_not_Fault (gen_step a) gen_fin gen_inv gen_step_inv sched
                _ _ gen_inv_init) as Hnf.
  destruct (join _ _ _ _); simpl; done.
Qed.

Lemma gen_phase_Done sched data :
  gen_phase a r blocks sched = Done data → gen_spec data.
Proof using HN Htiles.
  unfold gen_phase.
  destruct (data_alloc (N a)) as [d0|] eqn:Hd0; cbn [of_option obind];
    [|done].
  apply data_alloc_inv in Hd0 as [_ ->].
  destruct (join _ _ _ _) as [st| |] eqn:Hjoin; simpl; [|done..].
  intros [= <-].
  destruct (join_Done_inv (gen_step a) gen_fin gen_inv gen_step_inv sched
              _ _ st gen_inv_init Hjoin) as [HI Hfin].
  by eapply gen_final.
Qed.

Lemma gen_phase_completes sched :
  N a ≤ data_max_size →
  ∃ sched' data, gen_phase a r blocks (sched ++ sched') = Done data.
Proof using HN Htiles.
  intros Hmax.
  destruct (join_completes (gen_step a) gen_fin gen_inv gen_step_inv
              gen_measure gen_progress sched _ _ gen_inv_init)
    as (sched' & st & Hjoin).
  exists sched', st.2. unfold gen_phase. rewrite data_alloc_Some by done.
  cbn [of_option obind]. by rewrite Hjoin.
Qed.

(** A dataset above [max_size()] is refused before any worker starts, and
    a generation phase that returns has been given its vector. *)
Lemma gen_phase_too_large sched :
  data_max_size < N a → gen_phase a r blocks sched = Fault.
Proof. intros Hmax. unfold gen_phase. by rewrite data_alloc_None. Qed.

Lemma gen_phase_Done_size sched data :
  gen_phase a r blocks sched = Done data → N a ≤ data_max_size.
Proof.
  unfold gen_phase.
  destruct (data_alloc (N a)) as [d0|] eqn:Hd0; cbn [of_option obind];
    [|done].
  by apply data_alloc_inv in Hd0 as [? _].
Qed.

(** The specification fixes the dataset. *)
Lemma gen_spec_unique d1 d2 : gen_spec d1 → gen_spec d2 → d1 = d2.
Proof using HN Htiles.
  intros [Hl1 H1] [Hl2 H2]. apply list_eq. intros i.
  destruct (decide (i < Z.to_nat (N a))%nat) as [Hi|Hi].
  - destruct (tiles_cover (N a) blocks Htiles (Z.of_nat i)) as (t & b & Hb & Hin);
      [lia|].
    specialize (H1 t b (Z.to_nat (Z.of_nat i - b.1)) Hb).
    specialize (H2 t b (Z.to_nat (Z.of_nat i - b.1)) Hb).
    replace (b.1 + Z.of_nat (Z.to_nat (Z.of_nat i - b.1))) with (Z.of_nat i)
      in H1, H2 by lia.
    rewrite Nat2Z.id in H1, H2. rewrite H1, H2 by lia. done.
  - rewrite !lookup_ge_None_2 by lia. done.
Qed.

(** Every element lies in the requested range. *)
Lemma gen_spec_range `{!RngLaws G} data :
  minv a ≤ maxv a → gen_spec data →
  Forall (λ x, minv a ≤ x ≤ maxv a) data.
Proof using HN Htiles.
  intros Hmm [Hl Hd]. apply Forall_lookup. intros i x Hx.
  assert (i < Z.to_nat (N a))%nat as Hi.
  { rewrite <- Hl. by eapply lookup_lt_Some. }
  destruct (tiles_cover (N a) blocks Htiles (Z.of_nat i)) as (t & b & Hb & Hin);
    [lia|].
  specialize (Hd t b (Z.to_nat (Z.of_nat i - b.1)) Hb).
  replace (b.1 + Z.of_nat (Z.to_nat (Z.of_nat i - b.1))) with (Z.of_nat i)
    in Hd by lia.
  rewrite Nat2Z.id, Hx in Hd. injection Hd as ->; [|lia].
  by apply uniform_int_range.
Qed.
End gen_facts.

(** ** Histograms as tallies *)

Definition sumZ (l : list Z) : Z := foldr Z.add 0 l.

Lemma sumZ_replicate_0 n : sumZ (replicate n 0) = 0.
Proof. induction n as [|n IH]; simpl; lia. Qed.

Lemma sumZ_insert l i v w :
  l !! i = Some v → sumZ (<[i := w]> l) = sumZ l - v + w.
Proof.
  revert i. induction l as [|x l IH]; intros [|i] Hi; simplify_eq/=; [lia|].
  rewrite (IH i Hi). lia.
Qed.

Lemma accumulate_sumZ_from l acc :
  Forall (λ x, 0 ≤ x) l → 0 ≤ acc → acc + sumZ l < 2 ^ 64 →
  foldl (λ acc x, wrap64 (acc + wrap64 x)) acc l = acc + sumZ l.
Proof.
  revert acc. induction l as [|x l IH]; intros acc Hl Hacc Hsum; simpl in *.
  - lia.
  - apply Forall_cons in Hl as [Hx Hl].
    assert (0 ≤ sumZ l).
    { clear -Hl. induction Hl; simpl; lia. }
    rewrite (wrap64_small x), (wrap64_small (acc + x)) by lia.
    rewrite IH by (done || lia). lia.
Qed.

Lemma accumulate_sumZ l :
  Forall (λ x, 0 ≤ x) l → sumZ l < 2 ^ 64 → accumulate l = sumZ l.
Proof. intros. unfold accumulate. rewrite accumulate_sumZ_from; [lia|done|lia..]. Qed.

Lemma concat_insert_snoc {A} (ls : list (list A)) t l x :
  ls !! t = Some l → concat (<[t := l ++ [x]]> ls) ≡ₚ concat ls ++ [x].
Proof.
  revert t. induction ls as [|l' ls IH]; intros [|t] Ht; simplify_eq/=.
  - by rewrite <- !(assoc_L (++)), (Permutation_app_comm [x]).
  - by rewrite (IH t Ht), (assoc_L (++)).
Qed.

Section hist_facts.
Variable a : Args.
Variable data : list Z.

(** The bin of the element at dataset index [i]. *)
Definition bin_at (i : Z) : Z := bin_of a (data !!! Z.to_nat i).

(** How many of the dataset indices [idxs] hold an element of bin [b]. *)
Definition tally (idxs : list Z) (b : Z) : Z :=
  Z.of_nat (length (filter (λ i, bin_at i = b) idxs)).

(** The histogram of the elements at the indices [idxs]. *)
Definition hist_of (idxs : list Z) : list Z := tally idxs <$> seqZ 0 (bins a).

(** The histogram of the whole dataset. *)
Definition histogram : list Z := hist_of (seqZ 0 (N a)).

Lemma tally_app xs ys b : tally (xs ++ ys) b = tally xs b + tally ys b.
Proof. unfold tally. rewrite filter_app, length_app. lia. Qed.

Lemma tally_singleton i b :
  tally [i] b = if decide (bin_at i = b) then 1 else 0.
Proof.
  unfold tally. rewrite filter_cons, filter_nil. by case_decide.
Qed.

Lemma tally_perm xs ys b : xs ≡ₚ ys → tally xs b = tally ys b.
Proof. intros Hp. unfold tally. by rewrite Hp. Qed.

Lemma tally_bounds xs b : 0 ≤ tally xs b ≤ Z.of_nat (length xs).
Proof.
  unfold tally. pose proof (length_filter (λ i, bin_at i = b) xs). lia.
Qed.

Lemma length_hist_of xs : length (hist_of xs) = Z.to_nat (bins a).
Proof. unfold hist_of. by rewrite length_fmap, length_seqZ. Qed.

Lemma lookup_hist_of xs (k : nat) :
  Z.of_nat k < bins a → hist_of xs !! k = Some (tally xs (Z.of_nat k)).
Proof.
  intros. unfold hist_of. rewrite list_lookup_fmap, lookup_seqZ_lt by done.
  simpl. f_equal.
Qed.

Lemma vec_get_hist_of xs b :
  0 ≤ b < bins a → vec_get (hist_of xs) b = Some (tally xs b).
Proof.
  intros. apply vec_get_lookup; [lia|].
  rewrite lookup_hist_of by lia. f_equal. f_equal. lia.
Qed.

Lemma hist_of_perm xs ys : xs ≡ₚ ys → hist_of xs = hist_of ys.
Proof.
  intros Hp. unfold hist_of. apply list_fmap_ext. intros _ b _.
  by apply tally_perm.
Qed.

Lemma hist_of_nil : hist_of [] = replicate (Z.to_nat (bins a)) 0.
Proof.
  apply list_eq. intros k.
  destruct (decide (Z.of_nat k < bins a)) as [Hk|Hk].
  - rewrite lookup_hist_of, lookup_replicate_2 by lia. done.
  - rewrite !lookup_ge_None_2;
      rewrite ?length_hist_of, ?length_replicate; (done || lia).
Qed.

(** Counting one more element is an increment of its bin. *)
Lemma hist_of_snoc xs i :
  0 ≤ bin_at i < bins a →
  <[Z.to_nat (bin_at i) := tally xs (bin_at i) + 1]> (hist_of xs)
  = hist_of (xs ++ [i]).
Proof.
  intros Hb. apply list_eq. intros k.
  destruct (decide (Z.of_nat k < bins a)) as [Hk|Hk].
  - rewrite (lookup_hist_of (xs ++ [i])) by done.
    rewrite tally_app, tally_singleton.
    destruct (decide (k = Z.to_nat (bin_at i))) as [->|Hne].
    + rewrite list_lookup_insert_eq by (rewrite length_hist_of; lia).
      rewrite Z2Nat.id by lia. by rewrite decide_True.
    + rewrite list_lookup_insert_ne, lookup_hist_of by done.
      rewrite decide_False by lia. f_equal. lia.
  - rewrite !lookup_ge_None_2;
      rewrite ?length_insert, ?length_hist_of; (done || lia).
Qed.

Lemma vec_set_hist_of xs i :
  0 ≤ bin_at i < bins a →
  vec_set (hist_of xs) (bin_at i) (tally xs (bin_at i) + 1)
  = Some (hist_of (xs ++ [i])).
Proof.
  intros Hb. rewrite vec_set_Some by (rewrite length_hist_of; lia).
  by rewrite hist_of_snoc.
Qed.

Lemma sumZ_hist_of xs :
  Forall (λ i, 0 ≤ bin_at i < bins a) xs →
  sumZ (hist_of xs) = Z.of_nat (length xs).
Proof.
  induction xs as [|i xs IH] using rev_ind; intros Hall.
  - rewrite hist_of_nil. apply sumZ_replicate_0.
  - apply Forall_app in Hall as [Hxs Hi]. apply Forall_inv in Hi.
    rewrite <- (hist_of_snoc xs i Hi).
    rewrite (sumZ_insert _ _ (tally xs (bin_at i)))
      by (rewrite lookup_hist_of by lia; f_equal; f_equal; lia).
    rewrite IH, length_app by done. simpl. lia.
Qed.

Lemma hist_of_nonneg xs : Forall (λ x, 0 ≤ x) (hist_of xs).
Proof.
  unfold hist_of. apply Forall_fmap, Forall_forall. intros b _. simpl.
  apply tally_bounds.
Qed.

Lemma accumulate_hist_of xs :
  Forall (λ i, 0 ≤ bin_at i < bins a) xs →
  Z.of_nat (length xs) < 2 ^ 64 →
  accumulate (hist_of xs) = Z.of_nat (length xs).
Proof.
  intros Hall Hlen.
  rewrite accumulate_sumZ; rewrite ?sumZ_hist_of; auto using hist_of_nonneg.
Qed.

(** Merging two histograms bin by bin. *)
Lemma add_row_hist_of (add : Z → Z → option Z) xs ys :
  (∀ y x, 0 ≤ y → 0 ≤ x → y + x ≤ Z.of_nat (length (xs ++ ys)) →
          add y x = Some (y + x)) →
  add_row add (bins a) (hist_of xs) (hist_of ys) = Some (hist_of (xs ++ ys)).
Proof.
  intros Hadd. unfold add_row.
  set (body := λ (acc : option (list Z)) b,
         dst ← acc; x ← vec_get (hist_of ys) b; y ← vec_get dst b;
         s ← add y x; vec_set dst b s).
  set (mixed := λ k : Z, (λ b, if decide (b < k) then tally (xs ++ ys) b
                               else tally xs b) <$> seqZ 0 (bins a)).
  assert (∀ k : nat, Z.of_nat k ≤ Z.max 0 (bins a) →
    foldl body (Some (hist_of xs)) (seqZ 0 (Z.of_nat k))
    = Some (mixed (Z.of_nat k))) as Hloop.
  { induction k as [|k IH]; intros Hk.
    - simpl. f_equal. apply list_fmap_ext. intros j b Hb.
      apply lookup_seqZ in Hb. rewrite decide_False by lia. done.
    - rewrite seqZ_S, foldl_app, IH, Z.add_0_l by lia. cbn [foldl]. unfold body.
      cbn [mbind option_bind].
      assert (vec_get (mixed (Z.of_nat k)) (Z.of_nat k)
              = Some (tally xs (Z.of_nat k))) as ->.
      { apply vec_get_lookup; [lia|]. unfold mixed.
        rewrite list_lookup_fmap, lookup_seqZ_lt by lia. simpl.
        rewrite Nat2Z.id, decide_False by lia. done. }
      rewrite vec_get_hist_of by lia. simpl.
      pose proof (tally_bounds xs (Z.of_nat k)).
      pose proof (tally_bounds ys (Z.of_nat k)).
      pose proof (tally_bounds (xs ++ ys) (Z.of_nat k)) as Hb.
      rewrite tally_app in Hb.
      rewrite Hadd by lia. simpl.
      rewrite vec_set_Some
        by (unfold mixed; rewrite length_fmap, length_seqZ; lia).
      f_equal. apply list_eq. intros j. unfold mixed.
      rewrite Nat2Z.id.
      destruct (decide (Z.of_nat j < bins a)) as [Hj|Hj].
      + rewrite (list_lookup_fmap _ (seqZ 0 (bins a))), lookup_seqZ_lt by done.
        simpl. destruct (decide (j = k)) as [->|Hne].
        * rewrite list_lookup_insert_eq
            by (rewrite length_fmap, length_seqZ; lia).
          rewrite decide_True by lia. by rewrite tally_app.
        * rewrite list_lookup_insert_ne by done.
          rewrite list_lookup_fmap, lookup_seqZ_lt by done. simpl.
          repeat case_decide; (done || lia).
      + rewrite !lookup_ge_None_2;
          rewrite ?length_insert, ?length_fmap, ?length_seqZ; (done || lia). }
  destruct (Z.le_gt_cases (bins a) 0) as [Hle|Hgt].
  - rewrite (seqZ_nil 0 (bins a)) by done. simpl. unfold hist_of.
    by rewrite (seqZ_nil 0 (bins a)) by done.
  - specialize (Hloop (Z.to_nat (bins a))). rewrite Z2Nat.id in Hloop by lia.
    rewrite Hloop by lia. f_equal. unfold mixed, hist_of.
    apply list_fmap_ext. intros j b Hb. apply lookup_seqZ in Hb.
    rewrite decide_True by lia. done.
Qed.
End hist_facts.

(** ** Loop cursors over a tiling *)

(** The indices a worker with block [b] has dealt with once its loop index
    stands at [c]. *)
Definition done_idx (b : Z * Z) (c : Z) : list Z := seqZ b.1 (c - b.1).

(** A loop index is at the start of its block or inside it (a block may be
    empty with its start beyond its end). *)
Definition cursor_ok (b : Z * Z) (c : Z) : Prop := c = b.1 ∨ b.1 ≤ c ≤ b.2.

(** All indices dealt with so far, worker by worker. *)
Definition dones (blocks : list (Z * Z)) (cs : list Z) : list Z :=
  concat (zip_with done_idx blocks cs).

Lemma length_done_idx b c : length (done_idx b c) = Z.to_nat (c - b.1).
Proof. unfold done_idx. apply length_seqZ. Qed.

Lemma done_idx_start b : done_idx b b.1 = [].
Proof. unfold done_idx. apply seqZ_nil. lia. Qed.

Lemma done_idx_snoc b c : b.1 ≤ c → done_idx b (c + 1) = done_idx b c ++ [c].
Proof.
  intros. unfold done_idx.
  replace (c + 1 - b.1) with ((c - b.1) + 1) by lia.
  rewrite seqZ_app by lia. f_equal.
  replace (b.1 + (c - b.1)) with c by lia. done.
Qed.

Lemma done_idx_final b c : cursor_ok b c → b.2 ≤ c → done_idx b c = block_idx b.
Proof.
  unfold done_idx, block_idx. intros [->|Hc] Hge.
  - by rewrite !seqZ_nil by lia.
  - by replace c with b.2 by lia.
Qed.

Lemma done_idx_sublist b c : cursor_ok b c → done_idx b c `sublist_of` block_idx b.
Proof.
  unfold block_idx. intros [->|Hc].
  - rewrite done_idx_start. apply sublist_nil_l.
  - unfold done_idx.
    replace (b.2 - b.1) with ((c - b.1) + (b.2 - c)) by lia.
    rewrite seqZ_app by lia. by apply sublist_inserts_r.
Qed.

Lemma dones_sublist blocks cs :
  Forall2 cursor_ok blocks cs →
  dones blocks cs `sublist_of` concat (block_idx <$> blocks).
Proof.
  unfold dones. induction 1 as [|b c blocks cs Hc _ IH]; simpl; [done|].
  apply sublist_app; [by apply done_idx_sublist|done].
Qed.

Lemma dones_init blocks : dones blocks (fst <$> blocks) = [].
Proof.
  unfold dones. induction blocks as [|b blocks IH]; csimpl; [done|].
  by rewrite done_idx_start, IH.
Qed.

Lemma cursors_init blocks : Forall2 cursor_ok blocks (fst <$> blocks).
Proof. apply Forall2_fmap_r, Forall_Forall2_diag, Forall_forall. by left. Qed.

Lemma dones_all blocks cs :
  Forall2 cursor_ok blocks cs → Forall2 (λ b c, b.2 ≤ c) blocks cs →
  dones blocks cs = concat (block_idx <$> blocks).
Proof.
  unfold dones. induction 1 as [|b c blocks cs Hc _ IH]; simpl; [done|].
  intros [Hge Hrest]%Forall2_cons. by rewrite done_idx_final, IH.
Qed.

Section cursors.
Variables (n : Z) (blocks : list (Z * Z)).
Hypothesis Htiles : tiles n blocks.

Lemma dones_length cs :
  Forall2 cursor_ok blocks cs → (length (dones blocks cs) ≤ Z.to_nat n)%nat.
Proof using Htiles.
  intros Hcs. apply dones_sublist, sublist_length in Hcs.
  rewrite Htiles, length_seqZ in Hcs. done.
Qed.

Lemma dones_final cs :
  Forall2 cursor_ok blocks cs → Forall2 (λ b c, b.2 ≤ c) blocks cs →
  dones blocks cs ≡ₚ seqZ 0 n.
Proof using Htiles. intros. by rewrite dones_all. Qed.

(** A worker moves on by one index. *)
Lemma dones_advance cs t b c :
  Forall2 cursor_ok blocks cs → blocks !! t = Some b → cs !! t = Some c →
  c < b.2 →
  0 ≤ c < n ∧ Forall2 cursor_ok blocks (<[t := c + 1]> cs) ∧
  dones blocks (<[t := c + 1]> cs) ≡ₚ dones blocks cs ++ [c].
Proof using Htiles.
  intros Hcs Hb Hc Hlt.
  assert (b.1 ≤ c) as Hlo.
  { destruct (Forall2_lookup_lr _ _ _ _ _ _ Hcs Hb Hc); lia. }
  split; [by apply (tiles_in_range n blocks Htiles t b)|]. split.
  - rewrite <- (list_insert_id blocks t b Hb).
    apply Forall2_insert; [done|]. right. lia.
  - unfold dones. rewrite <- (list_insert_id blocks t b Hb) at 1.
    rewrite <- insert_zip_with, done_idx_snoc by done.
    apply concat_insert_snoc.
    rewrite lookup_zip_with, Hb. simpl. by rewrite Hc.
Qed.
End cursors.

(** ** Counting phase: what all variants share *)

Lemma concat_insert_app {A} (ls : list (list A)) t l l' :
  ls !! t = Some l → concat (<[t := l ++ l']> ls) ≡ₚ concat ls ++ l'.
Proof.
  revert t. induction ls as [|l0 ls IH]; intros [|t] Ht; simplify_eq/=.
  - by rewrite <- !(assoc_L (++)), (Permutation_app_comm l').
  - by rewrite (IH t Ht), (assoc_L (++)).
Qed.

Lemma zip_hist_final {W} (a : Args) (data : list Z) (cur : W → Z)
    (bs : list (Z * Z)) (ws : list W) :
  Forall2 (λ b w, cursor_ok b (cur w)) bs ws →
  Forall2 (λ b w, b.2 ≤ cur w) bs ws →
  zip_with (λ b w, hist_of a data (done_idx b (cur w))) bs ws
  = (λ b, hist_of a data (block_idx b)) <$> bs.
Proof.
  induction 1 as [|b w bs ws Hc _ IH]; intros Hge; csimpl; [done|].
  apply Forall2_cons in Hge as [Hb Hge].
  by rewrite done_idx_final, IH.
Qed.

Lemma zip_with_keep {A B C} (f : A → B → C) (l : list A) (k : list B) t x y y' :
  l !! t = Some x → k !! t = Some y → f x y' = f x y →
  zip_with f l (<[t := y']> k) = zip_with f l k.
Proof.
  intros Hx Hy Hf. rewrite <- (list_insert_id l t x Hx) at 1.
  rewrite <- insert_zip_with, Hf. apply list_insert_id.
  by rewrite lookup_zip_with, Hx; simpl; rewrite Hy.
Qed.

Lemma sum_list_with_ones {A} (f : A → nat) (l : list A) :
  Forall (λ x, f x = 1%nat) l → sum_list_with f l = length l.
Proof. induction 1 as [|x l Hx _ IH]; simpl; [done|]. by rewrite Hx, IH. Qed.

(** What a worker of the private variant of hist_openmp.cpp has merged into
    [hist_global], and whether it has reached the barrier. *)
Definition opriv_contrib (b : Z * Z) (w : opriv_worker) : list Z :=
  match ow_pc w with OMerged => block_idx b | _ => [] end.

Definition opriv_arrived (w : opriv_worker) : nat :=
  match ow_pc w with OCount => 0 | _ => 1 end.

Lemma opriv_contrib_sublist (bs : list (Z * Z)) (ws : list opriv_worker) :
  concat (zip_with opriv_contrib bs ws) `sublist_of` concat (block_idx <$> bs).
Proof.
  revert ws. induction bs as [|b bs IH]; intros [|w ws]; csimpl;
    try apply sublist_nil_l.
  apply sublist_app; [|apply IH]. unfold opriv_contrib.
  destruct (ow_pc w); (done || apply sublist_nil_l).
Qed.

Lemma opriv_contrib_all (bs : list (Z * Z)) (ws : list opriv_worker) :
  length bs = length ws → forallb opriv_fin ws = true →
  zip_with opriv_contrib bs ws = block_idx <$> bs.
Proof.
  revert ws. induction bs as [|b bs IH]; intros [|w ws] Hl Hfin;
    simplify_eq/=; [done|].
  apply andb_prop in Hfin as [Hw Hfin]. rewrite IH by done. f_equal.
  unfold opriv_contrib, opriv_fin in *. by destruct (ow_pc w).
Qed.

Section count_facts.
Variable a : Args.
Variable data : list Z.
Variable blocks : list (Z * Z).
Hypothesis HN : 0 ≤ N a < 2 ^ 63.
Hypothesis Htiles : tiles (N a) blocks.
Hypothesis Hlen : length data = Z.to_nat (N a).
(** every element of the dataset falls into one of the bins *)
Hypothesis Hbin : ∀ i, 0 ≤ i < N a → 0 ≤ bin_at a data i < bins a.

Lemma data_get i :
  0 ≤ i < N a → vec_get data i = Some (data !!! Z.to_nat i).
Proof.
  intros. apply vec_get_lookup; [lia|].
  apply list_lookup_lookup_total_lt. lia.
Qed.

Lemma all_bins_ok : Forall (λ i, 0 ≤ bin_at a data i < bins a) (seqZ 0 (N a)).
Proof. apply Forall_seqZ. intros i Hi. apply Hbin. clear -Hi. lia. Qed.

(** The bins of the histogram of the dataset sum to [a.N]. *)
Lemma sumZ_histogram : sumZ (histogram a data) = N a.
Proof.
  unfold histogram. rewrite sumZ_hist_of by apply all_bins_ok.
  rewrite length_seqZ. lia.
Qed.

Lemma accumulate_histogram : accumulate (histogram a data) = N a.
Proof.
  unfold histogram. rewrite accumulate_hist_of; rewrite ?length_seqZ;
    [lia|apply all_bins_ok|lia].
Qed.


(** The tally of a bin after one more index stays below 2^63. *)
Lemma tally_next_bound cs c xs b :
  Forall2 cursor_ok blocks cs → dones blocks cs ≡ₚ xs ++ [c] →
  0 ≤ tally a data xs b ∧ tally a data xs b + 1 ≤ N a.
Proof.
  intros Hcs Hp. pose proof (dones_length _ _ Htiles cs Hcs) as Hl.
  rewrite Hp, length_app in Hl. simpl in Hl.
  pose proof (tally_bounds a data xs b). lia.
Qed.

(** Facts about a list of workers with a loop index [cur]. *)
Section workers.
Context {W : Type} (cur end_of : W → Z).

Lemma cursor_advance ws t w w' b :
  Forall2 cursor_ok blocks (cur <$> ws) → blocks !! t = Some b →
  ws !! t = Some w → cur w < b.2 → cur w' = cur w + 1 →
  0 ≤ cur w < N a ∧
  Forall2 cursor_ok blocks (cur <$> <[t := w']> ws) ∧
  dones blocks (cur <$> <[t := w']> ws) ≡ₚ dones blocks (cur <$> ws) ++ [cur w].
Proof.
  intros Hcs Hb Hw Hlt Heq. rewrite list_fmap_insert, Heq.
  apply (dones_advance _ _ Htiles _ t b); [done..| |done].
  by rewrite list_lookup_fmap, Hw.
Qed.

Lemma cursor_keep (ws : list W) (t : nat) w w' :
  ws !! t = Some w → cur w' = cur w → cur <$> <[t := w']> ws = cur <$> ws.
Proof.
  intros Hw Heq. rewrite list_fmap_insert, Heq.
  apply list_insert_id. by rewrite list_lookup_fmap, Hw.
Qed.

Lemma ends_keep (P : Z * Z → W → Prop) ws t b w' :
  Forall2 P blocks ws → blocks !! t = Some b → P b w' →
  Forall2 P blocks (<[t := w']> ws).
Proof.
  intros Hall Hb HP. rewrite <- (list_insert_id blocks t b Hb).
  by apply Forall2_insert.
Qed.

Lemma cursors_finished (finb : W → bool) ws :
  (∀ w, finb w = true → end_of w ≤ cur w) →
  Forall2 (λ b w, end_of w = b.2) blocks ws → forallb finb ws = true →
  Forall2 (λ b c, b.2 ≤ c) blocks (cur <$> ws).
Proof.
  intros Hfin Hends Hall. apply Forall2_fmap_r.
  apply Forall2_same_length_lookup. split; [by eapply Forall2_length|].
  intros t b w Hb Hw.
  pose proof (Forall2_lookup_lr _ _ _ _ _ _ Hends Hb Hw) as He. simpl in He.
  rewrite <- He. apply Hfin. by eapply forallb_true_lookup.
Qed.
End workers.

(** ** The atomic variant *)

Section atomic.
Variable incr : Z → option Z.
Hypothesis Hincr : ∀ v, 0 ≤ v < LLONG_MAX → incr v = Some (v + 1).

(** The shared histogram is the histogram of the indices dealt with so far,
    whatever the order in which the workers got to them. *)
Definition atomic_inv (ws : list cnt_worker) (hist : list Z) : Prop :=
  Forall2 (λ b w, cw_end w = b.2) blocks ws ∧
  Forall2 cursor_ok blocks (cw_i <$> ws) ∧
  hist = hist_of a data (dones blocks (cw_i <$> ws)).

Definition cnt_measure {S} (ws : list cnt_worker) (s : S) : nat :=
  sum_list_with (λ w, Z.to_nat (cw_end w - cw_i w)) ws.

Lemma atomic_inv_init :
  atomic_inv (cnt_init blocks) (replicate (Z.to_nat (bins a)) 0).
Proof.
  unfold cnt_init. split; [|split].
  - apply Forall2_fmap_r, Forall_Forall2_diag, Forall_forall. done.
  - rewrite <- list_fmap_compose. apply cursors_init.
  - rewrite <- list_fmap_compose.
    change (cw_i ∘ _) with (@fst Z Z). by rewrite dones_init, hist_of_nil.
Qed.

Lemma atomic_step_live ws hist t w :
  atomic_inv ws hist → ws !! t = Some w → cw_i w < cw_end w →
  ∃ hist', atomic_step a data incr t w hist
           = Some (mkCnt (cw_i w + 1) (cw_end w), hist') ∧
           atomic_inv (<[t := mkCnt (cw_i w + 1) (cw_end w)]> ws) hist'.
Proof.
  intros (Hends & Hcs & ->) Hw Hlt.
  destruct (Forall2_lookup_r _ _ _ _ _ Hends Hw) as (b & Hb & Hend).
  set (w' := mkCnt (cw_i w + 1) (cw_end w)).
  destruct (cursor_advance cw_i ws t w w' b) as (Hi & Hcs' & Hp);
    [done|done|done|lia|done|].
  destruct (tally_next_bound _ _ _ (bin_at a data (cw_i w)) Hcs' Hp).
  exists (hist_of a data (dones blocks (cw_i <$> ws) ++ [cw_i w])). split.
  - unfold atomic_step. destruct (Z.ltb_spec (cw_i w) (cw_end w)); [|lia].
    rewrite data_get by done. simpl.
    change (bin_of a (data !!! Z.to_nat (cw_i w))) with (bin_at a data (cw_i w)).
    rewrite vec_get_hist_of by auto. simpl.
    rewrite Hincr by (unfold LLONG_MAX; lia). simpl.
    rewrite vec_set_hist_of by auto. simpl.
    by rewrite wrap64_small by lia.
  - split; [|split]; [|done|].
    + by apply (ends_keep _ ws t b).
    + by apply hist_of_perm.
Qed.

Lemma atomic_step_inv t ws hist w :
  atomic_inv ws hist → ws !! t = Some w →
  ∃ w' hist', atomic_step a data incr t w hist = Some (w', hist') ∧
              atomic_inv (<[t := w']> ws) hist'.
Proof.
  intros HI Hw. destruct (Z.lt_ge_cases (cw_i w) (cw_end w)) as [Hlt|Hge].
  - destruct (atomic_step_live ws hist t w HI Hw Hlt) as (hist' & ? & ?).
    by eexists _, _.
  - exists w, hist. unfold atomic_step.
    destruct (Z.ltb_spec (cw_i w) (cw_end w)); [lia|].
    by rewrite list_insert_id.
Qed.

Lemma atomic_progress ws hist :
  atomic_inv ws hist → forallb cnt_fin ws = false →
  ∃ t w w' hist', ws !! t = Some w ∧
    atomic_step a data incr t w hist = Some (w', hist') ∧
    (cnt_measure (<[t := w']> ws) hist' < cnt_measure ws hist)%nat.
Proof.
  intros HI (t & w & Hw & Hfin)%forallb_false_lookup.
  unfold cnt_fin in Hfin. apply negb_false_iff, Z.ltb_lt in Hfin.
  destruct (atomic_step_live ws hist t w HI Hw Hfin) as (hist' & Hstep & _).
  eexists t, w, _, _. split; [done|]. split; [done|].
  unfold cnt_measure.
  pose proof (sum_list_with_insert (λ w, Z.to_nat (cw_end w - cw_i w)) ws t w
                (mkCnt (cw_i w + 1) (cw_end w)) Hw) as Hsum.
  simpl in Hsum. lia.
Qed.

Lemma cnt_fin_end w : cnt_fin w = true → cw_end w ≤ cw_i w.
Proof. unfold cnt_fin. intros ?%negb_true_iff%Z.ltb_ge. done. Qed.

Lemma atomic_final ws hist :
  atomic_inv ws hist → forallb cnt_fin ws = true → hist = histogram a data.
Proof.
  intros (Hends & Hcs & ->) Hfin. apply hist_of_perm.
  apply (dones_final _ _ Htiles); [done|].
  by apply (cursors_finished cw_i cw_end cnt_fin ws cnt_fin_end).
Qed.
End atomic.

(** ** The private variant of hist_threads.cpp *)

Section private_threads.
(** Row [t] of [locals] is the histogram of what worker [t] has counted. *)
Definition priv_inv (ws : list cnt_worker) (locals : list (list Z)) : Prop :=
  Forall2 (λ b w, cw_end w = b.2) blocks ws ∧
  Forall2 cursor_ok blocks (cw_i <$> ws) ∧
  locals = zip_with (λ b w, hist_of a data (done_idx b (cw_i w))) blocks ws.

Lemma priv_inv_init :
  priv_inv (cnt_init blocks)
    (replicate (length blocks) (replicate (Z.to_nat (bins a)) 0)).
Proof.
  unfold cnt_init. split; [|split].
  - apply Forall2_fmap_r, Forall_Forall2_diag, Forall_forall. done.
  - rewrite <- list_fmap_compose. apply cursors_init.
  - clear. induction blocks as [|b bs IH]; csimpl; [done|].
    by rewrite done_idx_start, hist_of_nil, IH.
Qed.

Lemma priv_step_live ws locals t w :
  priv_inv ws locals → ws !! t = Some w → cw_i w < cw_end w →
  ∃ locals', priv_step a data t w locals
             = Some (mkCnt (cw_i w + 1) (cw_end w), locals') ∧
             priv_inv (<[t := mkCnt (cw_i w + 1) (cw_end w)]> ws) locals'.
Proof.
  intros (Hends & Hcs & ->) Hw Hlt.
  destruct (Forall2_lookup_r _ _ _ _ _ Hends Hw) as (b & Hb & Hend).
  set (w' := mkCnt (cw_i w + 1) (cw_end w)).
  destruct (cursor_advance cw_i ws t w w' b) as (Hi & Hcs' & _);
    [done|done|done|lia|done|].
  assert (b.1 ≤ cw_i w) as Hlo.
  { assert (cursor_ok b (cw_i w)) as [?|?]; [|lia..].
    apply (Forall2_lookup_lr cursor_ok blocks (cw_i <$> ws) t b (cw_i w) Hcs Hb).
    by rewrite list_lookup_fmap, Hw. }
  assert (0 ≤ b.1 < N a) as Hb1.
  { apply (tiles_in_range _ _ Htiles t b); [done|lia]. }
  exists (<[t := hist_of a data (done_idx b (cw_i w + 1))]>
            (zip_with (λ b w, hist_of a data (done_idx b (cw_i w))) blocks ws)).
  split.
  - unfold priv_step. destruct (Z.ltb_spec (cw_i w) (cw_end w)); [|lia].
    rewrite data_get by done. simpl.
    change (bin_of a (data !!! Z.to_nat (cw_i w))) with (bin_at a data (cw_i w)).
    rewrite lookup_zip_with, Hb. simpl. rewrite Hw. simpl.
    rewrite vec_get_hist_of by auto. simpl.
    pose proof (tally_bounds a data (done_idx b (cw_i w))
                  (bin_at a data (cw_i w))) as Ht.
    rewrite length_done_idx in Ht.
    rewrite (wrap64_small (tally _ _ _ _ + 1)) by lia.
    rewrite vec_set_hist_of by auto. simpl.
    rewrite wrap64_small by lia.
    by rewrite done_idx_snoc.
  - split; [|split]; [|done|].
    + by apply (ends_keep _ ws t b).
    + rewrite <- (list_insert_id blocks t b Hb) at 2.
      by rewrite <- insert_zip_with.
Qed.

Lemma priv_step_inv t ws locals w :
  priv_inv ws locals → ws !! t = Some w →
  ∃ w' locals', priv_step a data t w locals = Some (w', locals') ∧
                priv_inv (<[t := w']> ws) locals'.
Proof.
  intros HI Hw. destruct (Z.lt_ge_cases (cw_i w) (cw_end w)) as [Hlt|Hge].
  - destruct (priv_step_live ws locals t w HI Hw Hlt) as (locals' & ? & ?).
    by eexists _, _.
  - exists w, locals. unfold priv_step.
    destruct (Z.ltb_spec (cw_i w) (cw_end w)); [lia|].
    by rewrite list_insert_id.
Qed.

Lemma priv_progress ws locals :
  priv_inv ws locals → forallb cnt_fin ws = false →
  ∃ t w w' locals', ws !! t = Some w ∧
    priv_step a data t w locals = Some (w', locals') ∧
    (cnt_measure (<[t := w']> ws) locals' < cnt_measure ws locals)%nat.
Proof.
  intros HI (t & w & Hw & Hfin)%forallb_false_lookup.
  unfold cnt_fin in Hfin. apply negb_false_iff, Z.ltb_lt in Hfin.
  destruct (priv_step_live ws locals t w HI Hw Hfin) as (locals' & Hstep & _).
  eexists t, w, _, _. split; [done|]. split; [done|].
  unfold cnt_measure.
  pose proof (sum_list_with_insert (λ w, Z.to_nat (cw_end w - cw_i w)) ws t w
                (mkCnt (cw_i w + 1) (cw_end w)) Hw) as Hsum.
  simpl in Hsum. lia.
Qed.

(** After the join every row is the histogram of a whole block. *)
Lemma priv_final ws locals :
  priv_inv ws locals → forallb cnt_fin ws = true →
  locals = (λ b, hist_of a data (block_idx b)) <$> blocks.
Proof.
  intros (Hends & Hcs & ->) Hfin.
  pose proof (cursors_finished cw_i cw_end cnt_fin ws cnt_fin_end Hends Hfin)
    as Hge.
  apply zip_hist_final.
  - rewrite Forall2_fmap_r in Hcs. exact Hcs.
  - rewrite Forall2_fmap_r in Hge. exact Hge.
Qed.

(** The reduction adds the rows up to the histogram of all blocks. *)
Lemma reduce_locals_spec :
  reduce_locals (bins a) (Z.of_nat (length blocks))
    ((λ b, hist_of a data (block_idx b)) <$> blocks)
    (replicate (Z.to_nat (bins a)) 0)
  = Some (hist_of a data (concat (block_idx <$> blocks))).
Proof.
  unfold reduce_locals. rewrite <- (hist_of_nil a data).
  set (rows := (λ b, hist_of a data (block_idx b)) <$> blocks).
  set (body := λ (acc : option (list Z)) t,
         hg ← acc; row ← vec_get rows t; add_row add_u64 (bins a) hg row).
  assert (∀ k : nat, (k ≤ length blocks)%nat →
    foldl body (Some (hist_of a data [])) (seqZ 0 (Z.of_nat k))
    = Some (hist_of a data (concat (block_idx <$> take k blocks)))) as Hloop.
  { induction k as [|k IH]; intros Hk; [done|].
    rewrite seqZ_S, foldl_app, IH, Z.add_0_l by lia. cbn [foldl]. unfold body.
    cbn [mbind option_bind].
    destruct (lookup_lt_is_Some_2 blocks k) as [b Hb]; [lia|].
    rewrite (vec_get_lookup rows _ (hist_of a data (block_idx b)))
      by (lia || (unfold rows; by rewrite Nat2Z.id, list_lookup_fmap, Hb)).
    cbn [mbind option_bind].
    rewrite (take_S_r _ _ _ Hb), fmap_app, concat_app. simpl.
    rewrite app_nil_r. apply add_row_hist_of.
    intros y x Hy Hx Hsum. unfold add_u64. rewrite wrap64_small; [done|].
    assert (length (concat (block_idx <$> take k blocks) ++ block_idx b)
            ≤ Z.to_nat (N a))%nat; [|lia].
    rewrite <- (length_seqZ 0), <- Htiles.
    pose proof (take_drop (S k) blocks) as Htd.
    rewrite (take_S_r _ _ _ Hb) in Htd. rewrite <- Htd at 2.
    rewrite !fmap_app, !concat_app, !length_app.
    simpl. rewrite app_nil_r. lia. }
  specialize (Hloop (length blocks)). rewrite firstn_all in Hloop.
  by apply Hloop.
Qed.
End private_threads.

(** ** The mutex variant *)

Section mutex.
(** The loop index, counting the element whose increment is already
    stored. *)
Definition mtx_counted (w : mtx_worker) : Z :=
  mw_i w + match mw_pc w with MStored _ => 1 | _ => 0 end.

(** The lock a worker holds. *)
Definition mtx_holds (w : mtx_worker) : option Z :=
  match mw_pc w with
  | MIdle => None
  | MHeld x | MLoaded x _ | MStored x => Some x
  end.

(** A worker that holds a lock is inside its loop and holds the lock of the
    bin of its current element; a value it has loaded is still the value of
    that bin. *)
Definition mtx_pc_ok (hist : list Z) (w : mtx_worker) : Prop :=
  match mw_pc w with
  | MIdle => True
  | MHeld x | MStored x =>
      (0 ≤ mw_i w < N a ∧ mw_i w < mw_end w) ∧
      x = bin_at a data (mw_i w) ∧ 0 ≤ x < bins a
  | MLoaded x v =>
      (0 ≤ mw_i w < N a ∧ mw_i w < mw_end w) ∧
      x = bin_at a data (mw_i w) ∧ 0 ≤ x < bins a ∧
      vec_get hist x = Some v
  end.

(** A lock is taken exactly when some worker holds it, and no two workers
    hold the same lock. *)
Definition locks_ok (ws : list mtx_worker) (locks : list bool) : Prop :=
  length locks = Z.to_nat (bins a) ∧
  (∀ x, 0 ≤ x < bins a →
     locks !! Z.to_nat x = Some true ↔
     ∃ t w, ws !! t = Some w ∧ mtx_holds w = Some x) ∧
  (∀ t1 t2 w1 w2 x, ws !! t1 = Some w1 → ws !! t2 = Some w2 →
     mtx_holds w1 = Some x → mtx_holds w2 = Some x → t1 = t2).

Definition mtx_inv (ws : list mtx_worker) (s : mtx_store) : Prop :=
  Forall2 (λ b w, mw_end w = b.2) blocks ws ∧
  Forall2 cursor_ok blocks (mtx_counted <$> ws) ∧
  Forall (mtx_pc_ok (ms_hist s)) ws ∧
  ms_hist s = hist_of a data (dones blocks (mtx_counted <$> ws)) ∧
  locks_ok ws (ms_locks s).

Definition mtx_stage (w : mtx_worker) : nat :=
  match mw_pc w with MIdle => 0 | MHeld _ => 1 | MLoaded _ _ => 2 | MStored _ => 3 end.

Definition mtx_measure (ws : list mtx_worker) (s : mtx_store) : nat :=
  sum_list_with (λ w, 4 * Z.to_nat (mw_end w - mw_i w) - mtx_stage w)%nat ws.

Lemma locks_ok_keep ws locks t w w' :
  locks_ok ws locks → ws !! t = Some w → mtx_holds w' = mtx_holds w →
  locks_ok (<[t := w']> ws) locks.
Proof.
  intros (Hl & Hiff & Hex) Hw Hh. split; [done|]. split.
  - intros x Hx. rewrite (Hiff x Hx). split.
    + intros (t1 & w1 & Hw1 & Hh1). destruct (decide (t = t1)) as [<-|Hne].
      * exists t, w'. rewrite list_lookup_insert_eq by (by eapply lookup_lt_Some).
        split; [done|]. simplify_eq. by rewrite Hh.
      * exists t1, w1. by rewrite list_lookup_insert_ne.
    + intros (t1 & w1 & Hw1 & Hh1). destruct (decide (t = t1)) as [<-|Hne].
      * rewrite list_lookup_insert_eq in Hw1 by (by eapply lookup_lt_Some).
        simplify_eq. exists t, w. by rewrite <- Hh.
      * rewrite list_lookup_insert_ne in Hw1 by done. by exists t1, w1.
  - intros t1 t2 w1 w2 x Hw1 Hw2 Hh1 Hh2.
    assert (∀ t0 w0, <[t := w']> ws !! t0 = Some w0 → mtx_holds w0 = Some x →
                     ∃ w0', ws !! t0 = Some w0' ∧ mtx_holds w0' = Some x) as Hold.
    { intros t0 w0 Hw0 Hh0. destruct (decide (t = t0)) as [<-|Hne].
      - rewrite list_lookup_insert_eq in Hw0 by (by eapply lookup_lt_Some).
        simplify_eq. exists w. by rewrite <- Hh.
      - rewrite list_lookup_insert_ne in Hw0 by done. by exists w0. }
    destruct (Hold t1 w1 Hw1 Hh1) as (w1' & ? & ?).
    destruct (Hold t2 w2 Hw2 Hh2) as (w2' & ? & ?).
    by eapply Hex.
Qed.

Lemma locks_ok_acquire ws locks t w w' x :
  locks_ok ws locks → ws !! t = Some w → mtx_holds w = None →
  0 ≤ x < bins a → locks !! Z.to_nat x = Some false →
  mtx_holds w' = Some x →
  locks_ok (<[t := w']> ws) (<[Z.to_nat x := true]> locks).
Proof.
  intros (Hl & Hiff & Hex) Hw Hnone Hx Hfree Hh.
  assert (∀ t0 w0 y, <[t := w']> ws !! t0 = Some w0 → mtx_holds w0 = Some y →
            (t0 = t ∧ y = x) ∨
            (t0 ≠ t ∧ ws !! t0 = Some w0)) as Hold.
  { intros t0 w0 y Hw0 Hh0. destruct (decide (t = t0)) as [<-|Hne].
    - rewrite list_lookup_insert_eq in Hw0 by (by eapply lookup_lt_Some).
      simplify_eq. left. split; [done|]. congruence.
    - rewrite list_lookup_insert_ne in Hw0 by done. right. done. }
  assert (∀ t0 w0, ws !! t0 = Some w0 → mtx_holds w0 = Some x → False) as Hno.
  { intros t0 w0 Hw0 Hh0.
    assert (locks !! Z.to_nat x = Some true) as Htrue
      by (apply Hiff; [done|by exists t0, w0]).
    congruence. }
  split; [by rewrite length_insert|]. split.
  - intros y Hy. destruct (decide (y = x)) as [->|Hne].
    + rewrite list_lookup_insert_eq by lia. split; [|done]. intros _.
      exists t, w'. by rewrite list_lookup_insert_eq by (by eapply lookup_lt_Some).
    + rewrite list_lookup_insert_ne by lia. rewrite (Hiff y Hy). split.
      * intros (t1 & w1 & Hw1 & Hh1). exists t1, w1. split; [|done].
        rewrite list_lookup_insert_ne; [done|]. intros <-. congruence.
      * intros (t1 & w1 & Hw1 & Hh1).
        destruct (Hold t1 w1 y Hw1 Hh1) as [[_ ?]|[_ ?]]; [done|].
        by exists t1, w1.
  - intros t1 t2 w1 w2 y Hw1 Hw2 Hh1 Hh2.
    destruct (Hold t1 w1 y Hw1 Hh1) as [[Ht1 Hy1]|[Hn1 Hw1']],
             (Hold t2 w2 y Hw2 Hh2) as [[Ht2 Hy2]|[Hn2 Hw2']].
    + congruence.
    + exfalso. subst y. by eapply (Hno t2 w2).
    + exfalso. subst y. by eapply (Hno t1 w1).
    + by eapply Hex.
Qed.

Lemma locks_ok_release ws locks t w w' x :
  locks_ok ws locks → ws !! t = Some w → mtx_holds w = Some x →
  0 ≤ x < bins a → mtx_holds w' = None →
  locks_ok (<[t := w']> ws) (<[Z.to_nat x := false]> locks).
Proof.
  intros (Hl & Hiff & Hex) Hw Hhx Hx Hh.
  assert (∀ t0 w0 y, <[t := w']> ws !! t0 = Some w0 → mtx_holds w0 = Some y →
            t0 ≠ t ∧ ws !! t0 = Some w0) as Hold.
  { intros t0 w0 y Hw0 Hh0. destruct (decide (t = t0)) as [<-|Hne].
    - rewrite list_lookup_insert_eq in Hw0 by (by eapply lookup_lt_Some).
      injection Hw0 as <-. congruence.
    - by rewrite list_lookup_insert_ne in Hw0 by done. }
  split; [by rewrite length_insert|]. split.
  - intros y Hy. destruct (decide (y = x)) as [->|Hne].
    + rewrite list_lookup_insert_eq by lia. split; [done|].
      intros (t1 & w1 & Hw1 & Hh1). destruct (Hold t1 w1 x Hw1 Hh1) as [Hne ?].
      destruct Hne. by eapply Hex.
    + rewrite list_lookup_insert_ne by lia. rewrite (Hiff y Hy). split.
      * intros (t1 & w1 & Hw1 & Hh1). exists t1, w1. split; [|done].
        rewrite list_lookup_insert_ne; [done|]. intros <-. congruence.
      * intros (t1 & w1 & Hw1 & Hh1).
        destruct (Hold t1 w1 y Hw1 Hh1) as [_ ?]. by exists t1, w1.
  - intros t1 t2 w1 w2 y Hw1 Hw2 Hh1 Hh2.
    destruct (Hold t1 w1 y Hw1 Hh1) as [_ ?], (Hold t2 w2 y Hw2 Hh2) as [_ ?].
    by eapply Hex.
Qed.

Lemma mtx_inv_init :
  mtx_inv (mtx_init blocks)
    (mkStore (replicate (Z.to_nat (bins a)) 0)
             (replicate (Z.to_nat (bins a)) false)).
Proof.
  unfold mtx_init.
  assert (∀ t w, ((λ b : Z * Z, mkMtx b.1 b.2 MIdle) <$> blocks) !! t = Some w →
                 mw_pc w = MIdle) as Hidle.
  { intros t w Hw. rewrite list_lookup_fmap in Hw.
    destruct (blocks !! t); simplify_eq/=. done. }
  split; [|split; [|split; [|split]]]; simpl.
  - apply Forall2_fmap_r, Forall_Forall2_diag, Forall_forall. done.
  - rewrite <- list_fmap_compose.
    apply Forall2_fmap_r, Forall_Forall2_diag, Forall_forall.
    intros b _. left. unfold mtx_counted. simpl. lia.
  - apply Forall_lookup. intros t w Hw. unfold mtx_pc_ok.
    by rewrite (Hidle t w Hw).
  - rewrite <- list_fmap_compose.
    assert (mtx_counted ∘ (λ b : Z * Z, mkMtx b.1 b.2 MIdle) <$> blocks
            = fst <$> blocks) as ->.
    { apply list_fmap_ext. intros _ b _. unfold mtx_counted. simpl. lia. }
    by rewrite dones_init, hist_of_nil.
  - split; [by rewrite length_replicate|]. split.
    + intros x Hx. rewrite lookup_replicate_2 by lia. split; [done|].
      intros (t & w & Hw & Hh). unfold mtx_holds in Hh.
      by rewrite (Hidle t w Hw) in Hh.
    + intros t1 t2 w1 w2 x Hw1 _ Hh _. unfold mtx_holds in Hh.
      by rewrite (Hidle t1 w1 Hw1) in Hh.
Qed.

(** A worker between two iterations with work left finds the lock of its
    bin taken and waits, or finds it free and takes it. *)
Lemma mtx_step_idle ws s t i e :
  mtx_inv ws s → ws !! t = Some (mkMtx i e MIdle) → i < e →
  let x := bin_at a data i in
  0 ≤ x < bins a ∧
  ((ms_locks s !! Z.to_nat x = Some true ∧
    mtx_step a data t (mkMtx i e MIdle) s = Some (mkMtx i e MIdle, s)) ∨
   (ms_locks s !! Z.to_nat x = Some false ∧
    ∃ s', mtx_step a data t (mkMtx i e MIdle) s
          = Some (mkMtx i e (MHeld x), s') ∧
          mtx_inv (<[t := mkMtx i e (MHeld x)]> ws) s')).
Proof.
  intros (Hends & Hcs & Hpc & Hhist & Hlk) Hw Hlt x.
  destruct (Forall2_lookup_r _ _ _ _ _ Hends Hw) as (b & Hb & Hend).
  simpl in Hend. subst e.
  assert (cursor_ok b i) as Hc.
  { apply (Forall2_lookup_lr cursor_ok blocks (mtx_counted <$> ws) t b i Hcs Hb).
    rewrite list_lookup_fmap, Hw. simpl. f_equal. unfold mtx_counted. simpl. lia. }
  assert (0 ≤ i < N a) as Hi.
  { apply (tiles_in_range _ _ Htiles t b _ Hb). destruct Hc; lia. }
  pose proof (Hbin i Hi) as Hx. fold x in Hx. split; [done|].
  destruct Hlk as (Hl & Hiff & Hex).
  destruct (lookup_lt_is_Some_2 (ms_locks s) (Z.to_nat x)) as [held Hheld];
    [lia|].
  unfold mtx_step. simpl. destruct (Z.ltb_spec i b.2); [|lia].
  rewrite data_get by done. simpl.
  change (bin_of a (data !!! Z.to_nat i)) with x.
  rewrite (vec_get_lookup _ _ held) by (done || lia). simpl.
  destruct held; [left; by split|right]. split; [done|].
  rewrite vec_set_Some by lia. simpl. eexists. split; [done|].
  split; [|split; [|split; [|split]]]; simpl.
  - by apply (ends_keep _ ws t b).
  - by rewrite (cursor_keep mtx_counted ws t (mkMtx i b.2 MIdle)).
  - apply Forall_insert; [done|]. unfold mtx_pc_ok. simpl. lia.
  - by rewrite (cursor_keep mtx_counted ws t (mkMtx i b.2 MIdle)).
  - by apply (locks_ok_acquire ws _ t (mkMtx i b.2 MIdle)).
Qed.

Lemma mtx_step_held ws s t i e x :
  mtx_inv ws s → ws !! t = Some (mkMtx i e (MHeld x)) →
  ∃ v, mtx_step a data t (mkMtx i e (MHeld x)) s
       = Some (mkMtx i e (MLoaded x v), s) ∧
       mtx_inv (<[t := mkMtx i e (MLoaded x v)]> ws) s.
Proof.
  intros (Hends & Hcs & Hpc & Hhist & Hlk) Hw.
  destruct (Forall2_lookup_r _ _ _ _ _ Hends Hw) as (b & Hb & Hend).
  pose proof (Forall_lookup_1 _ _ _ _ Hpc Hw) as (Hi & Hx & Hxr).
  simpl in *.
  exists (tally a data (dones blocks (mtx_counted <$> ws)) x).
  assert (vec_get (ms_hist s) x
          = Some (tally a data (dones blocks (mtx_counted <$> ws)) x)) as Hget
    by (rewrite Hhist; by apply vec_get_hist_of).
  split.
  - unfold mtx_step. simpl. by rewrite Hget.
  - split; [|split; [|split; [|split]]].
    + by apply (ends_keep _ ws t b).
    + by rewrite (cursor_keep mtx_counted ws t (mkMtx i e (MHeld x))).
    + apply Forall_insert; [done|]. unfold mtx_pc_ok. simpl. done.
    + by rewrite (cursor_keep mtx_counted ws t (mkMtx i e (MHeld x))).
    + by apply (locks_ok_keep ws _ t (mkMtx i e (MHeld x))).
Qed.

Lemma mtx_step_loaded ws s t i e x v :
  mtx_inv ws s → ws !! t = Some (mkMtx i e (MLoaded x v)) →
  ∃ s', mtx_step a data t (mkMtx i e (MLoaded x v)) s
        = Some (mkMtx i e (MStored x), s') ∧
        mtx_inv (<[t := mkMtx i e (MStored x)]> ws) s'.
Proof.
  intros (Hends & Hcs & Hpc & Hhist & Hlk) Hw.
  destruct (Forall2_lookup_r _ _ _ _ _ Hends Hw) as (b & Hb & Hend).
  pose proof (Forall_lookup_1 _ _ _ _ Hpc Hw) as (Hi & Hx & Hxr & Hv).
  simpl in *. subst e.
  set (w := mkMtx i b.2 (MLoaded x v)) in *.
  set (w' := mkMtx i b.2 (MStored x)).
  destruct (cursor_advance mtx_counted ws t w w' b) as (_ & Hcs' & Hp);
    [done|done|done|unfold mtx_counted; simpl; lia
    |unfold mtx_counted; simpl; lia|].
  assert (mtx_counted w = i) as Hcw by (unfold mtx_counted; simpl; lia).
  rewrite Hcw in Hp.
  rewrite Hhist, vec_get_hist_of in Hv by done. injection Hv as <-.
  destruct (tally_next_bound _ _ _ x Hcs' Hp) as [Hv0 Hv1].
  exists (mkStore (hist_of a data (dones blocks (mtx_counted <$> ws) ++ [i]))
                  (ms_locks s)).
  split.
  - unfold mtx_step, incr_ll. simpl.
    destruct (Z.ltb_spec (tally a data (dones blocks (mtx_counted <$> ws)) x)
                LLONG_MAX); [|unfold LLONG_MAX in *; lia].
    simpl.
    assert (vec_set (ms_hist s) x
              (tally a data (dones blocks (mtx_counted <$> ws)) x + 1)
            = Some (hist_of a data (dones blocks (mtx_counted <$> ws) ++ [i])))
      as ->; [|done].
    rewrite Hhist, Hx. apply vec_set_hist_of. by rewrite <- Hx.
  - destruct Hlk as (Hl & Hiff & Hex).
    split; [|split; [|split; [|split]]]; simpl.
    + by apply (ends_keep _ ws t b).
    + done.
    + apply Forall_lookup. intros t2 w2 Hw2.
      destruct (decide (t = t2)) as [<-|Hne].
      * rewrite list_lookup_insert_eq in Hw2 by (by eapply lookup_lt_Some).
        injection Hw2 as <-. unfold mtx_pc_ok. simpl. done.
      * rewrite list_lookup_insert_ne in Hw2 by done.
        pose proof (Forall_lookup_1 _ _ _ _ Hpc Hw2) as Hok.
        unfold mtx_pc_ok in *. destruct (mw_pc w2) as [|y|y v2|y] eqn:Hpc2;
          try done.
        destruct Hok as (? & ? & ? & Hv2). repeat (split; [done|]).
        assert (y ≠ x) as Hyx.
        { intros ->. apply Hne. apply (Hex t t2 w w2 x); try done.
          unfold mtx_holds. by rewrite Hpc2. }
        rewrite Hhist, vec_get_hist_of in Hv2 by done.
        rewrite vec_get_hist_of, tally_app, tally_singleton by done.
        rewrite decide_False by congruence. rewrite Z.add_0_r. done.
    + by apply hist_of_perm.
    + by apply (locks_ok_keep ws _ t w).
Qed.

Lemma mtx_step_stored ws s t i e x :
  mtx_inv ws s → ws !! t = Some (mkMtx i e (MStored x)) →
  ∃ s', mtx_step a data t (mkMtx i e (MStored x)) s
        = Some (mkMtx (i + 1) e MIdle, s') ∧
        mtx_inv (<[t := mkMtx (i + 1) e MIdle]> ws) s'.
Proof.
  intros (Hends & Hcs & Hpc & Hhist & Hlk) Hw.
  destruct (Forall2_lookup_r _ _ _ _ _ Hends Hw) as (b & Hb & Hend).
  pose proof (Forall_lookup_1 _ _ _ _ Hpc Hw) as (Hi & Hx & Hxr).
  simpl in *. subst e.
  pose proof Hlk as (Hl & _ & _).
  exists (mkStore (ms_hist s) (<[Z.to_nat x := false]> (ms_locks s))). split.
  - unfold mtx_step. simpl. rewrite vec_set_Some by lia. simpl.
    by rewrite wrap64_small by lia.
  - assert (mtx_counted (mkMtx (i + 1) b.2 MIdle)
            = mtx_counted (mkMtx i b.2 (MStored x))) as Hsame
      by (unfold mtx_counted; simpl; lia).
    split; [|split; [|split; [|split]]]; simpl.
    + by apply (ends_keep _ ws t b).
    + by rewrite (cursor_keep mtx_counted ws t (mkMtx i b.2 (MStored x))).
    + apply Forall_insert; [done|]. unfold mtx_pc_ok. simpl. done.
    + by rewrite (cursor_keep mtx_counted ws t (mkMtx i b.2 (MStored x))).
    + by apply (locks_ok_release ws _ t (mkMtx i b.2 (MStored x))).
Qed.

Lemma mtx_step_done t i e s :
  ¬ i < e → mtx_step a data t (mkMtx i e MIdle) s = Some (mkMtx i e MIdle, s).
Proof. intros. unfold mtx_step. simpl. by destruct (Z.ltb_spec i e). Qed.

Lemma mtx_step_inv t ws s w :
  mtx_inv ws s → ws !! t = Some w →
  ∃ w' s', mtx_step a data t w s = Some (w', s') ∧ mtx_inv (<[t := w']> ws) s'.
Proof.
  intros HI Hw. destruct w as [i e [|x|x v|x]].
  - destruct (Z.lt_ge_cases i e) as [Hlt|Hge].
    + destruct (mtx_step_idle ws s t i e HI Hw Hlt)
        as (_ & [[_ Hst]|(_ & s' & Hst & HI')]).
      * eexists _, _. split; [done|]. by rewrite list_insert_id.
      * by eexists _, _.
    + rewrite mtx_step_done by lia. eexists _, _. split; [done|].
      by rewrite list_insert_id.
  - destruct (mtx_step_held ws s t i e x HI Hw) as (v & ? & ?). by eexists _, _.
  - destruct (mtx_step_loaded ws s t i e x v HI Hw) as (s' & ? & ?).
    by eexists _, _.
  - destruct (mtx_step_stored ws s t i e x HI Hw) as (s' & ? & ?).
    by eexists _, _.
Qed.

Definition mtx_idle (w : mtx_worker) : bool :=
  match mw_pc w with MIdle => true | _ => false end.

(** Some worker can always move: one that holds a lock is never blocked,
    and when nobody holds a lock every lock is free. *)
Lemma mtx_progress ws s :
  mtx_inv ws s → forallb mtx_fin ws = false →
  ∃ t w w' s', ws !! t = Some w ∧ mtx_step a data t w s = Some (w', s') ∧
    (mtx_measure (<[t := w']> ws) s' < mtx_measure ws s)%nat.
Proof.
  intros HI Hfin.
  assert (∀ t w w' s', ws !! t = Some w → mtx_step a data t w s = Some (w', s') →
    (4 * Z.to_nat (mw_end w' - mw_i w') - mtx_stage w'
     < 4 * Z.to_nat (mw_end w - mw_i w) - mtx_stage w)%nat →
    ∃ t w w' s', ws !! t = Some w ∧ mtx_step a data t w s = Some (w', s') ∧
      (mtx_measure (<[t := w']> ws) s' < mtx_measure ws s)%nat) as Hdec.
  { intros t w w' s' Hw Hst Hlt. exists t, w, w', s'. split; [done|].
    split; [done|]. unfold mtx_measure.
    pose proof (sum_list_with_insert
      (λ w, 4 * Z.to_nat (mw_end w - mw_i w) - mtx_stage w)%nat ws t w w' Hw).
    simpl in *. lia. }
  destruct (forallb mtx_idle ws) eqn:Hidle.
  - apply forallb_false_lookup in Hfin as (t & w & Hw & Hf).
    pose proof (forallb_true_lookup _ _ _ _ Hidle Hw) as Hpc.
    destruct w as [i e pc]. unfold mtx_idle in Hpc. simpl in Hpc.
    destruct pc; try done. unfold mtx_fin in Hf. simpl in Hf.
    apply negb_false_iff, Z.ltb_lt in Hf.
    destruct (mtx_step_idle ws s t i e HI Hw Hf)
      as (Hx & [[Htaken _]|(_ & s' & Hst & _)]).
    + destruct HI as (_ & _ & _ & _ & _ & Hiff & _).
      apply Hiff in Htaken as (t2 & w2 & Hw2 & Hh2); [|done].
      pose proof (forallb_true_lookup _ _ _ _ Hidle Hw2) as Hpc2.
      unfold mtx_idle in Hpc2. unfold mtx_holds in Hh2.
      by destruct (mw_pc w2).
    + apply (Hdec t _ _ s' Hw Hst). unfold mtx_stage. simpl. lia.
  - apply forallb_false_lookup in Hidle as (t & w & Hw & Hpc).
    destruct HI as (Hends & Hcs & Hok & Hhist & Hlk).
    pose proof (Forall_lookup_1 _ _ _ _ Hok Hw) as Hokw.
    assert (mtx_inv ws s) as HI by done.
    destruct w as [i e [|x|x v|x]]; unfold mtx_idle in Hpc; simpl in Hpc;
      try done; unfold mtx_pc_ok in Hokw; simpl in Hokw.
    + destruct (mtx_step_held ws s t i e x HI Hw) as (v & Hst & _).
      apply (Hdec t _ _ s Hw Hst). unfold mtx_stage. simpl. lia.
    + destruct (mtx_step_loaded ws s t i e x v HI Hw) as (s' & Hst & _).
      apply (Hdec t _ _ s' Hw Hst). unfold mtx_stage. simpl. lia.
    + destruct (mtx_step_stored ws s t i e x HI Hw) as (s' & Hst & _).
      apply (Hdec t _ _ s' Hw Hst). unfold mtx_stage. simpl. lia.
Qed.

Lemma mtx_fin_end w : mtx_fin w = true → mw_end w ≤ mtx_counted w.
Proof.
  unfold mtx_fin, mtx_counted. destruct (mw_pc w); try done.
  intros ?%negb_true_iff%Z.ltb_ge. lia.
Qed.

Lemma mtx_final ws s :
  mtx_inv ws s → forallb mtx_fin ws = true → ms_hist s = histogram a data.
Proof.
  intros (Hends & Hcs & _ & -> & _) Hfin. apply hist_of_perm.
  apply (dones_final _ _ Htiles); [done|].
  by apply (cursors_finished mtx_counted mw_end mtx_fin ws mtx_fin_end).
Qed.
End mutex.

(** ** The private variant of hist_openmp.cpp *)

Section omp_private.
(** A worker's [hist_local] is the histogram of what it has counted, and a
    worker beyond the [omp for] has counted its whole block. *)
Definition opriv_worker_ok (b : Z * Z) (w : opriv_worker) : Prop :=
  ow_end w = b.2 ∧ cursor_ok b (ow_i w) ∧
  ow_local w = hist_of a data (done_idx b (ow_i w)) ∧
  (ow_pc w ≠ OCount → b.2 ≤ ow_i w).

(** [hist_global] is the histogram of the blocks merged so far. *)
Definition opriv_inv (ws : list opriv_worker) (s : opriv_store) : Prop :=
  Forall2 opriv_worker_ok blocks ws ∧
  os_hist s = hist_of a data (concat (zip_with opriv_contrib blocks ws)) ∧
  os_arrived s = Z.of_nat (sum_list_with opriv_arrived ws).

Definition opriv_measure (ws : list opriv_worker) (s : opriv_store) : nat :=
  sum_list_with (λ w, match ow_pc w with
                      | OCount => Z.to_nat (ow_end w - ow_i w) + 2
                      | OBarrier => 1
                      | OMerged => 0
                      end)%nat ws.

Lemma opriv_inv_init :
  opriv_inv (opriv_init (bins a) blocks)
    (mkOstore (replicate (Z.to_nat (bins a)) 0) 0).
Proof.
  unfold opriv_init. split; [|split]; simpl.
  - apply Forall2_fmap_r, Forall_Forall2_diag, Forall_forall.
    intros b _. split; [done|]. split; [by left|]. simpl.
    by rewrite done_idx_start, hist_of_nil.
  - rewrite <- (hist_of_nil a data). f_equal. clear.
    induction blocks as [|b bs IH]; csimpl; [done|]. by rewrite <- IH.
  - clear. induction blocks as [|b bs IH]; csimpl; [done|]. by rewrite <- IH.
Qed.

Lemma opriv_inv_block ws s t w :
  opriv_inv ws s → ws !! t = Some w →
  ∃ b, blocks !! t = Some b ∧ opriv_worker_ok b w.
Proof. intros (Hok & _) Hw. by eapply Forall2_lookup_r. Qed.

(** Counting one element touches only the worker's own [hist_local]. *)
Lemma opriv_step_count ws s t i e loc :
  opriv_inv ws s → ws !! t = Some (mkOpriv i e loc OCount) → i < e →
  ∃ loc', opriv_step a data (bins a) (Z.of_nat (length blocks)) t
            (mkOpriv i e loc OCount) s
          = Some (mkOpriv (i + 1) e loc' OCount, s) ∧
          opriv_inv (<[t := mkOpriv (i + 1) e loc' OCount]> ws) s.
Proof.
  intros HI Hw Hlt.
  destruct (opriv_inv_block ws s t _ HI Hw) as (b & Hb & He & Hc & Hloc & _).
  destruct HI as (Hok & Hhist & Harr). simpl in *. subst e loc.
  assert (b.1 ≤ i) as Hlo by (destruct Hc; lia).
  assert (0 ≤ i < N a) as Hi
    by (apply (tiles_in_range _ _ Htiles t b _ Hb); lia).
  assert (0 ≤ b.1 < N a) as Hb1
    by (apply (tiles_in_range _ _ Htiles t b _ Hb); lia).
  pose proof (Hbin i Hi) as Hx.
  pose proof (tally_bounds a data (done_idx b i) (bin_at a data i)) as Hv.
  rewrite length_done_idx in Hv.
  exists (hist_of a data (done_idx b (i + 1))). split.
  - unfold opriv_step. simpl. destruct (Z.ltb_spec i b.2); [|lia].
    rewrite data_get by done. simpl.
    change (bin_of a (data !!! Z.to_nat i)) with (bin_at a data i).
    rewrite vec_get_hist_of by done. simpl. unfold incr_ll.
    destruct (Z.ltb_spec (tally a data (done_idx b i) (bin_at a data i))
                LLONG_MAX); [|unfold LLONG_MAX in *; lia].
    simpl. rewrite vec_set_hist_of by done. simpl.
    by rewrite done_idx_snoc.
  - split; [|split].
    + apply (ends_keep _ ws t b); [done..|].
      split; [done|]. split; [right; simpl; lia|]. split; [done|]. done.
    + rewrite Hhist. f_equal. f_equal. symmetry.
      by eapply zip_with_keep.
    + rewrite Harr. f_equal.
      pose proof (sum_list_with_insert opriv_arrived ws t _
                    (mkOpriv (i + 1) b.2 (hist_of a data (done_idx b (i + 1)))
                       OCount) Hw) as Hsum.
      unfold opriv_arrived in Hsum at 2 4. simpl in Hsum. lia.
Qed.

(** A worker that leaves the loop reaches the barrier. *)
Lemma opriv_step_arrive ws s t i e loc :
  opriv_inv ws s → ws !! t = Some (mkOpriv i e loc OCount) → ¬ i < e →
  opriv_step a data (bins a) (Z.of_nat (length blocks)) t
    (mkOpriv i e loc OCount) s
  = Some (mkOpriv i e loc OBarrier, mkOstore (os_hist s) (os_arrived s + 1)) ∧
  opriv_inv (<[t := mkOpriv i e loc OBarrier]> ws)
    (mkOstore (os_hist s) (os_arrived s + 1)).
Proof.
  intros HI Hw Hge.
  destruct (opriv_inv_block ws s t _ HI Hw) as (b & Hb & He & Hc & Hloc & _).
  destruct HI as (Hok & Hhist & Harr). simpl in *. split.
  - unfold opriv_step. simpl. by destruct (Z.ltb_spec i e).
  - split; [|split]; simpl.
    + apply (ends_keep _ ws t b); [done..|].
      split; [done|]. split; [done|]. split; [done|]. simpl. intros _. lia.
    + rewrite Hhist. f_equal. f_equal. symmetry.
      by eapply zip_with_keep.
    + rewrite Harr.
      pose proof (sum_list_with_insert opriv_arrived ws t _
                    (mkOpriv i e loc OBarrier) Hw) as Hsum.
      unfold opriv_arrived in Hsum at 2 4. simpl in Hsum. lia.
Qed.

(** Once the barrier is open, a worker merges its block. *)
Lemma opriv_step_merge ws s t i e loc :
  opriv_inv ws s → ws !! t = Some (mkOpriv i e loc OBarrier) →
  os_arrived s = Z.of_nat (length blocks) →
  ∃ hg, opriv_step a data (bins a) (Z.of_nat (length blocks)) t
          (mkOpriv i e loc OBarrier) s
        = Some (mkOpriv i e loc OMerged, mkOstore hg (os_arrived s)) ∧
        opriv_inv (<[t := mkOpriv i e loc OMerged]> ws)
          (mkOstore hg (os_arrived s)).
Proof.
  intros HI Hw Hall.
  destruct (opriv_inv_block ws s t _ HI Hw) as (b & Hb & He & Hc & Hloc & Hdone).
  destruct HI as (Hok & Hhist & Harr). simpl in *.
  rewrite done_idx_final in Hloc by (done || by apply Hdone). subst loc.
  set (w := mkOpriv i e _ OBarrier) in *.
  set (w' := mkOpriv i e (hist_of a data (block_idx b)) OMerged).
  assert (concat (zip_with opriv_contrib blocks (<[t := w']> ws))
          ≡ₚ concat (zip_with opriv_contrib blocks ws) ++ block_idx b) as Hp.
  { rewrite <- (list_insert_id blocks t b Hb) at 1.
    rewrite <- insert_zip_with.
    change (opriv_contrib b w') with ([] ++ block_idx b).
    apply concat_insert_app. rewrite lookup_zip_with, Hb. simpl.
    by rewrite Hw. }
  exists (hist_of a data (concat (zip_with opriv_contrib blocks ws) ++ block_idx b)).
  split.
  - unfold opriv_step. simpl. rewrite Hall, Z.eqb_refl, Hhist.
    rewrite add_row_hist_of; [done|].
    intros y x Hy Hx Hsum. unfold add_ll.
    pose proof (sublist_length _ _ (opriv_contrib_sublist blocks (<[t := w']> ws)))
      as Hlen'.
    rewrite Hp, Htiles, length_seqZ in Hlen'.
    destruct (Z.leb_spec (- 2 ^ 63) (y + x)); [|lia].
    destruct (Z.leb_spec (y + x) LLONG_MAX); [done|unfold LLONG_MAX in *; lia].
  - split; [|split]; simpl.
    + apply (ends_keep _ ws t b); [done..|].
      split; [done|]. split; [done|]. split; [|intros _; by apply Hdone].
      simpl. by rewrite done_idx_final by (done || by apply Hdone).
    + by apply hist_of_perm.
    + rewrite Harr.
      pose proof (sum_list_with_insert opriv_arrived ws t _ w' Hw) as Hsum.
      unfold opriv_arrived in Hsum at 2 4. simpl in Hsum. lia.
Qed.

Lemma opriv_step_inv t ws s w :
  opriv_inv ws s → ws !! t = Some w →
  ∃ w' s', opriv_step a data (bins a) (Z.of_nat (length blocks)) t w s
           = Some (w', s') ∧ opriv_inv (<[t := w']> ws) s'.
Proof.
  intros HI Hw. destruct w as [i e loc [| |]].
  - destruct (Z.lt_ge_cases i e) as [Hlt|Hge].
    + destruct (opriv_step_count ws s t i e loc HI Hw Hlt) as (loc' & ? & ?).
      by eexists _, _.
    + destruct (opriv_step_arrive ws s t i e loc HI Hw) as [? ?]; [lia|].
      by eexists _, _.
  - destruct (decide (os_arrived s = Z.of_nat (length blocks))) as [Hall|Hnot].
    + destruct (opriv_step_merge ws s t i e loc HI Hw Hall) as (hg & ? & ?).
      by eexists _, _.
    + exists (mkOpriv i e loc OBarrier), s. split.
      * unfold opriv_step. simpl.
        by destruct (Z.eqb_spec (os_arrived s) (Z.of_nat (length blocks))).
      * by rewrite list_insert_id.
  - exists (mkOpriv i e loc OMerged), s. split; [done|].
    by rewrite list_insert_id.
Qed.

Definition opriv_past (w : opriv_worker) : bool :=
  match ow_pc w with OCount => false | _ => true end.

(** A worker still in its loop can move; when all have reached the barrier
    it is open, and a worker that has not merged yet can do so. *)
Lemma opriv_progress ws s :
  opriv_inv ws s → forallb opriv_fin ws = false →
  ∃ t w w' s', ws !! t = Some w ∧
    opriv_step a data (bins a) (Z.of_nat (length blocks)) t w s = Some (w', s') ∧
    (opriv_measure (<[t := w']> ws) s' < opriv_measure ws s)%nat.
Proof.
  intros HI Hfin.
  set (m := λ w, match ow_pc w with
                 | OCount => Z.to_nat (ow_end w - ow_i w) + 2
                 | OBarrier => 1
                 | OMerged => 0
                 end%nat).
  assert (∀ t w w' s', ws !! t = Some w →
    opriv_step a data (bins a) (Z.of_nat (length blocks)) t w s = Some (w', s') →
    (m w' < m w)%nat →
    ∃ t w w' s', ws !! t = Some w ∧
      opriv_step a data (bins a) (Z.of_nat (length blocks)) t w s = Some (w', s') ∧
      (opriv_measure (<[t := w']> ws) s' < opriv_measure ws s)%nat) as Hdec.
  { intros t w w' s' Hw Hst Hlt. exists t, w, w', s'. split; [done|].
    split; [done|]. unfold opriv_measure. fold m.
    pose proof (sum_list_with_insert m ws t w w' Hw). lia. }
  destruct (forallb opriv_past ws) eqn:Hpast.
  - apply forallb_false_lookup in Hfin as (t & w & Hw & Hf).
    pose proof (forallb_true_lookup _ _ _ _ Hpast Hw) as Hp.
    destruct w as [i e loc pc]. unfold opriv_past in Hp. unfold opriv_fin in Hf.
    simpl in *. destruct pc; try done.
    assert (os_arrived s = Z.of_nat (length blocks)) as Hall.
    { destruct HI as (Hok & _ & ->). f_equal.
      rewrite (Forall2_length _ _ _ Hok). apply sum_list_with_ones.
      apply Forall_lookup. intros t2 w2 Hw2.
      pose proof (forallb_true_lookup _ _ _ _ Hpast Hw2) as Hp2.
      unfold opriv_past in Hp2. unfold opriv_arrived. by destruct (ow_pc w2). }
    destruct (opriv_step_merge ws s t i e loc HI Hw Hall) as (hg & Hst & _).
    apply (Hdec t _ _ _ Hw Hst). unfold m. simpl. lia.
  - apply forallb_false_lookup in Hpast as (t & w & Hw & Hp).
    destruct w as [i e loc pc]. unfold opriv_past in Hp. simpl in Hp.
    destruct pc; try done.
    destruct (Z.lt_ge_cases i e) as [Hlt|Hge].
    + destruct (opriv_step_count ws s t i e loc HI Hw Hlt) as (loc' & Hst & _).
      apply (Hdec t _ _ _ Hw Hst). unfold m. simpl. lia.
    + destruct (opriv_step_arrive ws s t i e loc HI Hw) as [Hst _]; [lia|].
      apply (Hdec t _ _ _ Hw Hst). unfold m. simpl. lia.
Qed.

Lemma opriv_final ws s :
  opriv_inv ws s → forallb opriv_fin ws = true → os_hist s = histogram a data.
Proof.
  intros (Hok & -> & _) Hfin. apply hist_of_perm.
  rewrite opriv_contrib_all; [done| |done]. by eapply Forall2_length.
Qed.
End omp_private.
End count_facts.

(** ** Phases that settle *)

(** A computation driven by a schedule settles on [P] when no schedule
    makes it fault, every result it returns satisfies [P], and every
    schedule can be continued until it returns. *)
Definition settles {A} (f : list nat → outcome A) (P : A → Prop) : Prop :=
  ∀ sched,
    f sched ≠ Fault ∧
    (∀ x, f sched = Done x → P x) ∧
    (∃ sched' x, f (sched ++ sched') = Done x).

Lemma settles_join {L S} (step : nat → L → S → option (L * S)) (fin : L → bool)
    (Inv : list L → S → Prop) (measure : list L → S → nat)
    (P : list L * S → Prop) ls s :
  (∀ t ls s l, Inv ls s → ls !! t = Some l →
     ∃ l' s', step t l s = Some (l', s') ∧ Inv (<[t := l']> ls) s') →
  (∀ ls s, Inv ls s → forallb fin ls = false →
     ∃ t l l' s', ls !! t = Some l ∧ step t l s = Some (l', s') ∧
                  (measure (<[t := l']> ls) s' < measure ls s)%nat) →
  (∀ ls s, Inv ls s → forallb fin ls = true → P (ls, s)) →
  Inv ls s →
  settles (λ sched, join step fin sched (ls, s)) P.
Proof.
  intros Hstep Hprog Hfinal HI sched. split; [|split].
  - by eapply join_not_Fault.
  - intros [ls' s'] Hj.
    destruct (join_Done_inv step fin Inv Hstep sched ls s _ HI Hj). by apply Hfinal.
  - by eapply join_completes.
Qed.

Lemma settles_bind {A B} (f : list nat → outcome A) (k : A → outcome B)
    (P : A → Prop) (Q : B → Prop) :
  settles f P → (∀ x, P x → ∃ y, k x = Done y ∧ Q y) →
  settles (λ sched, x ←o f sched; k x) Q.
Proof.
  intros Hf Hk sched. destruct (Hf sched) as (Hnf & Hd & sched' & x & Hc).
  split; [|split].
  - destruct (f sched) as [x0| |] eqn:Hfs; simpl; [|done..].
    destruct (Hk x0 (Hd x0 eq_refl)) as (y & -> & _). done.
  - intros y. destruct (f sched) as [x0| |] eqn:Hfs; simpl; [|done..].
    destruct (Hk x0 (Hd x0 eq_refl)) as (y' & -> & HQ). by intros [= <-].
  - destruct (Hf (sched ++ sched')) as (_ & Hd' & _).
    destruct (Hk x (Hd' x Hc)) as (y & Hy & _).
    exists sched', y. by rewrite Hc.
Qed.

(** ** Datasets in range *)

(** A dataset of [a.N] elements of [minv, maxv]. *)
Definition in_range (a : Args) (data : list Z) : Prop :=
  length data = Z.to_nat (N a) ∧ Forall (λ x, minv a ≤ x ≤ maxv a) data.

Lemma bins_width a :
  valid_args a → minv a ≤ maxv a →
  bins a = maxv a - minv a + 1 ∧ 1 ≤ bins a ≤ INT_MAX.
Proof.
  intros Hv Hmm. destruct Hv. unfold bins, INT_MAX, INT_MIN in *.
  rewrite wrap32s_small; unfold INT_MAX, INT_MIN; lia.
Qed.

Lemma bin_at_ok a data :
  valid_args a → minv a ≤ maxv a → in_range a data →
  ∀ i, 0 ≤ i < N a → 0 ≤ bin_at a data i < bins a.
Proof.
  intros Hv Hmm [Hlen Hall] i Hi.
  destruct (bins_width a Hv Hmm) as [-> _].
  assert (data !! Z.to_nat i = Some (data !!! Z.to_nat i)) as Hx
    by (apply list_lookup_lookup_total_lt; lia).
  rewrite Forall_lookup in Hall. apply Hall in Hx.
  unfold bin_at, bin_of. destruct Hv. unfold INT_MAX, INT_MIN in *.
  rewrite wrap32s_small; unfold INT_MAX, INT_MIN; lia.
Qed.

Lemma histogram_perm a data idxs :
  idxs ≡ₚ seqZ 0 (N a) → hist_of a data idxs = histogram a data.
Proof. apply hist_of_perm. Qed.

(** ** The counting phase of hist_threads.cpp *)

Section threads_count_facts.
Variables (a : Args) (T : Z) (data : list Z).
Hypothesis Hvalid : valid_args a.
Hypothesis Hmm : minv a ≤ maxv a.
Hypothesis HT : 1 ≤ T ≤ INT_MAX.
Hypothesis Hdata : in_range a data.

(** Whatever the variant and the interleaving, the counting phase returns
    the histogram of the dataset and [a.N] as the sum of its bins. *)
Lemma threads_count_settles :
  settles (threads_count a T data) (λ res, res = (histogram a data, N a)).
Proof.
  destruct (bins_width a Hvalid Hmm) as [_ Hbins].
  pose proof (valid_N a Hvalid) as HN.
  pose proof (thread_blocks_tiles (N a) T HN HT) as Htiles.
  pose proof (bin_at_ok a data Hvalid Hmm Hdata) as Hbin.
  destruct Hdata as [Hlen _].
  pose proof (length_thread_blocks (N a) T) as HlenT.
  unfold threads_count.
  rewrite !vec_make_Some by lia. cbn [of_option obind].
  destruct (String.eqb (variant a) "private");
    [|destruct (String.eqb (variant a) "atomic")].
  - rewrite vec_make_Some by lia. cbn [of_option obind].
    eapply settles_bind.
    + rewrite <- HlenT.
      eapply (settles_join _ _ (priv_inv a data (thread_blocks (N a) T))
                cnt_measure
                (λ st, st.2 = (λ b, hist_of a data (block_idx b))
                                <$> thread_blocks (N a) T)).
      * by apply priv_step_inv.
      * by apply priv_progress.
      * intros ws locals HI Hfin. by eapply priv_final.
      * apply priv_inv_init.
    + intros [ws locals] Hst. simpl in Hst. subst locals.
      simpl.
      pose proof (reduce_locals_spec a data (thread_blocks (N a) T)) as Hred.
      rewrite HlenT, Z2Nat.id in Hred by lia. rewrite Hred by done. cbn [of_option obind].
      eexists. split; [done|].
      rewrite (histogram_perm a data _ Htiles).
      by rewrite (accumulate_histogram a data HN Hlen Hbin).
  - eapply settles_bind.
    + eapply (settles_join _ _ (atomic_inv a data (thread_blocks (N a) T))
                cnt_measure (λ st, st.2 = histogram a data)).
      * apply atomic_step_inv; auto using fetch_add_ll_small.
      * apply atomic_progress; auto using fetch_add_ll_small.
      * intros ws hist HI Hfin. by eapply atomic_final.
      * apply atomic_inv_init.
    + intros [ws hist] Hst. simpl in Hst. subst hist. eexists. split; [done|].
      simpl. by rewrite (accumulate_histogram a data HN Hlen Hbin).
  - eapply settles_bind.
    + eapply (settles_join _ _ (mtx_inv a data (thread_blocks (N a) T))
                mtx_measure (λ st, ms_hist st.2 = histogram a data)).
      * by apply mtx_step_inv.
      * by apply mtx_progress.
      * intros ws s HI Hfin. by eapply mtx_final.
      * by apply mtx_inv_init.
    + intros [ws s] Hst. simpl in Hst. eexists. split; [done|].
      simpl. rewrite Hst. by rewrite (accumulate_histogram a data HN Hlen Hbin).
Qed.
End threads_count_facts.

(** ** The counting phase of hist_openmp.cpp *)

Lemma as_ll_small z : 0 ≤ z < 2 ^ 63 → as_ll z = z.
Proof. intros. unfold as_ll. rewrite Z.mod_small; lia. Qed.

Lemma supported_cases v :
  supported v = true → v = "private" ∨ v = "atomic" ∨ v = "mutex".
Proof.
  unfold supported. intros H.
  apply orb_prop in H as [H|H]; [apply orb_prop in H as [H|H]|];
    apply String.eqb_eq in H; auto.
Qed.

Section omp_count_facts.
Context `{OmpRuntime} `{!OmpLaws}.
Variables (a : Args) (T : Z) (data : list Z).
Hypothesis Hvalid : valid_args a.
Hypothesis Hmm : minv a ≤ maxv a.
Hypothesis HT : 1 ≤ T ≤ INT_MAX.
Hypothesis Hdata : in_range a data.

Lemma omp_count_settles :
  supported (variant a) = true →
  settles (omp_count a T data) (λ res, res = Some (histogram a data, N a)).
Proof.
  intros Hsup.
  destruct (bins_width a Hvalid Hmm) as [_ Hbins].
  pose proof (valid_N a Hvalid) as HN.
  assert (tiles (N a) (omp_static (N a) T)) as Htiles
    by (by apply omp_static_tiles).
  pose proof (bin_at_ok a data Hvalid Hmm Hdata) as Hbin.
  destruct Hdata as [Hlen _].
  pose proof (omp_static_length (N a) T) as HlenT.
  unfold omp_count. rewrite as_ll_small by done.
  rewrite !vec_make_Some by lia. cbn [of_option obind].
  destruct (supported_cases _ Hsup) as [->|[->| ->]]; simpl.
  - eapply settles_bind.
    + set (blocks := omp_static (N a) T) in *.
      replace T with (Z.of_nat (length blocks)) by lia.
      eapply (settles_join _ _ (opriv_inv a data blocks)
                opriv_measure (λ st, os_hist st.2 = histogram a data)).
      * by apply opriv_step_inv.
      * by apply opriv_progress.
      * intros ws s HI Hfin. by eapply opriv_final.
      * apply opriv_inv_init.
    + intros [ws s] Hst. simpl in Hst. eexists. split; [done|].
      simpl. rewrite Hst. by rewrite (accumulate_histogram a data HN Hlen Hbin).
  - eapply settles_bind.
    + eapply (settles_join _ _ (atomic_inv a data (omp_static (N a) T))
                cnt_measure (λ st, st.2 = histogram a data)).
      * apply atomic_step_inv; auto using incr_ll_small.
      * apply atomic_progress; auto using incr_ll_small.
      * intros ws hist HI Hfin. by eapply atomic_final.
      * apply atomic_inv_init.
    + intros [ws hist] Hst. simpl in Hst. subst hist. eexists. split; [done|].
      simpl. by rewrite (accumulate_histogram a data HN Hlen Hbin).
  - eapply settles_bind.
    + eapply (settles_join _ _ (mtx_inv a data (omp_static (N a) T))
                mtx_measure (λ st, ms_hist st.2 = histogram a data)).
      * by apply mtx_step_inv.
      * by apply mtx_progress.
      * intros ws s HI Hfin. by eapply mtx_final.
      * by apply mtx_inv_init.
    + intros [ws s] Hst. simpl in Hst. eexists. split; [done|].
      simpl. rewrite Hst. by rewrite (accumulate_histogram a data HN Hlen Hbin).
Qed.
End omp_count_facts.

Lemma omp_count_unsupported `{OmpRuntime} a T data sched :
  supported (variant a) = false → omp_count a T data sched = Done None.
Proof.
  unfold supported, omp_count. intros Hs.
  apply orb_false_elim in Hs as [Hs Hm].
  apply orb_false_elim in Hs as [Hp Ha]. by rewrite Hp, Ha, Hm.
Qed.

(** ** The two phases of a repetition *)

Lemma gen_phase_settles `{Rng G} a r blocks :
  0 ≤ N a < 2 ^ 63 → tiles (N a) blocks → N a ≤ data_max_size →
  settles (gen_phase a r blocks) (gen_spec a r blocks).
Proof.
  intros HN Htiles Hmax sched. split; [|split].
  - by apply gen_phase_not_Fault.
  - intros data. by apply gen_phase_Done.
  - by apply gen_phase_completes.
Qed.

Lemma gen_spec_in_range `{Rng G} `{!RngLaws G} a r blocks data :
  0 ≤ N a < 2 ^ 63 → tiles (N a) blocks → minv a ≤ maxv a →
  gen_spec a r blocks data → in_range a data.
Proof.
  intros HN Htiles Hmm Hspec. split; [apply Hspec|].
  by eapply gen_spec_range.
Qed.

(** Extending the two schedules of an environment. *)
Definition more (e : rep_env) (gs cs : list nat) : rep_env :=
  mkEnv (gen_sched e ++ gs) (cnt_sched e ++ cs) (gen_ms e) (hist_ms e).

Lemma two_phases {A B} (f : list nat → outcome A) (g : A → list nat → outcome B)
    (P : A → Prop) (Q : A → B → Prop) :
  settles f P → (∀ x, P x → settles (g x) (Q x)) →
  ∀ s1 s2,
    (x ←o f s1; y ←o g x s2; Done (x, y)) ≠ Fault ∧
    (∀ x y, (x ←o f s1; y ←o g x s2; Done (x, y)) = Done (x, y) → P x ∧ Q x y) ∧
    (∃ s1' s2' out,
       (x ←o f (s1 ++ s1'); y ←o g x (s2 ++ s2'); Done (x, y)) = Done out).
Proof.
  intros Hf Hg s1 s2. destruct (Hf s1) as (Hnf & Hd & s1' & x1 & Hc).
  split; [|split].
  - destruct (f s1) as [x| |] eqn:Hfs; simpl; [|done..].
    destruct (Hg x (Hd x eq_refl) s2) as (Hnf2 & _ & _).
    by destruct (g x s2).
  - intros x y. destruct (f s1) as [x0| |] eqn:Hfs; simpl; [|done..].
    destruct (Hg x0 (Hd x0 eq_refl) s2) as (_ & Hd2 & _).
    destruct (g x0 s2) as [y0| |] eqn:Hgs; simpl; [|done..].
    intros [= <- <-]. split; [by apply Hd|by apply Hd2].
  - destruct (Hf (s1 ++ s1')) as (_ & Hd' & _).
    destruct (Hg x1 (Hd' x1 Hc) s2) as (_ & _ & s2' & y & Hc2).
    exists s1', s2', (x1, y). by rewrite Hc; simpl; rewrite Hc2.
Qed.

Section phases_facts.
Context `{Rng G} `{!RngLaws G} `{OmpRuntime} `{!OmpLaws}.

Lemma threads_T_range a : valid_args a → 1 ≤ threads_T a ≤ INT_MAX.
Proof.
  intros Hv. pose proof (valid_threads a Hv). unfold threads_T, INT_MAX in *.
  destruct (Z.leb_spec (threads a) 0); lia.
Qed.

(** The blocks the workers of a backend are given. *)
Definition blocks_of (be : backend) (a : Args) : list (Z * Z) :=
  match be with
  | Threads => thread_blocks (N a) (threads_T a)
  | OpenMP => omp_static (as_ll (N a)) (omp_get_num_threads (omp_request a))
  end.

Lemma blocks_of_tiles be a : valid_args a → tiles (N a) (blocks_of be a).
Proof.
  intros Hv. pose proof (valid_N a Hv). destruct be; simpl.
  - apply thread_blocks_tiles; [done|by apply threads_T_range].
  - rewrite as_ll_small by done. apply omp_static_tiles; [done|].
    apply omp_team_size.
Qed.

(** hist_threads.cpp, whatever the variant and the two interleavings: the
    specified dataset, its histogram, and [a.N] as [sum_hist]; and, for a
    dataset the vector constructor accepts, no fault. *)
Lemma threads_phases_settle a r e :
  valid_args a → minv a ≤ maxv a →
  (N a ≤ data_max_size → threads_phases a (threads_T a) r e ≠ Fault) ∧
  (∀ data res, threads_phases a (threads_T a) r e = Done (data, res) →
     gen_spec a r (thread_blocks (N a) (threads_T a)) data ∧ in_range a data ∧
     res = (histogram a data, N a)) ∧
  (N a ≤ data_max_size →
   ∃ gs cs out, threads_phases a (threads_T a) r (more e gs cs) = Done out).
Proof.
  intros Hv Hmm. pose proof (valid_N a Hv) as HN.
  pose proof (threads_T_range a Hv) as HT.
  pose proof (thread_blocks_tiles (N a) (threads_T a) HN HT) as Htiles.
  destruct (Z.le_gt_cases (N a) data_max_size) as [Hmax|Hmax].
  2:{ unfold threads_phases. split; [lia|]. split; [|lia].
      intros data res. by rewrite gen_phase_too_large by lia. }
  destruct (two_phases
              (gen_phase a r (thread_blocks (N a) (threads_T a)))
              (threads_count a (threads_T a))
              (gen_spec a r (thread_blocks (N a) (threads_T a)))
              (λ data res, res = (histogram a data, N a))
              (gen_phase_settles a r _ HN Htiles Hmax))
    with (gen_sched e) (cnt_sched e)
    as (Hnf & Hd & gs & cs & out & Hc).
  { intros data Hspec. apply threads_count_settles; try done.
    by eapply gen_spec_in_range. }
  unfold threads_phases. split; [done|]. split.
  - intros data res Hph. destruct (Hd data res Hph) as [Hspec Hres].
    split; [done|]. split; [by eapply gen_spec_in_range|done].
  - intros _. exists gs, cs. unfold more. simpl. by eexists.
Qed.

(** Whatever the backend, the variant and the two interleavings: the
    specified dataset, its histogram, and [a.N] as [sum_hist]; and, for a
    dataset the vector constructor accepts, no fault. *)
Lemma phases_settle be a r e :
  valid_args a → minv a ≤ maxv a → supported (variant a) = true →
  (N a ≤ data_max_size → phases be a r e ≠ Fault) ∧
  (∀ data res, phases be a r e = Done (data, res) →
     gen_spec a r (blocks_of be a) data ∧ in_range a data ∧
     res = Some (histogram a data, N a)) ∧
  (N a ≤ data_max_size →
   ∃ gs cs out, phases be a r (more e gs cs) = Done out).
Proof.
  intros Hv Hmm Hsup. pose proof (valid_N a Hv) as HN.
  pose proof (blocks_of_tiles be a Hv) as Htiles.
  destruct be; simpl in *.
  - destruct (threads_phases_settle a r e Hv Hmm) as (Hnf & Hd & Hc).
    split; [|split].
    + intros Hmax. specialize (Hnf Hmax).
      by destruct (threads_phases a (threads_T a) r e).
    + intros data res.
      destruct (threads_phases a (threads_T a) r e) as [[d0 r0]| |] eqn:Hph;
        simpl; [|done..].
      intros [= <- <-]. destruct (Hd d0 r0 eq_refl) as (Hspec & Hin & ->).
      done.
    + intros Hmax. destruct (Hc Hmax) as (gs & cs & out & Hc').
      exists gs, cs. rewrite Hc'. by eexists.
  - pose proof (omp_team_size (omp_request a)) as HT.
    destruct (Z.le_gt_cases (N a) data_max_size) as [Hmax|Hmax].
    2:{ unfold omp_phases. split; [lia|]. split; [|lia].
        intros data res. by rewrite gen_phase_too_large by lia. }
    destruct (two_phases
                (gen_phase a r (omp_static (as_ll (N a))
                                  (omp_get_num_threads (omp_request a))))
                (omp_count a (omp_get_num_threads (omp_request a)))
                (gen_spec a r (omp_static (as_ll (N a))
                                 (omp_get_num_threads (omp_request a))))
                (λ data res, res = Some (histogram a data, N a))
                (gen_phase_settles a r _ HN Htiles Hmax))
      with (gen_sched e) (cnt_sched e)
      as (Hnf & Hd & gs & cs & out & Hc).
    { intros data Hspec. apply omp_count_settles; try done.
      by eapply gen_spec_in_range. }
    unfold omp_phases. split; [done|]. split.
    + intros data res Hph. destruct (Hd data res Hph) as [Hspec Hres].
      split; [done|]. split; [by eapply gen_spec_in_range|done].
    + intros _. exists gs, cs. unfold more. simpl. by eexists.
Qed.

(** The loop body is the two phases followed by the CSV line, or by the
    rejection of the variant. *)
Lemma rep_body_phases be a r e :
  rep_body be a r e
  = (p ←o phases be a r e;
     match p.2 with
     | Some hs =>
         rep_tail (match be with Threads => "threads" | OpenMP => "openmp" end)
           (variant a) a
           (match be with
            | Threads => threads_T a
            | OpenMP => omp_get_num_threads (omp_request a)
            end) r p.1 e hs.2
     | None => Done ([EvGenerated r p.1; EvUnsupported (variant a)], Some 2)
     end).
Proof.
  destruct be; simpl; [|done]. unfold threads_rep.
  by destruct (threads_phases a (threads_T a) r e).
Qed.
End phases_facts.

(** ** The concrete engine and runtime obey the laws *)

Lemma lcg_laws : @RngLaws Z lcg.
Proof.
  intros lo hi g Hle. simpl. unfold lcg_uniform. simpl.
  pose proof (Z.mod_pos_bound (lcg_next g / 2 ^ 33) (hi - lo + 1)). lia.
Qed.

Section gomp_facts.
Variables n T : Z.
Hypothesis Hn : 0 ≤ n.
Hypothesis HT : 1 ≤ T.

(** The first [k] blocks of libgomp enumerate the indices below
    [k * q + min k r]. *)
Lemma gomp_static_prefix (k : nat) :
  Z.of_nat k ≤ T →
  concat (block_idx <$> (gomp_block n T <$> seq 0 k))
  = seqZ 0 (Z.of_nat k * (n / T) + Z.min (Z.of_nat k) (n mod T)).
Proof.
  pose proof (Z.mod_pos_bound n T ltac:(lia)) as Hr.
  assert (0 ≤ n / T) as Hq by (apply Z.div_pos; lia).
  induction k as [|k IH]; intros Hk.
  - simpl. rewrite seqZ_nil; [done|lia].
  - rewrite seq_S, !fmap_app, concat_app, IH by lia. simpl.
    rewrite app_nil_r. unfold block_idx, gomp_block. simpl.
    set (q := n / T) in *. set (r := n mod T) in *.
    assert (∀ x y, 0 ≤ x → 0 ≤ y → seqZ 0 x ++ seqZ x y = seqZ 0 (x + y))
      as Happ by (intros; by rewrite seqZ_app).
    destruct (Z.ltb_spec (Z.of_nat k) r); simpl.
    + replace (Z.of_nat k * q + Z.min (Z.of_nat k) r)
        with (Z.of_nat k * (q + 1)) by lia.
      rewrite Happ by nia. f_equal. lia.
    + replace (Z.of_nat k * q + Z.min (Z.of_nat k) r)
        with (Z.of_nat k * q + r) by lia.
      rewrite Happ by nia. f_equal. lia.
Qed.

Lemma gomp_static_tiles : tiles n (gomp_static n T).
Proof.
  unfold tiles, gomp_static. rewrite gomp_static_prefix by lia.
  pose proof (Z.mod_pos_bound n T ltac:(lia)).
  pose proof (Z.div_mod n T ltac:(lia)).
  replace (Z.of_nat (Z.to_nat T) * (n / T) + Z.min (Z.of_nat (Z.to_nat T)) (n mod T))
    with n by lia.
  done.
Qed.
End gomp_facts.

Lemma gomp_laws ncpu : 1 ≤ ncpu ≤ INT_MAX → @OmpLaws (gomp ncpu).
Proof.
  intros Hcpu. split; simpl.
  - intros [req|]; simpl; [|done].
    destruct (Z.leb_spec 1 req), (Z.leb_spec req INT_MAX); simpl; lia.
  - intros n T. unfold gomp_static. by rewrite length_fmap, length_seq.
  - intros n T Hn HT. apply gomp_static_tiles; lia.
Qed.

(** ** The sequential baseline *)

Section seq_facts.
Context `{Rng G}.
Variable a : Args.
Hypothesis HN : 0 ≤ N a < 2 ^ 63.

Lemma engine_after_shift (g : G) k :
  engine_after a g (S k)
  = engine_after a (uniform_int (minv a) (maxv a) g).2 k.
Proof. induction k as [|k IH]; [done|]. simpl in *. by rewrite IH. Qed.

Lemma nth_draw_shift (g : G) k :
  nth_draw a g (S k) = nth_draw a (uniform_int (minv a) (maxv a) g).2 k.
Proof. unfold nth_draw. by rewrite engine_after_shift. Qed.

(** [n] iterations of the fill loop from index [i] store the next [n]
    draws and leave the rest alone. *)
Lemma seq_fill_draws (n : nat) : ∀ i (g : G) data,
  0 ≤ i → i + Z.of_nat n ≤ Z.of_nat (length data) → length data = Z.to_nat (N a) →
  ∃ data', seq_fill a n i g data = Some data' ∧
    length data' = length data ∧
    (∀ k : nat, (k < n)%nat →
       data' !! Z.to_nat (i + Z.of_nat k) = Some (nth_draw a g k)) ∧
    (∀ j : nat, Z.of_nat j < i → data' !! j = data !! j).
Proof.
  induction n as [|n IH]; intros i g data Hi Hlen HlenN; simpl.
  - exists data. split; [done|]. split; [done|]. split; [|done].
    intros k Hk. lia.
  - destruct (uniform_int (minv a) (maxv a) g) as [v g'] eqn:Hdraw.
    rewrite vec_set_Some by lia. simpl. rewrite wrap64_small by lia.
    destruct (IH (i + 1) g' (<[Z.to_nat i := v]> data))
      as (data' & Hfill & Hl' & Hnew & Hold);
      [lia|rewrite length_insert; lia|by rewrite length_insert|].
    exists data'. split; [done|]. rewrite length_insert in Hl'.
    split; [done|]. split.
    + intros [|k] Hk.
      * rewrite Z.add_0_r, (Hold (Z.to_nat i)) by lia.
        rewrite list_lookup_insert_eq by lia.
        unfold nth_draw. simpl. by rewrite Hdraw.
      * rewrite nth_draw_shift, Hdraw. simpl.
        rewrite <- (Hnew k) by lia. f_equal. lia.
    + intros j Hj. rewrite Hold by lia.
      apply list_lookup_insert_ne. lia.
Qed.

Lemma seq_count_hist data (n : nat) : ∀ i,
  length data = Z.to_nat (N a) →
  (∀ i, 0 ≤ i < N a → 0 ≤ bin_at a data i < bins a) →
  0 ≤ i → i + Z.of_nat n ≤ N a →
  seq_count a data n i (hist_of a data (seqZ 0 i))
  = Some (hist_of a data (seqZ 0 (i + Z.of_nat n))).
Proof.
  induction n as [|n IH]; intros i Hlen Hbin Hi Hn; simpl.
  - by rewrite Z.add_0_r.
  - rewrite (data_get a data Hlen) by lia. simpl.
    change (bin_of a (data !!! Z.to_nat i)) with (bin_at a data i).
    pose proof (Hbin i ltac:(lia)) as Hb.
    rewrite vec_get_hist_of by done. simpl.
    pose proof (tally_bounds a data (seqZ 0 i) (bin_at a data i)) as Ht.
    rewrite length_seqZ in Ht.
    rewrite (wrap64_small (tally _ _ _ _ + 1)) by lia.
    rewrite vec_set_hist_of by done. simpl. rewrite wrap64_small by lia.
    replace (seqZ 0 i ++ [i]) with (seqZ 0 (i + 1))
      by (rewrite seqZ_app by lia; done).
    rewrite IH by (done || lia).
    by replace (i + 1 + Z.of_nat n) with (i + Z.of_nat (S n)) by lia.
Qed.
End seq_facts.

(** * The claims *)

Ltac solve_valid :=
  split; simpl; unfold INT_MIN, INT_MAX; lia.

Lemma gomp4_laws : @OmpLaws (gomp 4).
Proof. apply gomp_laws. unfold INT_MAX. lia. Qed.

Lemma normalize_fields a :
  N (normalize a) = N a ∧ seed (normalize a) = seed a ∧
  rep (normalize a) = rep a ∧ variant (normalize a) = variant a ∧
  threads (normalize a) = threads a.
Proof. unfold normalize. by destruct (maxv a <? minv a). Qed.

Lemma normalize_valid a :
  valid_args a →
  valid_args (normalize a) ∧ minv (normalize a) ≤ maxv (normalize a).
Proof.
  intros []. unfold normalize.
  destruct (Z.ltb_spec (maxv a) (minv a)); (split; [split|]); simpl; lia.
Qed.

(** What holds of every event of every repetition holds of the whole
    run. *)
Lemma run_reps_events (P : event → Prop) body (count : nat) : ∀ r evs st,
  (∀ r out, body r = Done out → Forall P out.1) →
  run_reps body r count = Done (evs, st) → Forall P evs.
Proof.
  induction count as [|count IH]; intros r evs st Hbody; simpl.
  - by intros [= <- _].
  - destruct (body r) as [out| |] eqn:Hb; simpl; [|done..].
    pose proof (Hbody r out Hb) as Hout.
    destruct out.2; [by intros [= <- _]|].
    destruct (run_reps body (r + 1) count) as [[evs' st']| |] eqn:Hrest;
      simpl; [|done..].
    intros [= <- _]. apply Forall_app. split; [done|]. by eapply IH.
Qed.

(** The CSV lines of an event list all carry [sum_hist = n]. *)
Definition sums_to (n : Z) (ev : event) : Prop :=
  match ev with EvRecord rec => r_sum_hist rec = n | _ => True end.

(** C1 (conservation), as amended.  For every configuration whose
    element count the vector constructor accepts and whose range has a
    width that fits an [int], with a supported variant, after the
    normalization of its bounds, for both backends, every thread count,
    every repetition index and every interleaving of the workers: the two
    parallel phases never fault; when they return, the bins of the
    histogram sum exactly to [a.N] and [sum_hist] is [a.N]; every
    interleaving can be continued until the phases return; and every CSV
    line of a run carries [sum_hist = a.N]. *)
Theorem conservation {G : Type} {rng : Rng G} {rng_laws : RngLaws G}
    {omp : OmpRuntime} {omp_laws : OmpLaws}
    (be : backend) (a : Args) (r : Z) (e : rep_env) (env : Z → rep_env) :
  valid_args a → N a ≤ data_max_size → supported (variant a) = true →
  phases be (normalize a) r e ≠ Fault ∧
  (∀ data res, phases be (normalize a) r e = Done (data, res) →
     ∃ hist, res = Some (hist, N a) ∧ sumZ hist = N a) ∧
  (∃ gs cs out, phases be (normalize a) r (more e gs cs) = Done out) ∧
  (∀ evs st, run_main be a false env = Done (evs, st) →
     Forall (sums_to (N a)) evs).
Proof.
  intros Hv0 Hmax0 Hsup0.
  destruct (normalize_valid a Hv0) as [Hv Hmm].
  destruct (normalize_fields a) as (HN & _ & _ & Hvar & _).
  assert (N (normalize a) ≤ data_max_size) as Hmax by (by rewrite HN).
  assert (supported (variant (normalize a)) = true) as Hsup
    by (by rewrite Hvar).
  assert (∀ r e out, rep_body be (normalize a) r e = Done out →
                     Forall (sums_to (N a)) out.1) as Hbody.
  { intros r' e' out. rewrite rep_body_phases.
    destruct (phases_settle be (normalize a) r' e' Hv Hmm Hsup) as (_ & Hd & _).
    destruct (phases be (normalize a) r' e') as [[data res]| |] eqn:Hph;
      simpl; [|done..].
    destruct (Hd data res eq_refl) as (_ & _ & ->). simpl.
    unfold rep_tail. intros [= <-]. simpl.
    repeat constructor. simpl. done. }
  destruct (phases_settle be (normalize a) r e Hv Hmm Hsup) as (Hnf & Hd & Hc).
  split; [by apply Hnf|]. split; [|split; [by apply Hc|]].
  - intros data res Hph. destruct (Hd data res Hph) as (_ & Hin & ->).
    rewrite HN. eexists. split; [done|]. rewrite <- HN.
    apply sumZ_histogram; [by destruct Hv|apply Hin|by apply bin_at_ok].
  - intros evs st. destruct be; simpl.
    + unfold threads_main. rewrite Hsup. simpl.
      apply run_reps_events. intros r' out. apply (Hbody r' (env r') out).
    + unfold omp_main.
      apply run_reps_events. intros r' out. apply (Hbody r' (env r') out).
Qed.

Lemma conservation_witness :
  let a := mkArgs 4 9 0 42 1 "atomic" 3 in
  let e := mkEnv [0; 1; 2; 0]%nat [2; 1; 0; 0]%nat 0 0 in
  (valid_args a ∧ N a ≤ data_max_size) ∧
  @phases Z lcg (gomp 4) OpenMP (normalize a) 0 e ≠ Fault ∧
  (∀ data res, @phases Z lcg (gomp 4) OpenMP (normalize a) 0 e = Done (data, res) →
     ∃ hist, res = Some (hist, N a) ∧ sumZ hist = N a) ∧
  (∃ gs cs out,
     @phases Z lcg (gomp 4) OpenMP (normalize a) 0 (more e gs cs) = Done out) ∧
  (∀ evs st, @run_main Z lcg (gomp 4) OpenMP a false (λ _, e) = Done (evs, st) →
     Forall (sums_to (N a)) evs).
Proof.
  split; [split; [solve_valid|by vm_compute]|].
  apply (conservation (rng := lcg) (rng_laws := lcg_laws) (omp := gomp 4)
           (omp_laws := gomp4_laws) OpenMP
           (mkArgs 4 9 0 42 1 "atomic" 3) 0
           (mkEnv [0; 1; 2; 0]%nat [2; 1; 0; 0]%nat 0 0));
    [solve_valid|by vm_compute|reflexivity].
Defined.

(** With a range as wide as [int] itself [bins] wraps below zero, and the
    constructor of every vector of [bins] elements throws: the counting
    phase of no supported variant returns. *)
Lemma count_negative_bins {omp : OmpRuntime} be a data sched :
  bins a < 0 → supported (variant a) = true →
  count be a data sched = Fault.
Proof.
  intros Hb Hsup.
  assert (∀ A (x : A), vec_make (bins a) x = None) as Hmk.
  { intros A x. unfold vec_make. by destruct (Z.ltb_spec (bins a) 0); [|lia]. }
  destruct be; simpl; unfold threads_count, omp_count;
    destruct (supported_cases _ Hsup) as [->|[->| ->]]; simpl;
    by rewrite Hmk.
Qed.

Lemma phases_negative_bins {G : Type} {rng : Rng G} {omp : OmpRuntime}
    be a r e :
  bins a < 0 → supported (variant a) = true →
  ∀ out, phases be a r e ≠ Done out.
Proof.
  intros Hb Hsup out. destruct be; simpl.
  - unfold threads_phases.
    destruct (gen_phase _ _ _ _) as [data| |]; simpl; [|done..].
    pose proof (count_negative_bins Threads a data (cnt_sched e) Hb Hsup)
      as Hc. simpl in Hc.
    by destruct (threads_count _ _ _ _).
  - unfold omp_phases.
    destruct (gen_phase _ _ _ _) as [data| |]; simpl; [|done..].
    pose proof (count_negative_bins OpenMP a data (cnt_sched e) Hb Hsup)
      as Hc. simpl in Hc. by rewrite Hc.
Qed.

(** A dataset the vector constructor refuses: the two phases fault under
    every interleaving. *)
Lemma phases_too_large {G : Type} {rng : Rng G} {omp : OmpRuntime}
    be a r e :
  data_max_size < N a → phases be a r e = Fault.
Proof.
  intros Hmax. destruct be; simpl.
  - unfold threads_phases. by rewrite gen_phase_too_large.
  - unfold omp_phases. by rewrite gen_phase_too_large.
Qed.

(** C1 as stated fails.  With [--n 2 --min 0 --max 2147483647], bounds
    that need no normalization, [bins] is [INT_MIN]: the counting phase of
    neither program ever returns a histogram, and hist_threads.cpp with one
    thread faults once the two elements are generated.  With [--n] at 2^61,
    a count that leaves the [(long long)a.N] of the loops unchanged, the
    vector of the dataset is refused under every interleaving. *)
Lemma conservation_fails_outside :
  let a := mkArgs 2 0 2147483647 42 1 "atomic" 1 in
  let big := mkArgs (2 ^ 61) 0 9 42 1 "atomic" 1 in
  (normalize a = a ∧ bins a = INT_MIN ∧
   (∀ be e out, @phases Z lcg (gomp 4) be a 0 e ≠ Done out) ∧
   @phases Z lcg (gomp 4) Threads a 0 (mkEnv [0; 0]%nat [] 0 0) = Fault) ∧
  (valid_args big ∧
   ∀ be e, @phases Z lcg (gomp 4) be big 0 e = Fault).
Proof.
  split; [split; [reflexivity|split; [reflexivity|split]]|split].
  - intros be e out. by apply phases_negative_bins.
  - vm_compute. reflexivity.
  - solve_valid.
  - intros be e. apply phases_too_large. by vm_compute.
Qed.

(** C7 (partitioner), as amended.  Worker [t] of [T] gets the half-open
    range from [t * chunk] to [min n ((t + 1) * chunk)] with
    [chunk = ceil (n / T)]; the ranges, taken in worker order, enumerate
    0, ..., n-1 (so they are pairwise disjoint and cover all indices);
    index [i] belongs to worker [i / chunk] and to no other; and worker [t]
    receives [max 0 (min chunk (n - t * chunk))] indices: a full chunk as
    long as [(t + 1) * chunk <= n], fewer or none from then on. *)
Theorem partition_exact (n T : Z) :
  0 ≤ n < 2 ^ 63 → 1 ≤ T ≤ INT_MAX →
  chunk n T = (n + T - 1) / T ∧
  T * (chunk n T - 1) < n ≤ T * chunk n T ∧
  (∀ t, 0 ≤ t < T →
     start n T t = t * chunk n T ∧
     end_ n T t = Z.min n ((t + 1) * chunk n T)) ∧
  concat (block_idx <$> thread_blocks n T) = seqZ 0 n ∧
  (∀ t i, 0 ≤ t < T → 0 ≤ i < n →
     start n T t ≤ i < end_ n T t ↔ t = i / chunk n T) ∧
  (∀ t, 0 ≤ t < T →
     Z.of_nat (length (block_idx (start n T t, end_ n T t)))
     = Z.max 0 (Z.min (chunk n T) (n - t * chunk n T))).
Proof.
  intros Hn HT.
  pose proof (chunk_nonneg n T Hn HT) as Hc0.
  pose proof (chunk_ceil n T Hn HT) as Hceil.
  split; [by apply chunk_unwrapped|]. split; [done|]. split; [|split; [|split]].
  - intros t Ht. split; [apply start_unwrapped|apply end_unwrapped]; (done || lia).
  - by apply thread_blocks_concat.
  - intros t i Ht Hi.
    rewrite start_unwrapped, end_unwrapped by (done || lia).
    assert (0 < chunk n T) as Hc by nia.
    pose proof (Z.div_mod i (chunk n T) ltac:(lia)) as Hdm.
    pose proof (Z.mod_pos_bound i (chunk n T) Hc) as Hmb.
    split.
    + intros Hin. apply (Z.div_unique i (chunk n T) t (i - t * chunk n T)); lia.
    + intros ->. nia.
  - intros t Ht. unfold block_idx. simpl.
    rewrite length_seqZ, start_unwrapped, end_unwrapped by (done || lia). lia.
Qed.

Lemma partition_exact_witness :
  (0 ≤ 5 < 2 ^ 63 ∧ 1 ≤ 4 ≤ INT_MAX) ∧
  chunk 5 4 = (5 + 4 - 1) / 4 ∧
  4 * (chunk 5 4 - 1) < 5 ≤ 4 * chunk 5 4 ∧
  (∀ t, 0 ≤ t < 4 →
     start 5 4 t = t * chunk 5 4 ∧
     end_ 5 4 t = Z.min 5 ((t + 1) * chunk 5 4)) ∧
  concat (block_idx <$> thread_blocks 5 4) = seqZ 0 5 ∧
  (∀ t i, 0 ≤ t < 4 → 0 ≤ i < 5 →
     start 5 4 t ≤ i < end_ 5 4 t ↔ t = i / chunk 5 4) ∧
  (∀ t, 0 ≤ t < 4 →
     Z.of_nat (length (block_idx (start 5 4 t, end_ 5 4 t)))
     = Z.max 0 (Z.min (chunk 5 4) (5 - t * chunk 5 4))).
Proof.
  split; [unfold INT_MAX; lia|].
  apply (partition_exact 5 4); unfold INT_MAX; lia.
Defined.

(** C7 as stated fails: with [n = 5] and [T = 4] the chunk is 2 and worker
    2, which is not the last one, receives the single index 4. *)
Lemma partition_short_worker_not_last :
  ¬ (∀ t, 0 ≤ t < 4 - 1 → end_ 5 4 t - start 5 4 t = chunk 5 4).
Proof. intros Hall. specialize (Hall 2 ltac:(lia)). vm_compute in Hall. done. Qed.

(** C9 (range normalization).  With [min = 10] and [max = 0] each of the
    three programs does exactly what it does with [min = 0] and [max = 10],
    whatever the other arguments and the environment: the swapped
    configuration is the same record, with 11 bins. *)
Theorem range_normalization {G : Type} {rng : Rng G} {omp : OmpRuntime}
    (be : backend) (n s rp : Z) (v : string) (th : Z) (hdr : bool)
    (env : Z → rep_env) :
  normalize (mkArgs n 10 0 s rp v th) = normalize (mkArgs n 0 10 s rp v th) ∧
  bins (normalize (mkArgs n 10 0 s rp v th)) = 11 ∧
  run_main be (mkArgs n 10 0 s rp v th) hdr env
  = run_main be (mkArgs n 0 10 s rp v th) hdr env ∧
  seq_main (mkArgs n 10 0 s rp v th) hdr env
  = seq_main (mkArgs n 0 10 s rp v th) hdr env.
Proof.
  assert (normalize (mkArgs n 10 0 s rp v th)
          = normalize (mkArgs n 0 10 s rp v th)) as Hnorm by done.
  split; [done|]. split; [done|]. split.
  - destruct be; simpl; unfold threads_main, omp_main; by rewrite Hnorm.
  - unfold seq_main. by rewrite Hnorm.
Qed.

(** C4, as amended.  The end of the loop body computes nothing from
    [sum_hist] but the last field of the CSV line: whatever [sum_hist] is,
    the line is emitted with that value next to [a.N], no status is
    returned and the loop goes on. *)
Theorem checksum_emitted_unchecked (backend vname : string) (a : Args)
    (T r : Z) (data : list Z) (e : rep_env) (sum_hist : Z) :
  ∃ rec,
    rep_tail backend vname a T r data e sum_hist
    = Done ([EvGenerated r data; EvRecord rec], None) ∧
    r_sum_hist rec = sum_hist ∧ r_N rec = N a ∧
    r_total_ms rec = gen_ms e + hist_ms e.
Proof. by eexists. Qed.

(** C4 as stated fails: handed bins that sum to 3 for [a.N = 5], the end of
    the loop body emits an ordinary record and the run continues. *)
Lemma checksum_mismatch_emitted :
  rep_tail "threads" "private" (mkArgs 5 0 9 42 1 "private" 4) 4 0
    [1; 2; 3; 4; 5] (mkEnv [] [] 7 9) 3
  = Done ([EvGenerated 0 [1; 2; 3; 4; 5];
           EvRecord (mkRecord "threads" "private" 4 5 10 0 9 42 7 9 16 3)],
          None).
Proof. reflexivity. Qed.

(** ** Configuration errors *)

(** A loop whose body never returns a status ends with [return 0]. *)
Lemma run_reps_status body (count : nat) : ∀ r evs st,
  (∀ r out, body r = Done out → out.2 = None) →
  run_reps body r count = Done (evs, st) → st = 0.
Proof.
  induction count as [|count IH]; intros r evs st Hbody; simpl.
  - by intros [= _ <-].
  - destruct (body r) as [out| |] eqn:Hb; simpl; [|done..].
    rewrite (Hbody r out Hb).
    destruct (run_reps body (r + 1) count) as [[evs' st']| |] eqn:Hrest;
      simpl; [|done..].
    intros [= _ <-]. by eapply IH.
Qed.

Lemma threads_rep_status {G : Type} {rng : Rng G} a T r e out :
  threads_rep a T r e = Done out → out.2 = None.
Proof.
  unfold threads_rep, rep_tail.
  destruct (threads_phases a T r e); simpl; [|done..]. by intros [= <-].
Qed.

Lemma omp_rep_status {G : Type} {rng : Rng G} {omp : OmpRuntime} a r e out :
  supported (variant a) = true → omp_rep a r e = Done out → out.2 = None.
Proof.
  intros Hsup. unfold omp_rep, omp_phases, rep_tail.
  destruct (gen_phase _ _ _ _) as [data| |]; simpl; [|done..].
  assert (∀ res, omp_count a (omp_get_num_threads (omp_request a)) data
                   (cnt_sched e) = Done res → res ≠ None) as Hsome.
  { intros res. unfold omp_count.
    destruct (supported_cases _ Hsup) as [->|[->| ->]]; simpl;
      repeat (match goal with
              | |- context [of_option ?o] => destruct o; simpl; [|done]
              | |- context [join ?s ?f ?sc ?st] =>
                  destruct (join s f sc st); simpl; [|done..]
              end); by intros [= <-]. }
  destruct (omp_count _ _ _ _) as [[hs|]| |] eqn:Hc; simpl; try done.
  - by intros [= <-].
  - by destruct (Hsome None).
Qed.

(** C6, as amended.  A thread count of zero or less is no error.
    hist_threads.cpp replaces it by 4 and runs its repetitions with four
    workers; hist_openmp.cpp makes no request to the runtime and takes the
    team it is given; with a supported variant either program, when it
    returns, returns status 0. *)
Theorem nonpositive_threads_coerced {G : Type} {rng : Rng G}
    {omp : OmpRuntime} (a : Args) (env : Z → rep_env) :
  threads a ≤ 0 → supported (variant a) = true →
  threads_T (normalize a) = 4 ∧
  omp_request (normalize a) = None ∧
  threads_main a false env
  = run_reps (λ r, threads_rep (normalize a) 4 r (env r)) 0 (Z.to_nat (rep a)) ∧
  (∀ be evs st, run_main be a false env = Done (evs, st) → st = 0).
Proof.
  intros Hth Hsup.
  destruct (normalize_fields a) as (_ & _ & Hrep & Hvar & Hthr).
  assert (threads_T (normalize a) = 4) as HT.
  { unfold threads_T. rewrite Hthr. by destruct (Z.leb_spec (threads a) 0); [|lia]. }
  split; [done|]. split; [|split].
  - unfold omp_request. rewrite Hthr.
    by destruct (Z.gtb_spec (threads a) 0); [lia|].
  - unfold threads_main. by rewrite Hvar, Hsup, HT, Hrep.
  - intros [] evs st; simpl.
    + unfold threads_main. rewrite Hvar, Hsup. simpl.
      apply run_reps_status. intros r out. apply threads_rep_status.
    + unfold omp_main. apply run_reps_status. intros r out.
      apply omp_rep_status. by rewrite Hvar.
Qed.

Lemma nonpositive_threads_coerced_witness :
  let a := mkArgs 2 0 3 1 1 "mutex" 0 in
  let env := λ _ : Z, mkEnv [0; 1; 2; 3]%nat [0; 0; 0; 0; 1; 1; 1; 1]%nat 7 9 in
  (threads a ≤ 0 ∧ supported (variant a) = true) ∧
  threads_T (normalize a) = 4 ∧
  @omp_request a = None ∧
  @threads_main Z lcg a false env
  = run_reps (λ r, @threads_rep Z lcg (normalize a) 4 r (env r)) 0
      (Z.to_nat (rep a)) ∧
  (∀ be evs st, @run_main Z lcg (gomp 4) be a false env = Done (evs, st) →
                st = 0).
Proof.
  split; [split; [simpl; lia|reflexivity]|].
  apply (nonpositive_threads_coerced (rng := lcg) (omp := gomp 4)
           (mkArgs 2 0 3 1 1 "mutex" 0)
           (λ _ : Z, mkEnv [0; 1; 2; 3]%nat [0; 0; 0; 0; 1; 1; 1; 1]%nat 7 9));
    [simpl; lia|reflexivity].
Defined.

(** C6 as stated fails: with [--threads 0] hist_threads.cpp is not
    rejected; it generates the data, counts with four workers, emits the
    record with [threads = 4] and returns 0. *)
Lemma nonpositive_threads_accepted :
  @threads_main Z lcg (mkArgs 2 0 3 1 1 "mutex" 0) false
    (λ _, mkEnv [0; 1; 2; 3]%nat [0; 0; 0; 0; 1; 1; 1; 1]%nat 7 9)
  = Done ([EvGenerated 0 [2; 0];
           EvRecord (mkRecord "threads" "mutex" 4 2 4 0 3 1 7 9 16 2)],
          0).
Proof. vm_compute. reflexivity. Qed.

(** hist_threads.cpp checks the variant before the repetition loop: an
    unsupported name is rejected with status 2 and nothing else happens. *)
Lemma threads_unsupported_rejected_first {G : Type} {rng : Rng G}
    (a : Args) (env : Z → rep_env) :
  supported (variant a) = false →
  threads_main a false env = Done ([EvUnsupported (variant a)], 2).
Proof.
  intros Hsup. destruct (normalize_fields a) as (_ & _ & _ & Hvar & _).
  unfold threads_main. by rewrite Hvar, Hsup.
Qed.

(** hist_openmp.cpp reaches the check of the variant only inside the
    repetition loop, behind the generation phase: with at least one
    repetition an unsupported name is rejected once the first dataset has
    been generated, and with none it is not rejected. *)
Lemma omp_unsupported_rejected_late {G : Type} {rng : Rng G}
    {omp : OmpRuntime} (a : Args) (env : Z → rep_env) :
  supported (variant a) = false →
  omp_main a false env
  = if rep a <=? 0 then Done ([], 0)
    else
      data ←o gen_phase (normalize a) 0
                (omp_static (as_ll (N a))
                   (omp_get_num_threads (omp_request (normalize a))))
                (gen_sched (env 0));
      Done ([EvGenerated 0 data; EvUnsupported (variant a)], 2).
Proof.
  intros Hsup. destruct (normalize_fields a) as (HN & _ & Hrep & Hvar & _).
  unfold omp_main. rewrite Hrep.
  destruct (Z.leb_spec (rep a) 0) as [Hle|Hgt].
  - by replace (Z.to_nat (rep a)) with 0%nat by lia.
  - destruct (Z.to_nat (rep a)) as [|count] eqn:Hcount; [lia|]. simpl.
    unfold omp_rep, omp_phases. rewrite HN.
    destruct (gen_phase _ _ _ _) as [data| |]; simpl; [|done..].
    rewrite omp_count_unsupported by (by rewrite Hvar). simpl.
    by rewrite Hvar.
Qed.

(** C5 at its failing input.  With [--variant foo --n 2 --rep 1]
    hist_openmp.cpp generates the dataset before it rejects the run with
    status 2, and with [--rep 0] it does not reject the unsupported variant
    at all and returns 0; hist_threads.cpp rejects the same input before
    anything else happens. *)
Theorem omp_unsupported_variant_late :
  @omp_main Z lcg (gomp 4) (mkArgs 2 0 3 1 1 "foo" 1) false
    (λ _, mkEnv [0; 0]%nat [] 7 9)
  = Done ([EvGenerated 0 [2; 1]; EvUnsupported "foo"], 2) ∧
  @omp_main Z lcg (gomp 4) (mkArgs 2 0 3 1 0 "foo" 1) false
    (λ _, mkEnv [0; 0]%nat [] 7 9)
  = Done ([], 0) ∧
  @threads_main Z lcg (mkArgs 2 0 3 1 1 "foo" 1) false
    (λ _, mkEnv [0; 0]%nat [] 7 9)
  = Done ([EvUnsupported "foo"], 2).
Proof. repeat split; vm_compute; reflexivity. Qed.

(** ** Equivalences *)

Lemma valid_with_variant a v : valid_args a → valid_args (with_variant a v).
Proof. intros []. by split. Qed.

Lemma count_settles {omp : OmpRuntime} {omp_laws : OmpLaws} be a data :
  valid_args a → minv a ≤ maxv a → in_range a data →
  supported (variant a) = true →
  settles (count be a data) (λ res, res = Some (histogram a data, N a)).
Proof.
  intros Hv Hmm Hin Hsup. destruct be; simpl.
  - eapply settles_bind.
    + apply threads_count_settles; try done. by apply threads_T_range.
    + intros res ->. by eexists.
  - apply omp_count_settles; try done. apply omp_team_size.
Qed.

(** C3 (variant equivalence).  On one backend, for one configuration and
    one dataset of [a.N] elements in range, any two of the variants
    private, atomic and mutex behave alike whatever the interleavings:
    neither faults, either can be run on until it returns, and whenever
    they return they return the same histogram and the same [sum_hist],
    the histogram of the dataset and [a.N]. *)
Theorem variant_equivalence {omp : OmpRuntime} {omp_laws : OmpLaws}
    (be : backend) (a : Args) (data : list Z) (v1 v2 : string)
    (s1 s2 : list nat) :
  valid_args a → minv a ≤ maxv a → in_range a data →
  supported v1 = true → supported v2 = true →
  count be (with_variant a v1) data s1 ≠ Fault ∧
  count be (with_variant a v2) data s2 ≠ Fault ∧
  (∃ s1' s2',
     count be (with_variant a v1) data (s1 ++ s1')
     = Done (Some (histogram a data, N a)) ∧
     count be (with_variant a v2) data (s2 ++ s2')
     = Done (Some (histogram a data, N a))) ∧
  (∀ res1 res2,
     count be (with_variant a v1) data s1 = Done res1 →
     count be (with_variant a v2) data s2 = Done res2 →
     res1 = res2 ∧ res1 = Some (histogram a data, N a)).
Proof.
  intros Hv Hmm Hin Hs1 Hs2.
  pose proof (count_settles be (with_variant a v1) data
                (valid_with_variant a v1 Hv) Hmm Hin Hs1) as H1.
  pose proof (count_settles be (with_variant a v2) data
                (valid_with_variant a v2 Hv) Hmm Hin Hs2) as H2.
  destruct (H1 s1) as (Hnf1 & Hd1 & s1' & x1 & Hc1).
  destruct (H2 s2) as (Hnf2 & Hd2 & s2' & x2 & Hc2).
  split; [done|]. split; [done|]. split.
  - exists s1', s2'.
    destruct (H1 (s1 ++ s1')) as (_ & Hd1' & _).
    destruct (H2 (s2 ++ s2')) as (_ & Hd2' & _).
    rewrite Hc1, Hc2. by rewrite (Hd1' x1 Hc1), (Hd2' x2 Hc2).
  - intros res1 res2 Hr1 Hr2. by rewrite (Hd1 res1 Hr1), (Hd2 res2 Hr2).
Qed.

Lemma variant_equivalence_witness :
  let a := mkArgs 4 0 9 42 1 "private" 2 in
  let data := [4; 6; 7; 3] in
  let s1 := [0; 0; 1; 1]%nat in
  let s2 := [0; 0; 0; 0; 1; 1; 1; 1; 0; 0; 0; 0; 1; 1; 1; 1]%nat in
  let res := Some ([0; 0; 0; 1; 1; 0; 1; 1; 0; 0], 4) in
  (valid_args a ∧ in_range a data ∧
   @count (gomp 4) Threads (with_variant a "private") data s1 = Done res ∧
   @count (gomp 4) Threads (with_variant a "mutex") data s2 = Done res) ∧
  @count (gomp 4) Threads (with_variant a "private") data s1 ≠ Fault ∧
  @count (gomp 4) Threads (with_variant a "mutex") data s2 ≠ Fault ∧
  (∃ s1' s2',
     @count (gomp 4) Threads (with_variant a "private") data (s1 ++ s1')
     = Done (Some (histogram a data, N a)) ∧
     @count (gomp 4) Threads (with_variant a "mutex") data (s2 ++ s2')
     = Done (Some (histogram a data, N a))) ∧
  (∀ res1 res2,
     @count (gomp 4) Threads (with_variant a "private") data s1 = Done res1 →
     @count (gomp 4) Threads (with_variant a "mutex") data s2 = Done res2 →
     res1 = res2 ∧ res1 = Some (histogram a data, N a)).
Proof.
  split.
  { split; [solve_valid|].
    split; [split; [reflexivity|repeat constructor; simpl; lia]|].
    split; vm_compute; reflexivity. }
  apply (variant_equivalence (omp := gomp 4) (omp_laws := gomp4_laws) Threads
           (mkArgs 4 0 9 42 1 "private" 2) [4; 6; 7; 3] "private" "mutex"
           [0; 0; 1; 1]%nat [0; 0; 0; 0; 1; 1; 1; 1; 0; 0; 0; 0; 1; 1; 1; 1]%nat);
    [solve_valid|simpl; lia
    |split; [reflexivity|repeat constructor; simpl; lia]
    |reflexivity|reflexivity].
Defined.

(** The specified dataset depends on the blocks only through the indices
    they hold. *)
Lemma gen_spec_blocks_ext {G : Type} {rng : Rng G} a r bs1 bs2 data :
  block_idx <$> bs1 = block_idx <$> bs2 →
  gen_spec a r bs1 data → gen_spec a r bs2 data.
Proof.
  intros Heq [Hlen Hspec]. split; [done|]. intros t b2 j Hb2 Hj.
  assert ((block_idx <$> bs1) !! t = Some (block_idx b2)) as Hb1
    by (by rewrite Heq, list_lookup_fmap, Hb2).
  rewrite list_lookup_fmap in Hb1.
  destruct (bs1 !! t) as [b1|] eqn:Hb1'; simplify_eq/=.
  unfold block_idx in Hb1.
  assert (b1.1 = b2.1 ∧ b1.2 - b1.1 = b2.2 - b2.1) as [H1 H2].
  { pose proof (length_seqZ b1.1 (b1.2 - b1.1)) as Hl1.
    pose proof (length_seqZ b2.1 (b2.2 - b2.1)) as Hl2.
    rewrite Hb1 in Hl1.
    assert (seqZ b1.1 (b1.2 - b1.1) !! 0%nat = Some b2.1) as H0
      by (rewrite Hb1; apply lookup_seqZ; lia).
    apply lookup_seqZ in H0. lia. }
  rewrite <- H1. apply Hspec; [done|lia].
Qed.

(** Two backends whose returning runs all generate the dataset specified
    for one list of blocks: there is one dataset and one histogram that
    every returning run of either returns, and runs of both return. *)
Lemma phases_agree {G : Type} {rng : Rng G} {rng_laws : RngLaws G}
    {omp : OmpRuntime} {omp_laws : OmpLaws}
    (a : Args) (r : Z) (bs : list (Z * Z)) :
  valid_args a → minv a ≤ maxv a → supported (variant a) = true →
  N a ≤ data_max_size → tiles (N a) bs →
  (∀ be e data res, phases be a r e = Done (data, res) →
     gen_spec a r bs data) →
  ∃ d hist,
    ∀ (be : backend) (e : rep_env),
      phases be a r e ≠ Fault ∧
      (∀ out, phases be a r e = Done out → out = (d, Some (hist, N a))) ∧
      (∃ gs cs, phases be a r (more e gs cs) = Done (d, Some (hist, N a))).
Proof.
  intros Hv Hmm Hsup Hmax Htiles Hspec.
  pose proof (valid_N a Hv) as HN.
  destruct (phases_settle Threads a r (mkEnv [] [] 0 0) Hv Hmm Hsup)
    as (_ & _ & Hc0).
  destruct (Hc0 Hmax) as (gs0 & cs0 & [d res0] & Hph0).
  pose proof (Hspec _ _ _ _ Hph0) as Hd0.
  assert (∀ be e out, phases be a r e = Done out →
            out = (d, Some (histogram a d, N a))) as Hsame.
  { intros be e [data res] Hph.
    destruct (phases_settle be a r e Hv Hmm Hsup) as (_ & Hd & _).
    destruct (Hd data res Hph) as (_ & _ & ->).
    by rewrite (gen_spec_unique a r bs HN Htiles data d
                  (Hspec _ _ _ _ Hph) Hd0). }
  exists d, (histogram a d). intros be e.
  destruct (phases_settle be a r e Hv Hmm Hsup) as (Hnf & _ & Hc).
  split; [by apply Hnf|]. split; [by apply Hsame|].
  destruct (Hc Hmax) as (gs & cs & out & Hph). exists gs, cs.
  by rewrite Hph, (Hsame _ _ _ Hph).
Qed.

(** C2, as amended.  When the OpenMP team has the size hist_threads.cpp
    uses and the static schedule gives every thread the indices
    hist_threads.cpp gives the worker of the same number, there is one
    dataset and one histogram for the two backends: whatever the
    interleavings, neither program faults in its two phases, either can be
    run on until the phases return, and whenever they return they return
    that dataset, that histogram and [a.N] as [sum_hist]. *)
Theorem backend_equivalence_same_blocks {G : Type} {rng : Rng G}
    {rng_laws : RngLaws G} {omp : OmpRuntime} {omp_laws : OmpLaws}
    (a : Args) (r : Z) :
  valid_args a → minv a ≤ maxv a → supported (variant a) = true →
  N a ≤ data_max_size →
  omp_get_num_threads (omp_request a) = threads_T a →
  block_idx <$> omp_static (as_ll (N a)) (threads_T a)
  = block_idx <$> thread_blocks (N a) (threads_T a) →
  ∃ d hist,
    ∀ (be : backend) (e : rep_env),
      phases be a r e ≠ Fault ∧
      (∀ out, phases be a r e = Done out → out = (d, Some (hist, N a))) ∧
      (∃ gs cs, phases be a r (more e gs cs) = Done (d, Some (hist, N a))).
Proof.
  intros Hv Hmm Hsup Hmax Hteam Hblocks.
  pose proof (valid_N a Hv) as HN.
  apply (phases_agree a r (thread_blocks (N a) (threads_T a))); try done.
  { apply thread_blocks_tiles; [done|by apply threads_T_range]. }
  intros be e data res Hph.
  destruct (phases_settle be a r e Hv Hmm Hsup) as (_ & Hd & _).
  destruct (Hd data res Hph) as (Hs & _ & _).
  destruct be; simpl in Hs; [done|]. rewrite Hteam in Hs.
  by apply (gen_spec_blocks_ext a r _ _ data Hblocks) in Hs.
Qed.

Lemma backend_equivalence_same_blocks_witness :
  let a := mkArgs 4 0 9 42 1 "atomic" 2 in
  let d := [4; 6; 7; 3] in
  let res := Some ([0; 0; 0; 1; 1; 0; 1; 1; 0; 0], 4) in
  (valid_args a ∧ gomp_static 4 2 = thread_blocks 4 2 ∧
   @phases Z lcg (gomp 4) Threads a 0
     (mkEnv [0; 0; 1; 1]%nat [0; 0; 1; 1]%nat 0 0) = Done (d, res) ∧
   @phases Z lcg (gomp 4) OpenMP a 0
     (mkEnv [1; 1; 0; 0]%nat [1; 0; 1; 0]%nat 0 0) = Done (d, res)) ∧
  ∃ d hist,
    ∀ (be : backend) (e : rep_env),
      @phases Z lcg (gomp 4) be a 0 e ≠ Fault ∧
      (∀ out, @phases Z lcg (gomp 4) be a 0 e = Done out →
         out = (d, Some (hist, N a))) ∧
      (∃ gs cs,
         @phases Z lcg (gomp 4) be a 0 (more e gs cs)
         = Done (d, Some (hist, N a))).
Proof.
  split; [split; [solve_valid|repeat split; vm_compute; reflexivity]|].
  apply (backend_equivalence_same_blocks (rng := lcg) (rng_laws := lcg_laws)
           (omp := gomp 4) (omp_laws := gomp4_laws)
           (mkArgs 4 0 9 42 1 "atomic" 2) 0);
    [solve_valid|simpl; lia|reflexivity|by vm_compute|reflexivity
    |reflexivity].
Defined.

(** Whatever the engine: with four elements and three threads the element
    at index 3 is the second draw of worker 1 in hist_threads.cpp and the
    first draw of thread 2 under libgomp's schedule. *)
Lemma generation_differs_at_index_3 {G : Type} {rng : Rng G}
    (a : Args) (r : Z) (s1 s2 : list nat) (d1 d2 : list Z) :
  N a = 4 →
  gen_phase a r (thread_blocks 4 3) s1 = Done d1 →
  gen_phase a r (gomp_static 4 3) s2 = Done d2 →
  d1 !! 3%nat = Some (nth_draw a (worker_engine a r 1) 1) ∧
  d2 !! 3%nat = Some (nth_draw a (worker_engine a r 2) 0).
Proof.
  intros HN H1 H2.
  assert (0 ≤ N a < 2 ^ 63) as HN' by (rewrite HN; lia).
  apply gen_phase_Done in H1 as [_ Hs1];
    [|done|rewrite HN; apply thread_blocks_tiles; unfold INT_MAX; lia].
  apply gen_phase_Done in H2 as [_ Hs2];
    [|done|rewrite HN; apply gomp_static_tiles; lia].
  split.
  - apply (Hs1 1%nat (2, 4) 1%nat); [by vm_compute|simpl; lia].
  - apply (Hs2 2%nat (3, 4) 0%nat); [by vm_compute|simpl; lia].
Qed.

(** C2 as stated fails.  With [--n 4 --threads 3] hist_threads.cpp cuts
    the indices into 0-1, 2-3 and nothing, libgomp into 0-1, 2 and 3: the
    element at index 3 is the second draw of worker 1 in one program and
    the first draw of thread 2 in the other, and the histograms differ. *)
Lemma backend_equivalence_fails :
  let a := mkArgs 4 0 9 42 1 "atomic" 3 in
  let e := mkEnv [0; 0; 1; 1; 2; 2]%nat [0; 0; 1; 1; 2; 2]%nat 0 0 in
  @RngLaws Z lcg ∧ @OmpLaws (gomp 4) ∧
  thread_blocks 4 3 = [(0, 2); (2, 4); (4, 4)] ∧
  gomp_static 4 3 = [(0, 2); (2, 3); (3, 4)] ∧
  @phases Z lcg (gomp 4) Threads a 0 e
  = Done ([4; 6; 7; 3], Some ([0; 0; 0; 1; 1; 0; 1; 1; 0; 0], 4)) ∧
  @phases Z lcg (gomp 4) OpenMP a 0 e
  = Done ([4; 6; 7; 1], Some ([0; 1; 0; 0; 1; 0; 1; 1; 0; 0], 4)) ∧
  [0; 0; 0; 1; 1; 0; 1; 1; 0; 0] ≠ [0; 1; 0; 0; 1; 0; 1; 1; 0; 0].
Proof.
  split; [apply lcg_laws|]. split; [apply gomp4_laws|].
  repeat split; try (vm_compute; reflexivity). discriminate.
Qed.

(** ** More threads than elements, and one thread *)




Lemma thread_blocks_single n :
  0 ≤ n < 2 ^ 63 → thread_blocks n 1 = [(0, n)].
Proof.
  intros Hn. unfold thread_blocks, thread_block. simpl.
  assert (1 ≤ 1 ≤ INT_MAX) as H1 by (unfold INT_MAX; lia).
  rewrite start_unwrapped, end_unwrapped by (done || lia).
  rewrite chunk_unwrapped by done.
  rewrite Z.add_simpl_r, Z.div_1_r. do 2 f_equal. lia.
Qed.

Lemma worker_seed_0 a r : 0 ≤ seed a < 2 ^ 32 → worker_seed a 0 r = seq_seed a r.
Proof.
  intros Hs. unfold worker_seed, seq_seed.
  change (wrap32u (wrap32u 0 * 1337)) with 0.
  by rewrite Z.add_0_r, (wrap32u_small (seed a)).
Qed.

(** With [--threads 1], what the two phases of hist_threads.cpp return is
    what the loops of hist_seq.cpp compute. *)
Lemma single_thread_phases_baseline {G : Type} {rng : Rng G}
    {rng_laws : RngLaws G} (a : Args) (r : Z) (e : rep_env)
    (data : list Z) (res : list Z * Z) :
  valid_args a → minv a ≤ maxv a → threads a = 1 →
  threads_phases a (threads_T a) r e = Done (data, res) →
  seq_gen a r = Some data ∧
  seq_hist a data = Some res.1 ∧
  res.2 = accumulate res.1.
Proof.
  intros Hv Hmm Hth Hph. pose proof (valid_N a Hv) as HN.
  pose proof (worker_seed_0 a r (valid_seed a Hv)) as Hseed.
  assert (N a ≤ data_max_size) as Hmax.
  { unfold threads_phases in Hph.
    destruct (gen_phase _ _ _ _) as [d0| |] eqn:Hg; simpl in Hph; [|done..].
    by eapply gen_phase_Done_size. }
  destruct (threads_phases_settle a r e Hv Hmm) as (_ & Hd & _).
  destruct (Hd data res Hph) as (Hspec & Hin & ->).
  assert (threads_T a = 1) as HT by (unfold threads_T; by rewrite Hth).
  rewrite HT, thread_blocks_single in Hspec by done.
  pose proof (bin_at_ok a data Hv Hmm Hin) as Hbin.
  destruct (bins_width a Hv Hmm) as [_ Hbins].
  split; [|split].
  - unfold seq_gen. rewrite data_alloc_Some by done. simpl.
    destruct (seq_fill_draws a HN (Z.to_nat (N a)) 0
                (mt19937_64 (seq_seed a r)) (replicate (Z.to_nat (N a)) 0))
      as (data' & Hfill & Hlen' & Hnew & _);
      [done|rewrite length_replicate; lia|by rewrite length_replicate|].
    rewrite Hfill. f_equal.
    apply (gen_spec_unique a r [(0, N a)] HN); [| |done].
    + unfold tiles. simpl. unfold block_idx. simpl.
      by rewrite app_nil_r, Z.sub_0_r.
    + split; [by rewrite Hlen', length_replicate|].
      intros [|t] b j Hb Hj; simplify_eq/=.
      unfold worker_engine. change (Z.of_nat 0) with 0. rewrite Hseed.
      apply Hnew. lia.
  - unfold seq_hist. rewrite vec_make_Some by lia. simpl.
    rewrite <- (hist_of_nil a data).
    pose proof (seq_count_hist a HN data (Z.to_nat (N a)) 0) as Hcount.
    rewrite (seqZ_nil 0 0) in Hcount by done.
    rewrite Hcount; [|apply Hin|done|done|lia].
    unfold histogram. do 3 f_equal. lia.
  - simpl. symmetry. apply accumulate_histogram; [done|apply Hin|done].
Qed.

(** C10 (one thread against the baseline).  With [--threads 1] worker 0 of
    hist_threads.cpp seeds its engine as hist_seq.cpp does.  For an element
    count the vector constructor accepts, hist_seq.cpp generates its
    dataset and counts its histogram, and hist_threads.cpp, whatever the
    interleaving, does not fault in its two phases, can be run on until
    they return, and whenever they return has that dataset, that histogram
    and the [sum_hist] of hist_seq.cpp.  Above that count each of the two
    programs is refused its dataset. *)
Theorem single_thread_matches_baseline {G : Type} {rng : Rng G}
    {rng_laws : RngLaws G} (a : Args) (r : Z) (e : rep_env) :
  valid_args a → minv a ≤ maxv a → threads a = 1 →
  worker_seed a 0 r = seq_seed a r ∧
  (N a ≤ data_max_size →
   ∃ data hist,
     seq_gen a r = Some data ∧
     seq_hist a data = Some hist ∧
     threads_phases a (threads_T a) r e ≠ Fault ∧
     (∀ out, threads_phases a (threads_T a) r e = Done out →
        out = (data, (hist, accumulate hist))) ∧
     (∃ gs cs,
        threads_phases a (threads_T a) r (more e gs cs)
        = Done (data, (hist, accumulate hist)))) ∧
  (data_max_size < N a →
   seq_gen a r = None ∧ threads_phases a (threads_T a) r e = Fault).
Proof.
  intros Hv Hmm Hth.
  split; [by apply worker_seed_0, valid_seed|]. split.
  2:{ intros Hbig. split.
      - unfold seq_gen. by rewrite data_alloc_None.
      - unfold threads_phases. by rewrite gen_phase_too_large. }
  intros Hmax.
  destruct (threads_phases_settle a r e Hv Hmm) as (Hnf & _ & Hc).
  destruct (Hc Hmax) as (gs & cs & [data [hist sum]] & Hph).
  destruct (single_thread_phases_baseline a r _ data (hist, sum) Hv Hmm Hth
              Hph) as (Hgen & Hhist & Hsum).
  simpl in Hhist, Hsum. subst sum.
  exists data, hist. split; [done|]. split; [done|].
  split; [by apply Hnf|]. split; [|by exists gs, cs].
  intros [data' [hist' sum']] Hph'.
  destruct (single_thread_phases_baseline a r _ data' (hist', sum') Hv Hmm
              Hth Hph') as (Hgen' & Hhist' & Hsum').
  simpl in Hhist', Hsum'. rewrite Hgen in Hgen'. injection Hgen' as <-.
  rewrite Hhist in Hhist'. injection Hhist' as <-. by subst sum'.
Qed.

Lemma single_thread_matches_baseline_witness :
  let a := mkArgs 4 0 9 42 1 "atomic" 1 in
  let big := mkArgs (2 ^ 61) 0 9 42 1 "atomic" 1 in
  let e := mkEnv [0; 0; 0; 0]%nat [0; 0; 0; 0]%nat 0 0 in
  (valid_args a ∧ valid_args big ∧
   @threads_phases Z lcg a (threads_T a) 0 e
   = Done ([4; 6; 8; 3], ([0; 0; 0; 1; 1; 0; 1; 0; 1; 0], 4)) ∧
   @seq_gen Z lcg a 0 = Some [4; 6; 8; 3] ∧
   seq_hist a [4; 6; 8; 3] = Some [0; 0; 0; 1; 1; 0; 1; 0; 1; 0]) ∧
  worker_seed a 0 0 = seq_seed a 0 ∧
  (∃ data hist,
     @seq_gen Z lcg a 0 = Some data ∧
     seq_hist a data = Some hist ∧
     @threads_phases Z lcg a (threads_T a) 0 e ≠ Fault ∧
     (∀ out, @threads_phases Z lcg a (threads_T a) 0 e = Done out →
        out = (data, (hist, accumulate hist))) ∧
     (∃ gs cs,
        @threads_phases Z lcg a (threads_T a) 0 (more e gs cs)
        = Done (data, (hist, accumulate hist)))) ∧
  @seq_gen Z lcg big 0 = None ∧
  @threads_phases Z lcg big (threads_T big) 0 e = Fault.
Proof.
  split.
  { split; [solve_valid|]. split; [solve_valid|].
    repeat split; vm_compute; reflexivity. }
  destruct (single_thread_matches_baseline (rng := lcg) (rng_laws := lcg_laws)
              (mkArgs 4 0 9 42 1 "atomic" 1) 0
              (mkEnv [0; 0; 0; 0]%nat [0; 0; 0; 0]%nat 0 0))
    as (Hseed & Hsmall & _); [solve_valid|simpl; lia|reflexivity|].
  split; [exact Hseed|]. split; [apply Hsmall; by vm_compute|].
  apply (single_thread_matches_baseline (rng := lcg) (rng_laws := lcg_laws)
           (mkArgs (2 ^ 61) 0 9 42 1 "atomic" 1) 0
           (mkEnv [0; 0; 0; 0]%nat [0; 0; 0; 0]%nat 0 0));
    [solve_valid|simpl; lia|reflexivity|by vm_compute].
Defined.
(** * Further properties of the code *)

(** ** The command line *)

Ltac solve_not_elem :=
  rewrite ?not_elem_of_cons; repeat split; try discriminate;
  apply not_elem_of_nil.

Lemma has_flag_elem_of argv name : has_flag argv name = true ↔ name ∈ argv.
Proof.
  induction argv as [|x argv IH]; simpl.
  - split; [done|]. by intros ?%elem_of_nil.
  - rewrite elem_of_cons. destruct (String.eqb_spec name x) as [->|Hne].
    + split; auto.
    + rewrite IH. split; [auto|]. by intros [?|?].
Qed.

Lemma arg_after_absent argv name :
  name ∉ removelast argv → arg_after argv name = None.
Proof.
  induction argv as [|x argv IH]; [done|].
  destruct argv as [|y rest]; [done|].
  change (removelast (x :: y :: rest)) with (x :: removelast (y :: rest)).
  rewrite not_elem_of_cons. intros [Hne Hn].
  cbn [arg_after]. destruct (String.eqb_spec name x); [done|]. by apply IH.
Qed.

Lemma arg_after_first pre name v rest :
  name ∉ pre → arg_after (pre ++ name :: v :: rest) name = Some v.
Proof.
  induction pre as [|x pre IH]; intros Hn.
  - simpl. by rewrite String.eqb_refl.
  - apply not_elem_of_cons in Hn as [Hne Hn].
    destruct pre as [|y pre'].
    + simpl. destruct (String.eqb_spec name x); [done|].
      by rewrite String.eqb_refl.
    + change ((x :: y :: pre') ++ name :: v :: rest)
        with (x :: (y :: (pre' ++ name :: v :: rest))).
      cbn [arg_after]. destruct (String.eqb_spec name x); [done|].
      by apply IH.
Qed.

(** X1.  A flag that occurs nowhere among the arguments but possibly in
    the very last position is not given: the three getters return their
    default, and the numeric ones convert nothing. *)
Theorem flag_absent_gives_default {conv : Conv} (argv : list string)
    (name ds : string) (dl di : Z) :
  name ∉ removelast argv →
  get_str argv name ds = ds ∧
  get_ll argv name dl = Some dl ∧
  get_int argv name di = Some di.
Proof.
  intros Hn. unfold get_str, get_ll, get_int.
  by rewrite (arg_after_absent _ _ Hn).
Qed.

Lemma flag_absent_gives_default_witness :
  let argv := ["hist_seq"; "--rep"; "3"; "--n"] in
  get_str argv "--n" "d" = "d" ∧
  @get_ll std_conv argv "--n" 1000000 = Some 1000000 ∧
  @get_int std_conv argv "--n" 7 = Some 7.
Proof.
  apply (@flag_absent_gives_default std_conv ["hist_seq"; "--rep"; "3"; "--n"]).
  simpl. solve_not_elem.
Defined.

(** X2.  The first occurrence of a flag decides, and the argument behind
    it is taken as it stands, whatever it is: later occurrences are not
    looked at. *)
Theorem first_occurrence_wins {conv : Conv} (pre : list string)
    (name v : string) (rest : list string) (ds : string) (dl di : Z) :
  name ∉ pre →
  get_str (pre ++ name :: v :: rest) name ds = v ∧
  get_ll (pre ++ name :: v :: rest) name dl = stoll v ∧
  get_int (pre ++ name :: v :: rest) name di = stoi v.
Proof.
  intros Hn. unfold get_str, get_ll, get_int.
  by rewrite (arg_after_first _ _ _ _ Hn).
Qed.

Lemma first_occurrence_wins_witness :
  let argv := ["hist_seq"; "--n"; "7"; "--n"; "9"] in
  get_str argv "--n" "d" = "7" ∧
  @get_ll std_conv argv "--n" 0 = Some 7 ∧
  @get_int std_conv argv "--n" 0 = Some 7.
Proof.
  apply (@first_occurrence_wins std_conv ["hist_seq"] "--n" "7" ["--n"; "9"]).
  solve_not_elem.
Defined.

(** What [main] has converted when the conversions all return. *)
Lemma parse_args_Some {conv : Conv} d argv a :
  parse_args d argv = Some a →
  ∃ n mn mx sd rp th,
    get_ll argv "--n" (as_ll (N d)) = Some n ∧
    get_int argv "--min" (minv d) = Some mn ∧
    get_int argv "--max" (maxv d) = Some mx ∧
    get_int argv "--seed" (wrap32s (seed d)) = Some sd ∧
    get_int argv "--rep" (rep d) = Some rp ∧
    get_int argv "--threads" (threads d) = Some th ∧
    a = mkArgs (wrap64 n) mn mx (wrap32u sd) rp
          (get_str argv "--variant" (variant d)) th.
Proof.
  unfold parse_args.
  destruct (get_ll argv "--n" _) as [n|]; [|done].
  destruct (get_int argv "--min" _) as [mn|]; [|done].
  destruct (get_int argv "--max" _) as [mx|]; [|done].
  destruct (get_int argv "--seed" _) as [sd|]; [|done].
  destruct (get_int argv "--rep" _) as [rp|]; [|done].
  destruct (get_int argv "--threads" _) as [th|]; [|done].
  simpl. intros [= <-]. by exists n, mn, mx, sd, rp, th.
Qed.

Lemma seq_parse_args_Some {conv : Conv} d argv a :
  seq_parse_args d argv = Some a →
  ∃ n mn mx sd rp,
    get_ll argv "--n" (as_ll (N d)) = Some n ∧
    get_int argv "--min" (minv d) = Some mn ∧
    get_int argv "--max" (maxv d) = Some mx ∧
    get_int argv "--seed" (wrap32s (seed d)) = Some sd ∧
    get_int argv "--rep" (rep d) = Some rp ∧
    a = mkArgs (wrap64 n) mn mx (wrap32u sd) rp (variant d) (threads d).
Proof.
  unfold seq_parse_args.
  destruct (get_ll argv "--n" _) as [n|]; [|done].
  destruct (get_int argv "--min" _) as [mn|]; [|done].
  destruct (get_int argv "--max" _) as [mx|]; [|done].
  destruct (get_int argv "--seed" _) as [sd|]; [|done].
  destruct (get_int argv "--rep" _) as [rp|]; [|done].
  simpl. intros [= <-]. by exists n, mn, mx, sd, rp.
Qed.

(** One conversion that throws is enough: no configuration results. *)
Lemma parse_args_None {conv : Conv} d argv :
  get_ll argv "--n" (as_ll (N d)) = None ∨
  get_int argv "--min" (minv d) = None ∨
  get_int argv "--max" (maxv d) = None ∨
  get_int argv "--seed" (wrap32s (seed d)) = None ∨
  get_int argv "--rep" (rep d) = None ∨
  get_int argv "--threads" (threads d) = None →
  parse_args d argv = None.
Proof.
  intros Hnone. destruct (parse_args d argv) as [a|] eqn:Hp; [|done].
  apply parse_args_Some in Hp
    as (n & mn & mx & sd & rp & th & H1 & H2 & H3 & H4 & H5 & H6 & _).
  destruct Hnone as [?|[?|[?|[?|[?|?]]]]]; congruence.
Qed.

Lemma seq_parse_args_None {conv : Conv} d argv :
  get_ll argv "--n" (as_ll (N d)) = None ∨
  get_int argv "--min" (minv d) = None ∨
  get_int argv "--max" (maxv d) = None ∨
  get_int argv "--seed" (wrap32s (seed d)) = None ∨
  get_int argv "--rep" (rep d) = None →
  seq_parse_args d argv = None.
Proof.
  intros Hnone. destruct (seq_parse_args d argv) as [a|] eqn:Hp; [|done].
  apply seq_parse_args_Some in Hp
    as (n & mn & mx & sd & rp & H1 & H2 & H3 & H4 & H5 & _).
  destruct Hnone as [?|[?|[?|[?|?]]]]; congruence.
Qed.

Lemma std_conv_laws : @ConvLaws std_conv.
Proof.
  split; intros s z; simpl; unfold std_stoll, std_stoi;
    destruct (read_integer s) as [v|]; simpl; try done;
    case_match; try done; intros [= <-];
    unfold LLONG_MAX, INT_MIN, INT_MAX in *; lia.
Qed.

(** X3.  With [--csv-header] anywhere among the arguments, also in the
    place of the value of another flag and also next to a number that
    cannot be converted, each of the three programs prints the header,
    converts nothing, runs nothing and returns 0. *)
Theorem csv_header_short_circuits {G : Type} {rng : Rng G}
    {omp : OmpRuntime} {conv : Conv} (hw : Z) (argv : list string)
    (env : Z → rep_env) :
  "--csv-header" ∈ argv →
  threads_cli hw argv env = Done ([EvHeader], 0) ∧
  omp_cli argv env = Done ([EvHeader], 0) ∧
  seq_cli argv env = Done ([EvHeader], 0).
Proof.
  intros Hin%has_flag_elem_of. unfold threads_cli, omp_cli, seq_cli.
  by rewrite Hin.
Qed.

Lemma csv_header_short_circuits_witness :
  let argv := ["hist_openmp"; "--n"; "many"; "--variant"; "--csv-header"] in
  let env := λ _ : Z, mkEnv [] [] 0 0 in
  @parse_args std_conv omp_defaults argv = None ∧
  @threads_cli Z lcg std_conv 8 argv env = Done ([EvHeader], 0) ∧
  @omp_cli Z lcg (gomp 4) std_conv argv env = Done ([EvHeader], 0) ∧
  @seq_cli Z lcg std_conv argv env = Done ([EvHeader], 0).
Proof.
  split; [reflexivity|].
  apply (@csv_header_short_circuits Z lcg (gomp 4) std_conv).
  rewrite !elem_of_cons. auto 10.
Defined.

(** X4.  Without [--csv-header], a numeric flag whose first occurrence is
    followed by text the conversion rejects ([--n] through [stoll], the
    others through [stoi]) ends the program with an uncaught exception
    before anything is generated; hist_seq.cpp, which never reads
    [--threads], is only affected by the other five flags. *)
Theorem unparsable_number_aborts {G : Type} {rng : Rng G}
    {omp : OmpRuntime} {conv : Conv} (hw : Z) (pre : list string)
    (flag v : string) (rest : list string) (env : Z → rep_env) :
  "--csv-header" ∉ pre ++ flag :: v :: rest →
  flag ∉ pre →
  (flag = "--n" ∧ stoll v = None) ∨
  (flag ∈ ["--min"; "--max"; "--seed"; "--rep"; "--threads"] ∧
   stoi v = None) →
  threads_cli hw (pre ++ flag :: v :: rest) env = Fault ∧
  omp_cli (pre ++ flag :: v :: rest) env = Fault ∧
  (flag ≠ "--threads" → seq_cli (pre ++ flag :: v :: rest) env = Fault).
Proof.
  intros Hhdr Hpre Hbad.
  assert (has_flag (pre ++ flag :: v :: rest) "--csv-header" = false) as Hh.
  { destruct (has_flag _ _) eqn:E; [|done]. by apply has_flag_elem_of in E. }
  pose proof (first_occurrence_wins pre flag v rest "" 0 0 Hpre)
    as (_ & Hll & _).
  assert (∀ d, get_int (pre ++ flag :: v :: rest) flag d = stoi v) as Hint.
  { intros d. by destruct (first_occurrence_wins pre flag v rest "" 0 d Hpre)
      as (_ & _ & ?). }
  assert (∀ d, get_ll (pre ++ flag :: v :: rest) flag d = stoll v) as Hll'.
  { intros d. by destruct (first_occurrence_wins pre flag v rest "" d 0 Hpre)
      as (_ & ? & _). }
  unfold threads_cli, omp_cli, seq_cli. rewrite Hh.
  destruct Hbad as [[-> Hv]|[Hin Hv]].
  - rewrite !parse_args_None, seq_parse_args_None;
      [done|left; by rewrite Hll'..].
  - rewrite !elem_of_cons in Hin.
    destruct Hin as [->|[->|[->|[->|[->|Hin]]]]];
      [..|by apply elem_of_nil in Hin];
      (rewrite !parse_args_None; [|rewrite ?Hint; tauto..]);
      (split; [done|split; [done|]]); intros ?; try done;
      rewrite seq_parse_args_None; try done; rewrite ?Hint; tauto.
Qed.

Lemma unparsable_number_aborts_witness :
  let argv := ["hist_openmp"; "--seed"; "3000000000"; "--n"; "10"] in
  let env := λ _ : Z, mkEnv [] [] 0 0 in
  @stoi std_conv "3000000000" = None ∧
  @threads_cli Z lcg std_conv 8 argv env = Fault ∧
  @omp_cli Z lcg (gomp 4) std_conv argv env = Fault ∧
  ("--seed" ≠ "--threads" → @seq_cli Z lcg std_conv argv env = Fault).
Proof.
  split; [reflexivity|].
  apply (@unparsable_number_aborts Z lcg (gomp 4) std_conv 8 ["hist_openmp"]
           "--seed" "3000000000" ["--n"; "10"]).
  - simpl. solve_not_elem.
  - solve_not_elem.
  - right. split; [|reflexivity]. rewrite !elem_of_cons. auto 10.
Defined.

Lemma get_int_range {conv : Conv} {laws : ConvLaws} argv name d z :
  INT_MIN ≤ d ≤ INT_MAX → get_int argv name d = Some z →
  INT_MIN ≤ z ≤ INT_MAX.
Proof.
  unfold get_int. destruct (arg_after argv name) as [v|].
  - intros _. apply stoi_range.
  - by intros ? [= <-].
Qed.

Lemma wrap32s_range z : INT_MIN ≤ wrap32s z ≤ INT_MAX.
Proof.
  unfold wrap32s, INT_MIN, INT_MAX.
  pose proof (Z.mod_pos_bound (z + 2 ^ 31) (2 ^ 32)). lia.
Qed.

(** The fields of a configuration, each within its C++ type. *)
Definition fields_in_range (a : Args) : Prop :=
  0 ≤ N a < 2 ^ 64 ∧
  INT_MIN ≤ minv a ≤ INT_MAX ∧ INT_MIN ≤ maxv a ≤ INT_MAX ∧
  0 ≤ seed a < 2 ^ 32 ∧
  INT_MIN ≤ rep a ≤ INT_MAX ∧ INT_MIN ≤ threads a ≤ INT_MAX.

Lemma parse_args_ranges {conv : Conv} {laws : ConvLaws} d argv a :
  INT_MIN ≤ minv d ≤ INT_MAX → INT_MIN ≤ maxv d ≤ INT_MAX →
  INT_MIN ≤ rep d ≤ INT_MAX → INT_MIN ≤ threads d ≤ INT_MAX →
  parse_args d argv = Some a ∨ seq_parse_args d argv = Some a →
  fields_in_range a.
Proof.
  intros Hmn Hmx Hrp Hth [Hp|Hp].
  - apply parse_args_Some in Hp
      as (n & mn & mx & sd & rp & th & H1 & H2 & H3 & H4 & H5 & H6 & ->).
    apply get_int_range in H2, H3, H5, H6; try done.
    unfold fields_in_range, wrap64, wrap32u; simpl.
    pose proof (Z.mod_pos_bound n (2 ^ 64)).
    pose proof (Z.mod_pos_bound sd (2 ^ 32)). lia.
  - apply seq_parse_args_Some in Hp
      as (n & mn & mx & sd & rp & H1 & H2 & H3 & H4 & H5 & ->).
    apply get_int_range in H2, H3, H5; try done.
    unfold fields_in_range, wrap64, wrap32u; simpl.
    pose proof (Z.mod_pos_bound n (2 ^ 64)).
    pose proof (Z.mod_pos_bound sd (2 ^ 32)). lia.
Qed.

(** X5.  Whatever the arguments and whatever [hardware_concurrency()]
    reports, a configuration that [main] obtains has every field within
    its C++ type; it is a valid configuration as soon as [N] is below 2^63
    and the width of the range fits an [int]; and the number of threads
    hist_threads.cpp derives from it lies between 1 and [INT_MAX], so that
    the division by [T] is defined. *)
Theorem parsed_fields_in_range {conv : Conv} {laws : ConvLaws} (hw : Z)
    (argv : list string) (a : Args) :
  parse_args (threads_defaults hw) argv = Some a ∨
  parse_args omp_defaults argv = Some a ∨
  seq_parse_args seq_defaults argv = Some a →
  fields_in_range a ∧
  (N a < 2 ^ 63 → Z.abs (maxv a - minv a) < INT_MAX → valid_args a) ∧
  1 ≤ threads_T (normalize a) ≤ INT_MAX.
Proof.
  intros Hp.
  assert (fields_in_range a) as Hr.
  { destruct Hp as [Hp|[Hp|Hp]];
      (eapply parse_args_ranges; [..|eauto]);
      try (simpl; unfold INT_MIN, INT_MAX; lia).
    simpl. apply wrap32s_range. }
  split; [done|]. destruct Hr as (HN & Hmn & Hmx & Hsd & Hrp & Hth).
  split.
  - intros HN' Hw. split; try done. lia.
  - destruct (normalize_fields a) as (_ & _ & _ & _ & Ht).
    unfold threads_T. rewrite Ht. unfold INT_MIN, INT_MAX in *.
    case_match; lia.
Qed.

Lemma parsed_fields_in_range_witness :
  let argv := ["hist_threads"; "--n"; "-1"; "--seed"; "-1"; "--threads"; "-3";
               "--min"; "9"; "--max"; "-9"] in
  let a := mkArgs (2 ^ 64 - 1) 9 (-9) (2 ^ 32 - 1) 1 "private" (-3) in
  @parse_args std_conv (threads_defaults 0) argv = Some a ∧
  fields_in_range a ∧
  (N a < 2 ^ 63 → Z.abs (maxv a - minv a) < INT_MAX → valid_args a) ∧
  1 ≤ threads_T (normalize a) ≤ INT_MAX.
Proof.
  split; [reflexivity|].
  apply (@parsed_fields_in_range std_conv std_conv_laws 0
           ["hist_threads"; "--n"; "-1"; "--seed"; "-1"; "--threads"; "-3";
            "--min"; "9"; "--max"; "-9"]).
  left. reflexivity.
Defined.

(** X6.  A negative [--n] is not refused: the conversion to [uint64_t]
    turns [z < 0] into [2^64 + z], an element count of at least 2^63, which
    is no valid configuration. *)
Theorem negative_count_wraps {conv : Conv} {laws : ConvLaws} (d : Args)
    (pre : list string) (v : string) (rest : list string) (z : Z)
    (a : Args) :
  "--n" ∉ pre → stoll v = Some z → z < 0 →
  parse_args d (pre ++ "--n" :: v :: rest) = Some a ∨
  seq_parse_args d (pre ++ "--n" :: v :: rest) = Some a →
  N a = 2 ^ 64 + z ∧ 2 ^ 63 ≤ N a ∧ ¬ valid_args a.
Proof.
  intros Hpre Hv Hz Hp.
  assert (N a = wrap64 z) as HN.
  { destruct (first_occurrence_wins pre "--n" v rest "" (as_ll (N d)) 0 Hpre)
      as (_ & Hll & _).
    destruct Hp as [Hp|Hp].
    - apply parse_args_Some in Hp as (n & ? & ? & ? & ? & ? & H1 & Ha).
      destruct Ha as (_ & _ & _ & _ & _ & ->). simpl. congruence.
    - apply seq_parse_args_Some in Hp as (n & ? & ? & ? & ? & H1 & Ha).
      destruct Ha as (_ & _ & _ & _ & ->). simpl. congruence. }
  apply stoll_range in Hv.
  assert (wrap64 z = 2 ^ 64 + z) as Hw.
  { unfold wrap64. symmetry. apply (Z.mod_unique _ _ (-1)); lia. }
  rewrite HN, Hw. split; [done|]. split; [lia|].
  intros [HN' _ _ _ _ _ _]. lia.
Qed.

Lemma negative_count_wraps_witness :
  let argv := ["hist_seq"; "--n"; "-1"] in
  let a := mkArgs (2 ^ 64 - 1) 0 255 12345 1 "baseline" 1 in
  @seq_parse_args std_conv seq_defaults argv = Some a ∧
  N a = 2 ^ 64 + -1 ∧ 2 ^ 63 ≤ N a ∧ ¬ valid_args a.
Proof.
  split; [reflexivity|].
  apply (@negative_count_wraps std_conv std_conv_laws seq_defaults
           ["hist_seq"] "-1" [] (-1)).
  - solve_not_elem.
  - reflexivity.
  - lia.
  - right. reflexivity.
Defined.

(** ** Whole runs *)

(** The CSV records among the events of a run. *)
Definition records (evs : list event) : list timing_record :=
  omap (λ ev, match ev with EvRecord rec => Some rec | _ => None end) evs.

Definition backend_name (be : backend) : string :=
  match be with Threads => "threads" | OpenMP => "openmp" end.

(** The team size a backend reports in its records. *)
Definition team_size {omp : OmpRuntime} (be : backend) (a : Args) : Z :=
  match be with
  | Threads => threads_T a
  | OpenMP => omp_get_num_threads (omp_request a)
  end.

(** A repetition that returns has run its two phases, and has emitted a
    record or rejected the variant. *)
Lemma rep_body_Done {G : Type} {rng : Rng G} {omp : OmpRuntime}
    be a r e out :
  rep_body be a r e = Done out →
  ∃ data res, phases be a r e = Done (data, res) ∧
    out = match res with
          | Some hs =>
              ([EvGenerated r data;
                EvRecord (emit (backend_name be) (variant a) a
                            (team_size be a) e hs.2)], None)
          | None => ([EvGenerated r data; EvUnsupported (variant a)], Some 2)
          end.
Proof.
  rewrite rep_body_phases.
  destruct (phases be a r e) as [[data res]| |]; simpl; [|done..].
  intros Hout. exists data, res. split; [done|].
  destruct res as [hs|]; simpl in *; unfold rep_tail in *;
    destruct be; by injection Hout as <-.
Qed.

(** The counting phase of hist_openmp.cpp ends in its final [else] branch
    exactly for the variants that are not supported. *)
Lemma omp_count_Done {omp : OmpRuntime} a T data sched res :
  omp_count a T data sched = Done res →
  (is_Some res ↔ supported (variant a) = true).
Proof.
  unfold omp_count, supported.
  destruct (String.eqb (variant a) "private"),
    (String.eqb (variant a) "atomic"), (String.eqb (variant a) "mutex");
    simpl;
    repeat (match goal with
            | |- context [of_option ?o] => destruct o; simpl; [|done]
            | |- context [join ?s ?f ?sc ?st] =>
                destruct (join s f sc st); simpl; [|done..]
            end);
    intros [= <-]; split; try done; try (by eexists); by intros [? ?].
Qed.

Lemma phases_Done_supported {G : Type} {rng : Rng G} {omp : OmpRuntime}
    be a r e data res :
  phases be a r e = Done (data, res) →
  match be with
  | Threads => is_Some res
  | OpenMP => is_Some res ↔ supported (variant a) = true
  end.
Proof.
  destruct be; simpl.
  - destruct (threads_phases _ _ _ _) as [p| |]; simpl; [|done..].
    intros [= <- <-]. by eexists.
  - unfold omp_phases.
    destruct (gen_phase _ _ _ _) as [d| |]; simpl; [|done..].
    destruct (omp_count _ _ _ _) as [res'| |] eqn:Hc; simpl; [|done..].
    intros [= <- <-]. by eapply omp_count_Done.
Qed.

(** [main] behind the conversion of its arguments is the repetition
    loop, unless hist_threads.cpp rejects the variant first. *)
Lemma run_main_reps {G : Type} {rng : Rng G} {omp : OmpRuntime}
    be a env :
  (be = OpenMP ∨ supported (variant a) = true) →
  run_main be a false env
  = run_reps (λ r, rep_body be (normalize a) r (env r)) 0 (Z.to_nat (rep a)).
Proof.
  destruct (normalize_fields a) as (_ & _ & Hrep & Hvar & _).
  destruct be; simpl; unfold threads_main, omp_main; rewrite Hrep.
  - intros [?|Hsup]; [done|]. by rewrite Hvar, Hsup.
  - done.
Qed.

Lemma threads_main_unsupported {G : Type} {rng : Rng G} a env :
  supported (variant a) = false →
  threads_main a false env = Done ([EvUnsupported (variant a)], 2).
Proof.
  destruct (normalize_fields a) as (_ & _ & _ & Hvar & _).
  intros Hsup. unfold threads_main. by rewrite Hvar, Hsup.
Qed.

(** The loop only looks at the repetitions it runs. *)
Lemma run_reps_ext body1 body2 (count : nat) : ∀ r,
  (∀ r', r ≤ r' < r + Z.of_nat count → body1 r' = body2 r') →
  run_reps body1 r count = run_reps body2 r count.
Proof.
  induction count as [|count IH]; intros r Hext; [done|].
  cbn [run_reps]. rewrite (Hext r) by lia.
  destruct (body2 r) as [[evs [st|]]| |]; simpl; try done.
  rewrite (IH (r + 1)); [done|]. intros r' Hr'. apply Hext. lia.
Qed.

(** What holds of the events of repetition [r'], for every repetition the
    loop runs, holds of every event of the run for some such [r']. *)
Lemma run_reps_events_idx (P : Z → event → Prop) body (count : nat) :
  ∀ r evs st,
  (∀ r' out, r ≤ r' < r + Z.of_nat count → body r' = Done out →
             Forall (P r') out.1) →
  run_reps body r count = Done (evs, st) →
  Forall (λ ev, ∃ r', r ≤ r' < r + Z.of_nat count ∧ P r' ev) evs.
Proof.
  induction count as [|count IH]; intros r evs st Hbody; simpl.
  - by intros [= <- <-].
  - destruct (body r) as [[evs1 [st1|]]| |] eqn:Hb; simpl; try done.
    + intros [= <- <-].
      eapply Forall_impl; [apply (Hbody r _ ltac:(lia) Hb)|].
      intros ev Hev. exists r. split; [lia|done].
    + destruct (run_reps body (r + 1) count) as [[evs2 st2]| |] eqn:Hr;
        simpl; try done.
      intros [= <- <-]. apply Forall_app. split.
      * eapply Forall_impl; [apply (Hbody r _ ltac:(lia) Hb)|].
        intros ev Hev. exists r. split; [lia|done].
      * eapply Forall_impl.
        { apply (IH (r + 1) evs2 st2); [|done].
          intros r' out Hr'. apply Hbody. lia. }
        intros ev (r' & Hr' & Hev). exists r'. split; [lia|done].
Qed.

(** A loop whose body emits two events, one of them a record, and returns
    no status. *)
Lemma run_reps_count body (count : nat) : ∀ r evs st,
  (∀ r out, body r = Done out →
     out.2 = None ∧ length out.1 = 2%nat ∧ length (records out.1) = 1%nat) →
  run_reps body r count = Done (evs, st) →
  st = 0 ∧ length evs = (2 * count)%nat ∧ length (records evs) = count.
Proof.
  induction count as [|count IH]; intros r evs st Hbody; simpl.
  - by intros [= <- <-].
  - destruct (body r) as [[evs1 st1]| |] eqn:Hb; simpl; try done.
    destruct (Hbody r _ Hb) as (Hst & Hl & Hrec). simpl in *. subst st1.
    destruct (run_reps body (r + 1) count) as [[evs2 st2]| |] eqn:Hr;
      simpl; try done.
    intros [= <- <-]. destruct (IH (r + 1) evs2 st2 Hbody Hr) as (-> & ? & ?).
    unfold records in *. rewrite omap_app, !length_app. lia.
Qed.

Lemma seq_rep_Done {G : Type} {rng : Rng G} a r e out :
  seq_rep a r e = Done out →
  ∃ data hist, seq_gen a r = Some data ∧ seq_hist a data = Some hist ∧
    out = ([EvGenerated r data;
            EvRecord (emit "seq" "baseline" a 1 e (accumulate hist))], None).
Proof.
  unfold seq_rep, rep_tail.
  destruct (seq_gen a r) as [data|]; simpl; [|done].
  destruct (seq_hist a data) as [hist|] eqn:Hh; simpl; [|done].
  intros Hout. exists data, hist. do 2 (split; [done|]).
  by injection Hout as <-.
Qed.

(** A run of one of the two parallel programs with a supported variant
    that returns has returned 0 after [rep] repetitions of two events. *)
Lemma run_main_count {G : Type} {rng : Rng G} {omp : OmpRuntime}
    be a env evs st :
  supported (variant a) = true →
  run_main be a false env = Done (evs, st) →
  st = 0 ∧
  length evs = (2 * Z.to_nat (rep a))%nat ∧
  length (records evs) = Z.to_nat (rep a).
Proof.
  intros Hsup Hrun. rewrite run_main_reps in Hrun by auto.
  eapply run_reps_count; [|done]. intros r out Hb. simpl in Hb.
  apply rep_body_Done in Hb as (data & res & Hph & ->).
  destruct (normalize_fields a) as (_ & _ & _ & Hvar & _).
  apply phases_Done_supported in Hph. rewrite Hvar in Hph.
  assert (is_Some res) as [hs ->] by (destruct be; tauto). done.
Qed.

(** X7.  One line per repetition.  A run of hist_threads.cpp or
    hist_openmp.cpp with a supported variant, or of hist_seq.cpp, that
    returns has returned 0 after exactly [rep] generation phases and [rep]
    records, none at all when [rep] is zero or negative. *)
Theorem one_record_per_repetition {G : Type} {rng : Rng G}
    {omp : OmpRuntime} (be : backend) (a : Args) (env : Z → rep_env)
    (evs : list event) (st : Z) :
  (supported (variant a) = true ∧ run_main be a false env = Done (evs, st)) ∨
  seq_main a false env = Done (evs, st) →
  st = 0 ∧
  length evs = (2 * Z.to_nat (rep a))%nat ∧
  length (records evs) = Z.to_nat (rep a).
Proof.
  intros [[Hsup Hrun]|Hrun].
  - by eapply run_main_count.
  - unfold seq_main in Hrun. simpl in Hrun.
    destruct (normalize_fields a) as (_ & _ & Hrep & _ & _).
    rewrite Hrep in Hrun.
    eapply run_reps_count; [|done]. intros r out Hb. simpl in Hb.
    by apply seq_rep_Done in Hb as (data & hist & _ & _ & ->).
Qed.

Lemma one_record_per_repetition_witness :
  let a := mkArgs 2 0 3 1 2 "mutex" 0 in
  let env := λ _ : Z, mkEnv [0; 1; 2; 3]%nat [0; 0; 0; 0; 1; 1; 1; 1]%nat 7 9 in
  ∃ evs,
    @run_main Z lcg (gomp 4) Threads a false env = Done (evs, 0) ∧
    0 = 0 ∧ length evs = (2 * Z.to_nat (rep a))%nat ∧
    length (records evs) = Z.to_nat (rep a).
Proof.
  eexists. split; [vm_compute; reflexivity|].
  apply (@one_record_per_repetition Z lcg (gomp 4) Threads
           (mkArgs 2 0 3 1 2 "mutex" 0)
           (λ _ : Z, mkEnv [0; 1; 2; 3]%nat [0; 0; 0; 0; 1; 1; 1; 1]%nat 7 9)).
  left. split; vm_compute; reflexivity.
Defined.

(** X8.  Every run ends.  For a valid configuration with a supported
    variant and an element count the vector constructor accepts, whatever
    part of the interleavings of the workers has been fixed for each
    repetition, the interleavings can be continued so that the run of
    hist_threads.cpp or hist_openmp.cpp returns 0: no repetition faults,
    deadlocks or rejects.  Above that count every run with a repetition
    faults. *)
Theorem run_can_complete {G : Type} {rng : Rng G} {rng_laws : RngLaws G}
    {omp : OmpRuntime} {omp_laws : OmpLaws} (be : backend) (a : Args)
    (env : Z → rep_env) :
  valid_args a → supported (variant a) = true →
  (N a ≤ data_max_size →
   ∃ (ext : Z → list nat * list nat) evs,
     run_main be a false (λ r, more (env r) (ext r).1 (ext r).2)
     = Done (evs, 0)) ∧
  (data_max_size < N a → 0 < rep a → run_main be a false env = Fault).
Proof.
  intros Hv0 Hsup0.
  destruct (normalize_valid a Hv0) as [Hv Hmm].
  destruct (normalize_fields a) as (HNn & _ & Hrepn & Hvar & _).
  split.
  2:{ intros Hbig Hrep. rewrite run_main_reps by auto.
      destruct (Z.to_nat (rep a)) as [|k] eqn:Hk; [lia|].
      cbn [run_reps]. rewrite rep_body_phases.
      by rewrite phases_too_large by (by rewrite HNn). }
  intros Hmax0.
  assert (N (normalize a) ≤ data_max_size) as Hmax by (by rewrite HNn).
  assert (supported (variant (normalize a)) = true) as Hsup
    by (by rewrite Hvar).
  assert (∀ (k : nat) r, ∃ (ext : Z → list nat * list nat) evs,
            run_reps (λ r, rep_body be (normalize a) r
                             (more (env r) (ext r).1 (ext r).2)) r k
            = Done (evs, 0)) as Hloop.
  { induction k as [|k IH]; intros r.
    - by exists (λ _, ([], [])), [].
    - destruct (phases_settle be (normalize a) r (env r) Hv Hmm Hsup)
        as (_ & _ & Hc).
      destruct (Hc Hmax) as (gs & cs & [data res] & Hph).
      destruct (phases_settle be (normalize a) r (more (env r) gs cs)
                  Hv Hmm Hsup) as (_ & Hd & _).
      destruct (Hd data res Hph) as (_ & _ & ->).
      destruct (IH (r + 1)) as (ext' & evs' & Hrest).
      exists (λ r', if decide (r' = r) then (gs, cs) else ext' r').
      eexists. cbn [run_reps]. rewrite decide_True by done.
      rewrite rep_body_phases. cbn [fst snd]. rewrite Hph. simpl.
      erewrite run_reps_ext; [rewrite Hrest; simpl; reflexivity|].
      intros r' Hr'. simpl. rewrite decide_False by lia. done. }
  destruct (Hloop (Z.to_nat (rep a)) 0) as (ext & evs & Hrun).
  exists ext, evs. by rewrite run_main_reps by auto.
Qed.

Lemma run_can_complete_witness :
  let a := mkArgs 4 9 0 42 2 "private" 3 in
  let big := mkArgs (2 ^ 61) 9 0 42 2 "private" 3 in
  (valid_args a ∧ N a ≤ data_max_size ∧
   valid_args big ∧ data_max_size < N big ∧ 0 < rep big) ∧
  (∃ (ext : Z → list nat * list nat) evs,
     @run_main Z lcg (gomp 4) OpenMP a false
       (λ r, more (mkEnv [2; 2]%nat [0]%nat 0 0) (ext r).1 (ext r).2)
     = Done (evs, 0)) ∧
  @run_main Z lcg (gomp 4) OpenMP big false
    (λ _, mkEnv [2; 2]%nat [0]%nat 0 0) = Fault.
Proof.
  split; [repeat split; (solve_valid || by vm_compute)|].
  split.
  - apply (@run_can_complete Z lcg lcg_laws (gomp 4) gomp4_laws OpenMP
             (mkArgs 4 9 0 42 2 "private" 3)
             (λ _, mkEnv [2; 2]%nat [0]%nat 0 0));
      [solve_valid|reflexivity|by vm_compute].
  - apply (@run_can_complete Z lcg lcg_laws (gomp 4) gomp4_laws OpenMP
             (mkArgs (2 ^ 61) 9 0 42 2 "private" 3)
             (λ _, mkEnv [2; 2]%nat [0]%nat 0 0));
      [solve_valid|reflexivity|by vm_compute|by vm_compute].
Defined.

(** X9.  What a record says about the run.  Every record of a run of
    hist_threads.cpp or hist_openmp.cpp, for a range whose width fits an
    [int], names its backend and a supported variant, reports the number
    of threads actually used (4 in place of a count of zero or less in
    hist_threads.cpp, the size of the team the runtime formed in
    hist_openmp.cpp), the element count and the seed as given, the bounds
    in increasing order with [bins = max - min + 1], and as [total_ms] the
    sum of the two durations of one of the repetitions run. *)
Theorem record_reports_configuration {G : Type} {rng : Rng G}
    {omp : OmpRuntime} (be : backend) (a : Args) (env : Z → rep_env)
    (evs : list event) (st : Z) (rec : timing_record) :
  Z.abs (maxv a - minv a) < INT_MAX →
  run_main be a false env = Done (evs, st) →
  EvRecord rec ∈ evs →
  r_backend rec = backend_name be ∧
  r_variant rec = variant a ∧ supported (variant a) = true ∧
  r_threads rec
  = match be with
    | Threads => if threads a <=? 0 then 4 else threads a
    | OpenMP =>
        omp_get_num_threads (if threads a >? 0 then Some (threads a) else None)
    end ∧
  r_N rec = N a ∧ r_seed rec = seed a ∧
  r_min rec = Z.min (minv a) (maxv a) ∧
  r_max rec = Z.max (minv a) (maxv a) ∧
  r_bins rec = r_max rec - r_min rec + 1 ∧
  ∃ r, 0 ≤ r < rep a ∧
    r_gen_ms rec = gen_ms (env r) ∧ r_hist_ms rec = hist_ms (env r) ∧
    r_total_ms rec = gen_ms (env r) + hist_ms (env r).
Proof.
  intros Hw Hrun Hin.
  destruct (normalize_fields a) as (HN & Hseed & Hrep & Hvar & Hth).
  destruct (supported (variant a)) eqn:Hsup.
  2:{ destruct be; unfold run_main in Hrun.
      - rewrite threads_main_unsupported in Hrun by done.
        injection Hrun as <- <-.
        apply list_elem_of_singleton in Hin. done.
      - exfalso. change (omp_main a false env)
          with (run_main OpenMP a false env) in Hrun.
        rewrite (run_main_reps OpenMP) in Hrun by auto.
        apply (run_reps_events_idx (λ _ ev, ∀ rec, ev ≠ EvRecord rec)) in Hrun.
        + rewrite Forall_forall in Hrun.
          destruct (Hrun _ Hin) as (_ & _ & Hne). by eapply Hne.
        + intros r' out _ Hb. cbv beta in Hb.
          apply rep_body_Done in Hb as (data & res & Hph & ->).
          apply phases_Done_supported in Hph. rewrite Hvar, Hsup in Hph.
          destruct res as [hs|];
            [by pose proof (proj1 Hph (mk_is_Some _ _ eq_refl))|].
          by repeat constructor. }
  rewrite run_main_reps in Hrun by auto.
  apply (run_reps_events_idx
           (λ r ev, ∀ rec, ev = EvRecord rec →
              ∃ s, rec = emit (backend_name be) (variant a) (normalize a)
                           (team_size be (normalize a)) (env r) s)) in Hrun.
  - rewrite Forall_forall in Hrun.
    destruct (Hrun _ Hin) as (r & Hr & Hrec).
    destruct (Hrec rec eq_refl) as (s & ->). simpl.
    rewrite HN, Hseed.
    assert (minv (normalize a) = Z.min (minv a) (maxv a) ∧
            maxv (normalize a) = Z.max (minv a) (maxv a)) as [-> ->].
    { unfold normalize. case_match; simpl; lia. }
    repeat split; try done.
    + destruct be; simpl; unfold threads_T, omp_request; by rewrite Hth.
    + unfold bins.
      assert (minv (normalize a) = Z.min (minv a) (maxv a) ∧
              maxv (normalize a) = Z.max (minv a) (maxv a)) as [-> ->].
      { unfold normalize. case_match; simpl; lia. }
      apply wrap32s_small. unfold INT_MIN, INT_MAX in *. lia.
    + exists r. split; [lia|done].
  - intros r' out _ Hb. simpl in Hb.
    apply rep_body_Done in Hb as (data & res & Hph & ->).
    destruct res as [hs|]; repeat constructor; try done.
    intros rec' [= <-]. rewrite Hvar. by eexists.
Qed.

Lemma record_reports_configuration_witness :
  let a := mkArgs 2 3 0 1 1 "mutex" 0 in
  let env := λ _ : Z, mkEnv [0; 1; 2; 3]%nat [0; 0; 0; 0; 1; 1; 1; 1]%nat 7 9 in
  let rec := mkRecord "threads" "mutex" 4 2 4 0 3 1 7 9 16 2 in
  @run_main Z lcg (gomp 4) Threads a false env
  = Done ([EvGenerated 0 [2; 0]; EvRecord rec], 0) ∧
  r_backend rec = "threads" ∧
  r_variant rec = "mutex" ∧ supported "mutex" = true ∧
  r_threads rec = 4 ∧
  r_N rec = 2 ∧ r_seed rec = 1 ∧
  r_min rec = Z.min 3 0 ∧ r_max rec = Z.max 3 0 ∧
  r_bins rec = r_max rec - r_min rec + 1 ∧
  ∃ r, 0 ≤ r < 1 ∧
    r_gen_ms rec = 7 ∧ r_hist_ms rec = 9 ∧ r_total_ms rec = 7 + 9.
Proof.
  split; [vm_compute; reflexivity|].
  apply (@record_reports_configuration Z lcg (gomp 4) Threads
           (mkArgs 2 3 0 1 1 "mutex" 0)
           (λ _ : Z, mkEnv [0; 1; 2; 3]%nat [0; 0; 0; 0; 1; 1; 1; 1]%nat 7 9)
           [EvGenerated 0 [2; 0];
            EvRecord (mkRecord "threads" "mutex" 4 2 4 0 3 1 7 9 16 2)] 0).
  - simpl. unfold INT_MAX. lia.
  - vm_compute. reflexivity.
  - rewrite !elem_of_cons. auto.
Defined.

(** ** The sequential baseline *)

(** X10.  hist_seq.cpp is total on the valid configurations whose element
    count the vector constructor accepts: the run returns 0 with one
    record per repetition; the dataset of repetition [r] holds [a.N]
    elements of the range, element [k] being draw [k] of one engine seeded
    with [seed + 17 r]; and every record carries [sum_hist = a.N] in the
    columns of backend seq, variant baseline and one thread.  Above that
    count a run with a repetition faults. *)
Theorem seq_baseline_total {G : Type} {rng : Rng G} {rng_laws : RngLaws G}
    (a : Args) (env : Z → rep_env) :
  valid_args a →
  (N a ≤ data_max_size →
   ∃ evs,
     seq_main a false env = Done (evs, 0) ∧
     length (records evs) = Z.to_nat (rep a) ∧
     Forall (λ ev,
       match ev with
       | EvGenerated r data =>
           in_range (normalize a) data ∧
           ∀ k : nat, Z.of_nat k < N a →
             data !! k
             = Some (nth_draw (normalize a) (mt19937_64 (seq_seed a r)) k)
       | EvRecord rec =>
           r_sum_hist rec = N a ∧ r_N rec = N a ∧ r_backend rec = "seq" ∧
           r_variant rec = "baseline" ∧ r_threads rec = 1
       | _ => False
       end) evs) ∧
  (data_max_size < N a → 0 < rep a → seq_main a false env = Fault).
Proof.
  intros Hv0.
  destruct (normalize_valid a Hv0) as [Hv Hmm].
  destruct (normalize_fields a) as (HNa & Hseed & Hrep & _ & _).
  set (a' := normalize a) in *.
  pose proof (valid_N a' Hv) as HN.
  split.
  2:{ intros Hbig Hrep0. unfold seq_main. fold a'. rewrite Hrep.
      destruct (Z.to_nat (rep a)) as [|k] eqn:Hk; [lia|].
      cbn [run_reps]. unfold seq_rep, seq_gen.
      by rewrite data_alloc_None by (by rewrite HNa). }
  intros Hmax0.
  assert (N a' ≤ data_max_size) as Hmax by (by rewrite HNa).
  assert (∀ r e, ∃ data,
            seq_rep a' r e
            = Done ([EvGenerated r data;
                     EvRecord (emit "seq" "baseline" a' 1 e (N a'))], None) ∧
            in_range a' data ∧
            ∀ k : nat, Z.of_nat k < N a' →
              data !! k = Some (nth_draw a' (mt19937_64 (seq_seed a' r)) k))
    as Hrep1.
  { intros r e.
    destruct (seq_fill_draws a' HN (Z.to_nat (N a')) 0
                (mt19937_64 (seq_seed a' r)) (replicate (Z.to_nat (N a')) 0))
      as (data & Hfill & Hlen & Hnew & _);
      [done|rewrite length_replicate; lia|by rewrite length_replicate|].
    rewrite length_replicate in Hlen.
    assert (∀ k : nat, Z.of_nat k < N a' →
              data !! k = Some (nth_draw a' (mt19937_64 (seq_seed a' r)) k))
      as Hdraw.
    { intros k Hk. specialize (Hnew k ltac:(lia)).
      by rewrite Z.add_0_l, Nat2Z.id in Hnew. }
    assert (in_range a' data) as Hin.
    { split; [done|]. apply Forall_lookup. intros k x Hx.
      pose proof (lookup_lt_Some _ _ _ Hx) as Hk.
      rewrite Hdraw in Hx by lia. injection Hx as <-.
      unfold nth_draw. by apply uniform_int_range. }
    pose proof (bin_at_ok a' data Hv Hmm Hin) as Hbin.
    destruct (bins_width a' Hv Hmm) as [_ Hbins].
    exists data. split; [|done].
    unfold seq_rep, seq_gen. rewrite data_alloc_Some by done.
    cbn [mbind option_bind]. rewrite Hfill. simpl.
    unfold seq_hist. rewrite vec_make_Some by lia. simpl.
    rewrite <- (hist_of_nil a' data).
    pose proof (seq_count_hist a' HN data (Z.to_nat (N a')) 0) as Hcount.
    rewrite (seqZ_nil 0 0) in Hcount by done.
    rewrite Hcount; [|apply Hin|done|done|lia]. simpl.
    unfold rep_tail.
    replace (0 + Z.of_nat (Z.to_nat (N a'))) with (N a') by lia.
    fold (histogram a' data).
    by rewrite (accumulate_histogram a' data HN (proj1 Hin) Hbin). }
  assert (∀ (k : nat) r, ∃ evs,
            run_reps (λ r, seq_rep a' r (env r)) r k = Done (evs, 0) ∧
            length (records evs) = k ∧
            Forall (λ ev,
              match ev with
              | EvGenerated r data =>
                  in_range a' data ∧
                  ∀ k : nat, Z.of_nat k < N a' →
                    data !! k
                    = Some (nth_draw a' (mt19937_64 (seq_seed a' r)) k)
              | EvRecord rec =>
                  r_sum_hist rec = N a' ∧ r_N rec = N a' ∧
                  r_backend rec = "seq" ∧
                  r_variant rec = "baseline" ∧ r_threads rec = 1
              | _ => False
              end) evs) as Hloop.
  { induction k as [|k IH]; intros r.
    - by exists [].
    - destruct (Hrep1 r (env r)) as (data & Hr & Hin & Hdraw).
      destruct (IH (r + 1)) as (evs & Hrest & Hlen & Hall).
      eexists. cbn [run_reps]. rewrite Hr. simpl. rewrite Hrest. simpl.
      split; [done|]. split; [simpl; f_equal; exact Hlen|].
      simpl. constructor; [by split|]. constructor; [by repeat split|].
      exact Hall. }
  destruct (Hloop (Z.to_nat (rep a)) 0) as (evs & Hrun & Hlen & Hall).
  exists evs. unfold seq_main. fold a'. rewrite Hrep.
  split; [done|]. split; [done|].
  eapply Forall_impl; [done|]. intros [| r data | rec |]; try done.
  - unfold seq_seed. rewrite Hseed, HNa. done.
  - by rewrite HNa.
Qed.

Lemma seq_baseline_total_witness :
  let a := mkArgs 4 9 0 42 2 "baseline" 1 in
  let big := mkArgs (2 ^ 61) 9 0 42 2 "baseline" 1 in
  (valid_args a ∧ N a ≤ data_max_size ∧
   valid_args big ∧ data_max_size < N big ∧ 0 < rep big) ∧
  (∃ evs,
     @seq_main Z lcg a false (λ _, mkEnv [] [] 7 9) = Done (evs, 0) ∧
     length (records evs) = Z.to_nat (rep a) ∧
     Forall (λ ev,
       match ev with
       | EvGenerated r data =>
           in_range (normalize a) data ∧
           ∀ k : nat, Z.of_nat k < N a →
             data !! k
             = Some (@nth_draw Z lcg (normalize a)
                       (@mt19937_64 Z lcg (seq_seed a r)) k)
       | EvRecord rec =>
           r_sum_hist rec = N a ∧ r_N rec = N a ∧ r_backend rec = "seq" ∧
           r_variant rec = "baseline" ∧ r_threads rec = 1
       | _ => False
       end) evs) ∧
  @seq_main Z lcg big false (λ _, mkEnv [] [] 7 9) = Fault.
Proof.
  split; [repeat split; (solve_valid || by vm_compute)|].
  split.
  - apply (@seq_baseline_total Z lcg lcg_laws
             (mkArgs 4 9 0 42 2 "baseline" 1));
      [solve_valid|by vm_compute].
  - apply (@seq_baseline_total Z lcg lcg_laws
             (mkArgs (2 ^ 61) 9 0 42 2 "baseline" 1));
      [solve_valid|by vm_compute|by vm_compute].
Defined.

(** ** Reproducibility *)

Lemma run_reps_agree body1 body2 (count : nat) : ∀ r x y,
  (∀ r o1 o2, body1 r = Done o1 → body2 r = Done o2 → o1 = o2) →
  run_reps body1 r count = Done x → run_reps body2 r count = Done y → x = y.
Proof.
  induction count as [|count IH]; intros r x y Hb; simpl.
  - by intros [= <-] [= <-].
  - destruct (body1 r) as [o1| |] eqn:H1; simpl; try done.
    destruct (body2 r) as [o2| |] eqn:H2; simpl; try done.
    rewrite (Hb r o1 o2 H1 H2). destruct o2 as [evs [st|]]; simpl.
    + by intros [= <-] [= <-].
    + destruct (run_reps body1 (r + 1) count) as [x'| |] eqn:Hx;
        simpl; try done.
      destruct (run_reps body2 (r + 1) count) as [y'| |] eqn:Hy;
        simpl; try done.
      rewrite (IH (r + 1) x' y' Hb Hx Hy). by intros [= <-] [= <-].
Qed.

(** X11.  The interleaving of the workers cannot be seen in the output.
    Two runs of the same backend on the same valid configuration with a
    supported variant, under any two interleavings of their workers in
    every phase of every repetition, emit the same datasets and the same
    records as soon as the clock readings agree. *)
Theorem output_independent_of_interleaving {G : Type} {rng : Rng G}
    {rng_laws : RngLaws G} {omp : OmpRuntime} {omp_laws : OmpLaws}
    (be : backend) (a : Args) (env1 env2 : Z → rep_env)
    (out1 out2 : list event * Z) :
  valid_args a → supported (variant a) = true →
  (∀ r, gen_ms (env1 r) = gen_ms (env2 r) ∧
        hist_ms (env1 r) = hist_ms (env2 r)) →
  run_main be a false env1 = Done out1 →
  run_main be a false env2 = Done out2 →
  out1 = out2.
Proof.
  intros Hv0 Hsup0 Hclock H1 H2.
  destruct (normalize_valid a Hv0) as [Hv Hmm].
  destruct (normalize_fields a) as (_ & _ & _ & Hvar & _).
  assert (supported (variant (normalize a)) = true) as Hsup
    by (by rewrite Hvar).
  rewrite run_main_reps in H1, H2 by auto.
  eapply run_reps_agree; [|exact H1|exact H2].
  intros r o1 o2 Hb1 Hb2. simpl in Hb1, Hb2.
  apply rep_body_Done in Hb1 as (d1 & res1 & Hph1 & ->).
  apply rep_body_Done in Hb2 as (d2 & res2 & Hph2 & ->).
  destruct (phases_settle be (normalize a) r (env1 r) Hv Hmm Hsup)
    as (_ & Hd1 & _).
  destruct (phases_settle be (normalize a) r (env2 r) Hv Hmm Hsup)
    as (_ & Hd2 & _).
  destruct (Hd1 d1 res1 Hph1) as (Hs1 & _ & ->).
  destruct (Hd2 d2 res2 Hph2) as (Hs2 & _ & ->).
  assert (d1 = d2) as ->.
  { eapply (gen_spec_unique (normalize a) r); [apply Hv| |done..].
    by apply blocks_of_tiles. }
  unfold emit. destruct (Hclock r) as [-> ->]. done.
Qed.

Lemma output_independent_of_interleaving_witness :
  let a := mkArgs 4 0 9 42 1 "mutex" 2 in
  let env1 := λ _ : Z,
    mkEnv [0; 0; 1; 1]%nat
      [0; 0; 0; 0; 1; 1; 1; 1; 0; 0; 0; 0; 1; 1; 1; 1]%nat 7 9 in
  let env2 := λ _ : Z,
    mkEnv [1; 0; 1; 0]%nat
      [0; 1; 0; 1; 1; 0; 0; 1; 1; 1; 1; 1; 0; 0; 0; 0]%nat 7 9 in
  let out := ([EvGenerated 0 [4; 6; 7; 3];
               EvRecord (mkRecord "threads" "mutex" 2 4 10 0 9 42 7 9 16 4)],
              0) in
  (@run_main Z lcg (gomp 4) Threads a false env1 = Done out ∧
   @run_main Z lcg (gomp 4) Threads a false env2 = Done out) ∧
  out = out.
Proof.
  split; [split; vm_compute; reflexivity|].
  apply (@output_independent_of_interleaving Z lcg lcg_laws (gomp 4)
           gomp4_laws Threads (mkArgs 4 0 9 42 1 "mutex" 2)
           (λ _ : Z,
              mkEnv [0; 0; 1; 1]%nat
                [0; 0; 0; 0; 1; 1; 1; 1; 0; 0; 0; 0; 1; 1; 1; 1]%nat 7 9)
           (λ _ : Z,
              mkEnv [1; 0; 1; 0]%nat
                [0; 1; 0; 1; 1; 0; 0; 1; 1; 1; 1; 1; 0; 0; 0; 0]%nat 7 9)).
  - solve_valid.
  - reflexivity.
  - done.
  - vm_compute. reflexivity.
  - vm_compute. reflexivity.
Defined.

(** X12.  No element leaves the range.  In a run on a valid
    configuration with a supported variant, every dataset a generation
    phase hands to the counting phase holds [a.N] elements, each between
    the smaller and the larger of the two bounds, so that its bin index
    lies inside the histogram; and element [j] of the block of worker [t]
    is draw [j] of the engine of worker [t]. *)
Theorem generated_data_in_range {G : Type} {rng : Rng G}
    {rng_laws : RngLaws G} {omp : OmpRuntime} {omp_laws : OmpLaws}
    (be : backend) (a : Args) (env : Z → rep_env) (evs : list event)
    (st r : Z) (data : list Z) :
  valid_args a → supported (variant a) = true →
  run_main be a false env = Done (evs, st) →
  EvGenerated r data ∈ evs →
  0 ≤ r < rep a ∧
  length data = Z.to_nat (N a) ∧
  Forall (λ x, Z.min (minv a) (maxv a) ≤ x ≤ Z.max (minv a) (maxv a)) data ∧
  (∀ i, 0 ≤ i < N a → 0 ≤ bin_at (normalize a) data i < bins (normalize a)) ∧
  gen_spec (normalize a) r (blocks_of be (normalize a)) data.
Proof.
  intros Hv0 Hsup0 Hrun Hin.
  destruct (normalize_valid a Hv0) as [Hv Hmm].
  destruct (normalize_fields a) as (HN & _ & _ & Hvar & _).
  assert (supported (variant (normalize a)) = true) as Hsup
    by (by rewrite Hvar).
  rewrite run_main_reps in Hrun by auto.
  apply (run_reps_events_idx
           (λ r ev, ∀ r' data, ev = EvGenerated r' data →
              r' = r ∧ in_range (normalize a) data ∧
              gen_spec (normalize a) r (blocks_of be (normalize a)) data))
    in Hrun.
  - rewrite Forall_forall in Hrun.
    destruct (Hrun _ Hin) as (r0 & Hr0 & Hgen).
    destruct (Hgen r data eq_refl) as (-> & Hrange & Hspec).
    split; [lia|]. rewrite <- HN.
    split; [apply Hrange|]. split; [|split; [|done]].
    + eapply Forall_impl; [apply Hrange|]. intros x Hx. simpl in Hx.
      revert Hx. unfold normalize. case_match; simpl; lia.
    + by apply bin_at_ok.
  - intros r' out _ Hb. simpl in Hb.
    apply rep_body_Done in Hb as (d & res & Hph & ->).
    destruct (phases_settle be (normalize a) r' (env r') Hv Hmm Hsup)
      as (_ & Hd & _).
    destruct (Hd d res Hph) as (Hs & Hr & ->).
    simpl. constructor; [by intros ? ? [= <- <-]|].
    constructor; [done|]. constructor.
Qed.

Lemma generated_data_in_range_witness :
  let a := mkArgs 4 9 0 42 1 "mutex" 2 in
  let env := λ _ : Z,
    mkEnv [0; 0; 1; 1]%nat
      [0; 0; 0; 0; 1; 1; 1; 1; 0; 0; 0; 0; 1; 1; 1; 1]%nat 7 9 in
  let data := [4; 6; 7; 3] in
  0 ≤ 0 < rep a ∧
  length data = Z.to_nat (N a) ∧
  Forall (λ x, Z.min (minv a) (maxv a) ≤ x ≤ Z.max (minv a) (maxv a)) data ∧
  (∀ i, 0 ≤ i < N a → 0 ≤ bin_at (normalize a) data i < bins (normalize a)) ∧
  @gen_spec Z lcg (normalize a) 0 (@blocks_of (gomp 4) Threads (normalize a))
    data.
Proof.
  apply (@generated_data_in_range Z lcg lcg_laws (gomp 4) gomp4_laws Threads
           (mkArgs 4 9 0 42 1 "mutex" 2)
           (λ _ : Z,
              mkEnv [0; 0; 1; 1]%nat
                [0; 0; 0; 0; 1; 1; 1; 1; 0; 0; 0; 0; 1; 1; 1; 1]%nat 7 9)
           [EvGenerated 0 [4; 6; 7; 3];
            EvRecord (mkRecord "threads" "mutex" 2 4 10 0 9 42 7 9 16 4)] 0).
  - solve_valid.
  - reflexivity.
  - vm_compute. reflexivity.
  - rewrite !elem_of_cons. auto.
Defined.

(** ** Seeds *)

(** The seed of worker [t] in repetition [r], without the intermediate
    wrap-arounds. *)
Lemma worker_seed_mod a t r :
  worker_seed a t r = (seed a + 1337 * t + 17 * r) mod 2 ^ 32.
Proof.
  unfold worker_seed, wrap32u.
  apply Z.cong_iff_ex.
  exists (- (1337 * (t / 2 ^ 32) + (t mod 2 ^ 32 * 1337) / 2 ^ 32
             + 17 * (r / 2 ^ 32) + (r mod 2 ^ 32 * 17) / 2 ^ 32
             + (seed a + (t mod 2 ^ 32 * 1337) mod 2 ^ 32) / 2 ^ 32)).
  pose proof (Z.mod_eq t (2 ^ 32) ltac:(lia)).
  pose proof (Z.mod_eq (t mod 2 ^ 32 * 1337) (2 ^ 32) ltac:(lia)).
  pose proof (Z.mod_eq r (2 ^ 32) ltac:(lia)).
  pose proof (Z.mod_eq (r mod 2 ^ 32 * 17) (2 ^ 32) ltac:(lia)).
  pose proof (Z.mod_eq (seed a + (t mod 2 ^ 32 * 1337) mod 2 ^ 32) (2 ^ 32)
                ltac:(lia)).
  lia.
Qed.

Lemma odd_multiple_mod (k d : Z) :
  Z.gcd (2 ^ 32) k = 1 → - 2 ^ 32 < d < 2 ^ 32 →
  (k * d) mod 2 ^ 32 = 0 → d = 0.
Proof.
  intros Hk Hd Hm. apply Z.mod_divide in Hm; [|lia].
  apply Z.gauss in Hm; [|done]. destruct Hm as [q Hq]. lia.
Qed.

(** X13.  Which workers share a seed.  Worker [t1] of repetition [r1] and
    worker [t2] of repetition [r2] seed their engines alike exactly when
    [1337 (t1 - t2) + 17 (r1 - r2)] is a multiple of 2^32.  So two workers
    of one repetition never do, nor does one worker in two repetitions;
    but worker [t + 17] of repetition [r] and worker [t] of repetition
    [r + 1337] always do. *)
Theorem worker_seeds_coincide (a : Args) :
  (∀ t1 r1 t2 r2,
     worker_seed a t1 r1 = worker_seed a t2 r2 ↔
     (1337 * (t1 - t2) + 17 * (r1 - r2)) mod 2 ^ 32 = 0) ∧
  (∀ r t1 t2, 0 ≤ t1 ≤ INT_MAX → 0 ≤ t2 ≤ INT_MAX →
     worker_seed a t1 r = worker_seed a t2 r → t1 = t2) ∧
  (∀ t r1 r2, 0 ≤ r1 ≤ INT_MAX → 0 ≤ r2 ≤ INT_MAX →
     worker_seed a t r1 = worker_seed a t r2 → r1 = r2) ∧
  (∀ t r, worker_seed a (t + 17) r = worker_seed a t (r + 1337)).
Proof.
  assert (∀ t1 r1 t2 r2,
            worker_seed a t1 r1 = worker_seed a t2 r2 ↔
            (1337 * (t1 - t2) + 17 * (r1 - r2)) mod 2 ^ 32 = 0) as Hiff.
  { intros t1 r1 t2 r2. rewrite !worker_seed_mod, Z.cong_iff_0.
    by replace (seed a + 1337 * t1 + 17 * r1 - (seed a + 1337 * t2 + 17 * r2))
      with (1337 * (t1 - t2) + 17 * (r1 - r2)) by lia. }
  split; [done|]. unfold INT_MAX. split; [|split].
  - intros r t1 t2 H1 H2 Heq. apply Hiff in Heq.
    replace (1337 * (t1 - t2) + 17 * (r - r)) with (1337 * (t1 - t2))
      in Heq by lia.
    apply odd_multiple_mod in Heq; [lia|reflexivity|lia].
  - intros t r1 r2 H1 H2 Heq. apply Hiff in Heq.
    replace (1337 * (t - t) + 17 * (r1 - r2)) with (17 * (r1 - r2))
      in Heq by lia.
    apply odd_multiple_mod in Heq; [lia|reflexivity|lia].
  - intros t r. apply Hiff.
    by replace (1337 * (t + 17 - t) + 17 * (r - (r + 1337))) with 0 by lia.
Qed.

(** ** The counting phase at every moment *)

(** How many elements the workers have dealt with. *)
Lemma length_dones blocks cs :
  Forall2 cursor_ok blocks cs →
  Z.of_nat (length (dones blocks cs))
  = sumZ (zip_with (λ b c, c - b.1) blocks cs).
Proof.
  unfold dones. induction 1 as [|b c bs cs Hc _ IH]; [done|].
  cbn [zip_with concat sumZ foldr]. rewrite length_app, length_done_idx.
  unfold sumZ in IH. destruct Hc; lia.
Qed.

Section counting_at_every_moment.
Variables (a : Args) (data : list Z) (blocks : list (Z * Z)).
Hypothesis Hvalid : valid_args a.
Hypothesis Hmm : minv a ≤ maxv a.
Hypothesis Hdata : in_range a data.
Hypothesis Htiles : tiles (N a) blocks.

Lemma dones_bins_ok cs :
  Forall2 cursor_ok blocks cs →
  Forall (λ i, 0 ≤ bin_at a data i < bins a) (dones blocks cs) ∧
  Z.of_nat (length (dones blocks cs)) ≤ N a.
Proof.
  intros Hcs. split.
  - apply Forall_forall. intros i Hi. apply (bin_at_ok a data); [done..|].
    eapply elem_of_sublist in Hi; [|by apply dones_sublist].
    rewrite Htiles in Hi. apply elem_of_seqZ in Hi. lia.
  - pose proof (dones_length (N a) blocks Htiles cs Hcs).
    pose proof (valid_N a Hvalid). lia.
Qed.

(** X14.  The mutex variant at every moment.  After any number of steps
    of any interleaving, starting from zeroed bins and free locks: nothing
    has faulted; no two workers hold the lock of the same bin; a lock is
    taken exactly when a worker holds it; and no increment is lost or
    counted twice: every bin holds the number of elements of that bin whose
    increment has been stored, and the bins sum to the number of
    increments stored. *)
Theorem mutex_excludes_and_counts (sched : list nat) :
  ∃ ws s,
    pool_run (mtx_step a data) sched
      (mtx_init blocks,
       mkStore (replicate (Z.to_nat (bins a)) 0)
               (replicate (Z.to_nat (bins a)) false))
    = Some (ws, s) ∧
    (∀ t1 t2 w1 w2 x, ws !! t1 = Some w1 → ws !! t2 = Some w2 →
       mtx_holds w1 = Some x → mtx_holds w2 = Some x → t1 = t2) ∧
    (∀ x, 0 ≤ x < bins a →
       ms_locks s !! Z.to_nat x = Some true ↔
       ∃ t w, ws !! t = Some w ∧ mtx_holds w = Some x) ∧
    ms_hist s = hist_of a data (dones blocks (mtx_counted <$> ws)) ∧
    sumZ (ms_hist s)
    = sumZ (zip_with (λ b w, mtx_counted w - b.1) blocks ws) ∧
    sumZ (ms_hist s) ≤ N a.
Proof.
  pose proof (valid_N a Hvalid) as HN.
  pose proof (bin_at_ok a data Hvalid Hmm Hdata) as Hbin.
  destruct Hdata as [Hlen _].
  destruct (pool_run_inv (mtx_step a data) (mtx_inv a data blocks)
              (mtx_step_inv a data blocks HN Htiles Hlen Hbin) sched
              (mtx_init blocks)
              (mkStore (replicate (Z.to_nat (bins a)) 0)
                       (replicate (Z.to_nat (bins a)) false))
              (mtx_inv_init a data blocks Hlen))
    as (ws & s & Hrun & _ & Hcur & _ & Hhist & _ & Hheld & Hexcl).
  exists ws, s. split; [done|]. split; [done|]. split; [done|].
  split; [done|]. destruct (dones_bins_ok _ Hcur) as [Hok Hle].
  assert (sumZ (ms_hist s)
          = Z.of_nat (length (dones blocks (mtx_counted <$> ws)))) as Hs
    by (rewrite Hhist; by apply sumZ_hist_of).
  split; [|by rewrite Hs].
  by rewrite Hs, length_dones, zip_with_fmap_r.
Qed.

(** X15.  The atomic variant at every moment, with the [fetch_add] of
    hist_threads.cpp and with the [omp atomic update] of hist_openmp.cpp.
    After any number of steps of any interleaving nothing has faulted,
    every bin holds the number of elements of that bin dealt with so far,
    and the bins sum to the number of loop iterations completed. *)
Theorem atomic_counts_exactly (incr : Z → option Z) (sched : list nat) :
  incr = fetch_add_ll ∨ incr = incr_ll →
  ∃ ws hist,
    pool_run (atomic_step a data incr) sched
      (cnt_init blocks, replicate (Z.to_nat (bins a)) 0)
    = Some (ws, hist) ∧
    hist = hist_of a data (dones blocks (cw_i <$> ws)) ∧
    sumZ hist = sumZ (zip_with (λ b w, cw_i w - b.1) blocks ws) ∧
    sumZ hist ≤ N a.
Proof.
  intros Hincr.
  assert (∀ v, 0 ≤ v < LLONG_MAX → incr v = Some (v + 1)) as Hinc.
  { destruct Hincr as [-> | ->];
      auto using fetch_add_ll_small, incr_ll_small. }
  pose proof (valid_N a Hvalid) as HN.
  pose proof (bin_at_ok a data Hvalid Hmm Hdata) as Hbin.
  destruct Hdata as [Hlen _].
  destruct (pool_run_inv (atomic_step a data incr) (atomic_inv a data blocks)
              (atomic_step_inv a data blocks HN Htiles Hlen Hbin incr Hinc)
              sched (cnt_init blocks) (replicate (Z.to_nat (bins a)) 0)
              (atomic_inv_init a data blocks))
    as (ws & hist & Hrun & _ & Hcur & Hhist).
  exists ws, hist. split; [done|]. split; [done|].
  destruct (dones_bins_ok _ Hcur) as [Hok Hle].
  assert (sumZ hist = Z.of_nat (length (dones blocks (cw_i <$> ws)))) as Hs
    by (rewrite Hhist; by apply sumZ_hist_of).
  split; [|by rewrite Hs].
  by rewrite Hs, length_dones, zip_with_fmap_r.
Qed.

(** X16.  The private variant of hist_threads.cpp at every moment.  After
    any number of steps of any interleaving nothing has faulted, and row
    [t] of [locals] is the histogram of the elements worker [t] has dealt
    with, whatever the other workers did meanwhile: it sums to the number
    of loop iterations worker [t] has completed. *)
Theorem private_rows_are_private (sched : list nat) :
  ∃ ws locals,
    pool_run (priv_step a data) sched
      (cnt_init blocks,
       replicate (length blocks) (replicate (Z.to_nat (bins a)) 0))
    = Some (ws, locals) ∧
    length locals = length blocks ∧
    ∀ t b w, blocks !! t = Some b → ws !! t = Some w →
      locals !! t = Some (hist_of a data (done_idx b (cw_i w))) ∧
      sumZ (hist_of a data (done_idx b (cw_i w))) = cw_i w - b.1.
Proof.
  pose proof (valid_N a Hvalid) as HN.
  pose proof (bin_at_ok a data Hvalid Hmm Hdata) as Hbin.
  destruct Hdata as [Hlen _].
  destruct (pool_run_inv (priv_step a data) (priv_inv a data blocks)
              (priv_step_inv a data blocks HN Htiles Hlen Hbin)
              sched (cnt_init blocks)
              (replicate (length blocks) (replicate (Z.to_nat (bins a)) 0))
              (priv_inv_init a data blocks))
    as (ws & locals & Hrun & Hend & Hcur & Hloc).
  exists ws, locals. split; [done|].
  pose proof (Forall2_length _ _ _ Hend) as Hl.
  split; [rewrite Hloc, length_zip_with; lia|].
  intros t b w Hb Hw. split.
  - rewrite Hloc. apply lookup_zip_with_Some. by exists b, w.
  - assert (cursor_ok b (cw_i w)) as Hc.
    { eapply Forall2_lookup_lr in Hcur; [done..|].
      by rewrite list_lookup_fmap, Hw. }
    rewrite sumZ_hist_of, length_done_idx; [destruct Hc; lia|].
    apply Forall_forall. intros i Hi. apply Hbin.
    eapply elem_of_sublist in Hi; [|by apply done_idx_sublist].
    apply elem_of_block_idx in Hi.
    by apply (tiles_in_range _ _ Htiles t b).
Qed.
End counting_at_every_moment.

Lemma mutex_excludes_and_counts_witness :
  let a := mkArgs 4 0 9 42 1 "mutex" 2 in
  let data := [4; 6; 4; 4] in
  let blocks := thread_blocks 4 2 in
  let sched := [0; 1; 1; 0]%nat in
  (valid_args a ∧ in_range a data ∧ tiles (N a) blocks) ∧
  ∃ ws s,
    pool_run (mtx_step a data) sched
      (mtx_init blocks,
       mkStore (replicate (Z.to_nat (bins a)) 0)
               (replicate (Z.to_nat (bins a)) false))
    = Some (ws, s) ∧
    (∀ t1 t2 w1 w2 x, ws !! t1 = Some w1 → ws !! t2 = Some w2 →
       mtx_holds w1 = Some x → mtx_holds w2 = Some x → t1 = t2) ∧
    (∀ x, 0 ≤ x < bins a →
       ms_locks s !! Z.to_nat x = Some true ↔
       ∃ t w, ws !! t = Some w ∧ mtx_holds w = Some x) ∧
    ms_hist s = hist_of a data (dones blocks (mtx_counted <$> ws)) ∧
    sumZ (ms_hist s)
    = sumZ (zip_with (λ b w, mtx_counted w - b.1) blocks ws) ∧
    sumZ (ms_hist s) ≤ N a.
Proof.
  assert (valid_args (mkArgs 4 0 9 42 1 "mutex" 2)) as Hv by solve_valid.
  assert (in_range (mkArgs 4 0 9 42 1 "mutex" 2) [4; 6; 4; 4]) as Hd.
  { split; [reflexivity|]. repeat constructor; simpl; lia. }
  assert (tiles 4 (thread_blocks 4 2)) as Ht
    by (apply thread_blocks_tiles; unfold INT_MAX; lia).
  split; [done|].
  apply (mutex_excludes_and_counts (mkArgs 4 0 9 42 1 "mutex" 2)
           [4; 6; 4; 4] (thread_blocks 4 2) Hv ltac:(simpl; lia) Hd Ht).
Defined.

Lemma atomic_counts_exactly_witness :
  let a := mkArgs 4 0 9 42 1 "atomic" 2 in
  let data := [4; 6; 7; 4] in
  let blocks := gomp_static 4 2 in
  let sched := [1; 0; 1]%nat in
  (valid_args a ∧ in_range a data ∧ tiles (N a) blocks) ∧
  ∃ ws hist,
    pool_run (atomic_step a data incr_ll) sched
      (cnt_init blocks, replicate (Z.to_nat (bins a)) 0)
    = Some (ws, hist) ∧
    hist = hist_of a data (dones blocks (cw_i <$> ws)) ∧
    sumZ hist = sumZ (zip_with (λ b w, cw_i w - b.1) blocks ws) ∧
    sumZ hist ≤ N a.
Proof.
  assert (valid_args (mkArgs 4 0 9 42 1 "atomic" 2)) as Hv by solve_valid.
  assert (in_range (mkArgs 4 0 9 42 1 "atomic" 2) [4; 6; 7; 4]) as Hd.
  { split; [reflexivity|]. repeat constructor; simpl; lia. }
  assert (tiles 4 (gomp_static 4 2)) as Ht
    by (apply gomp_static_tiles; lia).
  split; [done|].
  apply (atomic_counts_exactly (mkArgs 4 0 9 42 1 "atomic" 2)
           [4; 6; 7; 4] (gomp_static 4 2) Hv ltac:(simpl; lia) Hd Ht incr_ll).
  by right.
Defined.

Lemma private_rows_are_private_witness :
  let a := mkArgs 4 0 9 42 1 "private" 2 in
  let data := [4; 6; 7; 4] in
  let blocks := thread_blocks 4 2 in
  let sched := [1; 0; 1]%nat in
  (valid_args a ∧ in_range a data ∧ tiles (N a) blocks) ∧
  ∃ ws locals,
    pool_run (priv_step a data) sched
      (cnt_init blocks,
       replicate (length blocks) (replicate (Z.to_nat (bins a)) 0))
    = Some (ws, locals) ∧
    length locals = length blocks ∧
    ∀ t b w, blocks !! t = Some b → ws !! t = Some w →
      locals !! t = Some (hist_of a data (done_idx b (cw_i w))) ∧
      sumZ (hist_of a data (done_idx b (cw_i w))) = cw_i w - b.1.
Proof.
  assert (valid_args (mkArgs 4 0 9 42 1 "private" 2)) as Hv by solve_valid.
  assert (in_range (mkArgs 4 0 9 42 1 "private" 2) [4; 6; 7; 4]) as Hd.
  { split; [reflexivity|]. repeat constructor; simpl; lia. }
  assert (tiles 4 (thread_blocks 4 2)) as Ht
    by (apply thread_blocks_tiles; unfold INT_MAX; lia).
  split; [done|].
  apply (private_rows_are_private (mkArgs 4 0 9 42 1 "private" 2)
           [4; 6; 7; 4] (thread_blocks 4 2) Hv ltac:(simpl; lia) Hd Ht).
Defined.

(** ** The shape of the partition *)

(** X17.  How hist_threads.cpp spreads the work.  No worker gets more
    than [chunk] indices; the sizes never grow from one worker to the
    next; behind a worker with less than a full chunk every worker is
    idle; and worker [t] has work exactly when [t < ceil (n / chunk)], so
    that fewer than [T] threads may work even when there are at least [T]
    elements. *)
Theorem partition_shape (n T : Z) :
  0 ≤ n < 2 ^ 63 → 1 ≤ T ≤ INT_MAX →
  let size t := Z.max 0 (end_ n T t - start n T t) in
  (∀ t, 0 ≤ t < T → size t ≤ chunk n T) ∧
  (∀ t t', 0 ≤ t ≤ t' → t' < T → size t' ≤ size t) ∧
  (∀ t t', 0 ≤ t < t' → t' < T → size t < chunk n T → size t' = 0) ∧
  (∀ t, 0 ≤ t < T → 0 < n →
     0 < size t ↔ t < (n + chunk n T - 1) / chunk n T) ∧
  (0 < n → (n + chunk n T - 1) / chunk n T ≤ T).
Proof.
  intros Hn HT size.
  pose proof (chunk_ceil n T Hn HT) as Hc.
  pose proof (chunk_nonneg n T Hn HT) as Hc0.
  assert (∀ t, 0 ≤ t < T →
            size t = Z.max 0 (Z.min n ((t + 1) * chunk n T) - t * chunk n T))
    as Hsize.
  { intros t Ht. unfold size.
    by rewrite start_unwrapped, end_unwrapped by lia. }
  set (c := chunk n T) in *.
  assert (∀ t, 0 < n → 0 ≤ t → t < (n + c - 1) / c ↔ t * c < n) as Hact.
  { intros t Hn0 Ht. assert (0 < c) as Hcpos by nia.
    pose proof (Z.mul_div_le (n + c - 1) c Hcpos).
    pose proof (Z.mul_succ_div_gt (n + c - 1) c Hcpos).
    split; intros; nia. }
  split; [|split; [|split; [|split]]].
  - intros t Ht. rewrite Hsize by done. nia.
  - intros t t' Ht Ht'. rewrite !Hsize by lia. nia.
  - intros t t' Ht Ht'. rewrite !Hsize by lia. nia.
  - intros t Ht Hn0. rewrite Hsize, Hact by lia. nia.
  - intros Hn0. assert (0 < c) as Hcpos by nia.
    enough ((n + c - 1) / c < T + 1) by lia.
    apply Z.div_lt_upper_bound; [done|]. nia.
Qed.

Lemma partition_shape_witness :
  let size t := Z.max 0 (end_ 9 8 t - start 9 8 t) in
  chunk 9 8 = 2 ∧ (9 + 2 - 1) / 2 = 5 ∧
  (∀ t, 0 ≤ t < 8 → size t ≤ chunk 9 8) ∧
  (∀ t t', 0 ≤ t ≤ t' → t' < 8 → size t' ≤ size t) ∧
  (∀ t t', 0 ≤ t < t' → t' < 8 → size t < chunk 9 8 → size t' = 0) ∧
  (∀ t, 0 ≤ t < 8 → 0 < 9 →
     0 < size t ↔ t < (9 + chunk 9 8 - 1) / chunk 9 8) ∧
  (0 < 9 → (9 + chunk 9 8 - 1) / chunk 9 8 ≤ 8).
Proof.
  split; [reflexivity|]. split; [reflexivity|].
  apply (partition_shape 9 8); unfold INT_MAX; lia.
Defined.

(** ** When the two backends agree *)

(** [T] blocks of [n / T] consecutive indices each. *)
Definition even_blocks (n T : Z) : list (Z * Z) :=
  (λ t : nat, (Z.of_nat t * (n / T), (Z.of_nat t + 1) * (n / T)))
    <$> seq 0 (Z.to_nat T).

Lemma thread_blocks_even n T :
  0 ≤ n < 2 ^ 63 → 1 ≤ T ≤ INT_MAX → n mod T = 0 →
  thread_blocks n T = even_blocks n T.
Proof.
  intros Hn HT Hmod. unfold thread_blocks, even_blocks.
  apply list_fmap_ext. intros i t Hi.
  apply lookup_seq in Hi as [-> Hi]. simpl.
  pose proof (chunk_unwrapped n T Hn HT) as Hc.
  pose proof (Z.div_mod n T ltac:(lia)) as Hdm. rewrite Hmod in Hdm.
  assert (chunk n T = n / T) as Hq.
  { rewrite Hc. symmetry. apply (Z.div_unique _ _ _ (T - 1)); lia. }
  unfold thread_block.
  rewrite start_unwrapped, end_unwrapped, Hq by lia.
  f_equal. nia.
Qed.

(** X18.  With a requested thread count that divides the element count,
    hist_threads.cpp cuts the indices into equal blocks, one per worker.
    Whenever the OpenMP runtime forms the team it is asked for and its
    static schedule cuts the iterations into the same equal blocks, there
    is one dataset and one histogram for the two backends: under all
    interleavings neither program faults in its two phases, either can be
    run on until the phases return, and whenever they return they return
    that dataset, that histogram and [a.N] as [sum_hist]. *)
Theorem backends_agree_when_divisible {G : Type} {rng : Rng G}
    {rng_laws : RngLaws G} {omp : OmpRuntime} {omp_laws : OmpLaws}
    (a : Args) (r : Z) :
  valid_args a → minv a ≤ maxv a → supported (variant a) = true →
  N a ≤ data_max_size → 1 ≤ threads a → N a mod threads a = 0 →
  thread_blocks (N a) (threads_T a) = even_blocks (N a) (threads a) ∧
  (omp_get_num_threads (Some (threads a)) = threads a →
   omp_static (N a) (threads a) = even_blocks (N a) (threads a) →
   ∃ d hist,
     ∀ (be : backend) (e : rep_env),
       phases be a r e ≠ Fault ∧
       (∀ out, phases be a r e = Done out → out = (d, Some (hist, N a))) ∧
       (∃ gs cs, phases be a r (more e gs cs) = Done (d, Some (hist, N a)))).
Proof.
  intros Hv Hmm Hsup Hmax Hth Hmod.
  pose proof (valid_N a Hv) as HN. pose proof (valid_threads a Hv) as HT.
  assert (threads_T a = threads a) as HTa.
  { unfold threads_T. destruct (Z.leb_spec (threads a) 0); [lia|done]. }
  pose proof (thread_blocks_even (N a) (threads a) HN ltac:(lia) Hmod) as Heq.
  rewrite HTa. split; [done|]. intros Hteam Hstatic.
  apply (phases_agree a r (thread_blocks (N a) (threads a))); try done.
  { apply thread_blocks_tiles; [done|lia]. }
  intros be e data res Hph.
  destruct (phases_settle be a r e Hv Hmm Hsup) as (_ & Hd & _).
  destruct (Hd data res Hph) as (Hs & _ & _).
  destruct be; simpl in Hs; [by rewrite HTa in Hs|].
  assert (omp_request a = Some (threads a)) as Hreq.
  { unfold omp_request. by destruct (Z.gtb_spec (threads a) 0); [|lia]. }
  by rewrite Hreq, Hteam, as_ll_small, Hstatic, <- Heq in Hs.
Qed.

Lemma backends_agree_when_divisible_witness :
  let a := mkArgs 4 0 9 42 1 "atomic" 2 in
  let out := ([4; 6; 7; 3], Some ([0; 0; 0; 1; 1; 0; 1; 1; 0; 0], 4)) in
  (valid_args a ∧ even_blocks 4 2 = [(0, 2); (2, 4)] ∧
   gomp_team 4 (Some 2) = 2 ∧ gomp_static 4 2 = even_blocks 4 2 ∧
   @phases Z lcg (gomp 4) Threads a 0
     (mkEnv [0; 0; 1; 1]%nat [0; 0; 1; 1]%nat 0 0) = Done out ∧
   @phases Z lcg (gomp 4) OpenMP a 0
     (mkEnv [1; 1; 0; 0]%nat [1; 0; 1; 0]%nat 0 0) = Done out) ∧
  thread_blocks (N a) (threads_T a) = even_blocks (N a) (threads a) ∧
  ∃ d hist,
    ∀ (be : backend) (e : rep_env),
      @phases Z lcg (gomp 4) be a 0 e ≠ Fault ∧
      (∀ out, @phases Z lcg (gomp 4) be a 0 e = Done out →
         out = (d, Some (hist, N a))) ∧
      (∃ gs cs,
         @phases Z lcg (gomp 4) be a 0 (more e gs cs)
         = Done (d, Some (hist, N a))).
Proof.
  split; [split; [solve_valid|repeat split; vm_compute; reflexivity]|].
  destruct (@backends_agree_when_divisible Z lcg lcg_laws (gomp 4) gomp4_laws
              (mkArgs 4 0 9 42 1 "atomic" 2) 0) as [Hblocks Hagree];
    [solve_valid|simpl; lia|reflexivity|by vm_compute|simpl; lia
    |reflexivity|].
  split; [exact Hblocks|]. apply Hagree; reflexivity.
Defined.

(** ** The CSV lines *)

(** How often a character occurs in a string. *)
Fixpoint count_char (c : ascii) (s : string) : nat :=
  match s with
  | String c' s' => (if Ascii.eqb c c' then 1 else 0) + count_char c s'
  | EmptyString => 0
  end.

Lemma count_char_app c s1 s2 :
  count_char c (s1 +:+ s2) = (count_char c s1 + count_char c s2)%nat.
Proof.
  induction s1 as [|c' s1 IH]; [done|].
  change (String c' s1 +:+ s2) with (String c' (s1 +:+ s2)).
  simpl. rewrite IH. lia.
Qed.

Lemma string_app_assoc (s1 s2 s3 : string) :
  s1 +:+ (s2 +:+ s3) = (s1 +:+ s2) +:+ s3.
Proof.
  induction s1 as [|c s1 IH]; [done|].
  change (String c (s1 +:+ (s2 +:+ s3)) = String c ((s1 +:+ s2) +:+ s3)).
  by rewrite IH.
Qed.

(** A decimal number holds digits, behind one minus sign at most. *)
Lemma count_char_uint c d :
  digit_val c = None →
  count_char c (NilEmpty.string_of_uint d) = 0%nat.
Proof.
  intros Hc. induction d; simpl; [done|..]; rewrite IHd;
    match goal with
    | |- context [Ascii.eqb c ?x] =>
        destruct (Ascii.eqb_spec c x) as [->|_]; [by vm_compute in Hc|done]
    end.
Qed.

Lemma count_char_uint0 c d :
  digit_val c = None →
  count_char c (NilZero.string_of_uint d) = 0%nat.
Proof.
  intros Hc. destruct d; try (by apply (count_char_uint c)).
  simpl. destruct (Ascii.eqb_spec c "0") as [->|_]; [by vm_compute in Hc|done].
Qed.

Lemma count_char_show c z :
  digit_val c = None → c ≠ "-"%char → count_char c (show z) = 0%nat.
Proof.
  intros Hc Hm. unfold show.
  destruct (Z.to_int z) as [d|d]; cbn [NilZero.string_of_int count_char].
  - by apply count_char_uint0.
  - destruct (Ascii.eqb_spec c "-") as [->|_]; [done|].
    by rewrite count_char_uint0.
Qed.

(** A line of twelve fields: eleven commas, and one line feed at its
    end. *)
Definition twelve_fields (line : string) : Prop :=
  count_char "," line = 11%nat ∧ count_char "010" line = 1%nat ∧
  ∃ body, line = body +:+ newline.

Lemma csv_line_twelve_fields rec :
  count_char "," (r_backend rec) = 0%nat →
  count_char "010" (r_backend rec) = 0%nat →
  count_char "," (r_variant rec) = 0%nat →
  count_char "010" (r_variant rec) = 0%nat →
  twelve_fields (csv_line rec).
Proof.
  intros Hb1 Hb2 Hv1 Hv2. unfold twelve_fields, csv_line. split; [|split].
  - rewrite !count_char_app, Hb1, Hv1, !count_char_show by done. done.
  - rewrite !count_char_app, Hb2, Hv2, !count_char_show by done. done.
  - eexists. by rewrite !string_app_assoc.
Qed.

(** The lines of a list of events that holds no header and only records
    of twelve fields. *)
Lemma stdout_lines_records evs :
  Forall (λ ev, match ev with
                | EvHeader => False
                | EvRecord rec => twelve_fields (csv_line rec)
                | _ => True
                end) evs →
  Forall twelve_fields (stdout_lines evs) ∧
  stdout_lines evs = csv_line <$> records evs.
Proof.
  unfold stdout_lines, records.
  induction 1 as [|ev evs Hev _ [IH1 IH2]]; [done|].
  destruct ev as [| r data | rec |]; csimpl; try done.
  split; [by constructor|]. by rewrite IH2.
Qed.

(** The standard output of a returning run of one of the two parallel
    programs. *)
Lemma run_main_stdout {G : Type} {rng : Rng G} {omp : OmpRuntime}
    be a env evs st :
  run_main be a false env = Done (evs, st) →
  Forall twelve_fields (stdout_lines evs) ∧
  stdout_lines evs = csv_line <$> records evs.
Proof.
  intros Hrun. apply stdout_lines_records.
  destruct (supported (variant a)) eqn:Hsup.
  2:{ destruct be.
      - unfold run_main in Hrun.
        rewrite threads_main_unsupported in Hrun by done.
        injection Hrun as <- <-. by repeat constructor.
      - rewrite (run_main_reps OpenMP) in Hrun by auto.
        eapply run_reps_events; [|done]. intros r out Hb.
        cbv beta in Hb.
        apply rep_body_Done in Hb as (data & res & Hph & ->).
        destruct (normalize_fields a) as (_ & _ & _ & Hvar & _).
        apply phases_Done_supported in Hph. rewrite Hvar, Hsup in Hph.
        destruct res as [hs|];
          [by pose proof (proj1 Hph (mk_is_Some _ _ eq_refl))|].
        by repeat constructor. }
  rewrite run_main_reps in Hrun by auto.
  eapply run_reps_events; [|done]. intros r out Hb. cbv beta in Hb.
  apply rep_body_Done in Hb as (data & res & Hph & ->).
  destruct (normalize_fields a) as (_ & _ & _ & Hvar & _).
  destruct res as [hs|]; simpl;
    (constructor; [done|]; constructor; [|constructor]); [|done].
  apply csv_line_twelve_fields; simpl; rewrite ?Hvar;
    try (by destruct be);
    by destruct (supported_cases _ Hsup) as [->|[->| ->]].
Qed.

(** X19.  The output is well-formed CSV.  Every line a returning run of
    one of the three programs writes to standard output has twelve fields
    like the header: a variant name reaches a record only if it is one of
    the three supported ones, so that no text given to [--variant] can add
    a comma or a line feed to a line.  Without [--csv-header] the header is
    not among the lines. *)
Theorem csv_output_well_formed {G : Type} {rng : Rng G} {omp : OmpRuntime}
    (be : backend) (a : Args) (env : Z → rep_env) (evs : list event)
    (st : Z) :
  run_main be a false env = Done (evs, st) ∨
  seq_main a false env = Done (evs, st) →
  twelve_fields csv_header ∧
  Forall twelve_fields (stdout_lines evs) ∧
  stdout_lines evs = csv_line <$> records evs.
Proof.
  intros Hrun. split.
  { split; [reflexivity|]. split; [reflexivity|]. by eexists. }
  destruct Hrun as [Hrun|Hrun]; [by eapply run_main_stdout|].
  apply stdout_lines_records.
  unfold seq_main in Hrun. simpl in Hrun.
  eapply run_reps_events; [|done]. intros r out Hb. cbv beta in Hb.
  apply seq_rep_Done in Hb as (data & hist & _ & _ & ->).
  simpl. constructor; [done|]. constructor; [|constructor].
  by apply csv_line_twelve_fields.
Qed.

Lemma csv_output_well_formed_witness :
  let a := mkArgs 2 3 0 (2 ^ 32 - 1) 1 "mutex" 0 in
  let env := λ _ : Z, mkEnv [0; 1; 2; 3]%nat [0; 0; 0; 0; 1; 1; 1; 1]%nat 7 9 in
  let evs := [EvGenerated 0 [3; 3];
              EvRecord (mkRecord "threads" "mutex" 4 2 4 0 3 4294967295
                          7 9 16 2)] in
  (@run_main Z lcg (gomp 4) Threads a false env = Done (evs, 0) ∧
   stdout_lines evs = ["threads,mutex,4,2,4,0,3,4294967295,7,9,16,2" +:+ newline]) ∧
  twelve_fields csv_header ∧
  Forall twelve_fields (stdout_lines evs) ∧
  stdout_lines evs = csv_line <$> records evs.
Proof.
  split; [split; vm_compute; reflexivity|].
  apply (@csv_output_well_formed Z lcg (gomp 4) Threads
           (mkArgs 2 3 0 (2 ^ 32 - 1) 1 "mutex" 0)
           (λ _ : Z, mkEnv [0; 1; 2; 3]%nat [0; 0; 0; 0; 1; 1; 1; 1]%nat 7 9)
           _ 0).
  left. vm_compute. reflexivity.
Defined.

(** ** Exit statuses *)

Lemma parse_args_variant {conv : Conv} d argv a :
  parse_args d argv = Some a →
  variant a = get_str argv "--variant" (variant d) ∧
  ∃ rp, get_int argv "--rep" (rep d) = Some rp ∧ rep a = rp.
Proof.
  intros Hp. apply parse_args_Some in Hp
    as (n & mn & mx & sd & rp & th & _ & _ & _ & _ & Hrp & _ & ->).
  split; [done|]. by exists rp.
Qed.

(** X20.  The statuses a returning program returns, from its command
    line.  hist_threads.cpp returns 2 exactly when [--csv-header] is absent
    and the text behind [--variant] is none of the three names, and 0
    otherwise; hist_openmp.cpp returns 2 only if, in addition, [--rep]
    asks for at least one repetition; hist_seq.cpp always returns 0. *)
Theorem exit_statuses {G : Type} {rng : Rng G} {omp : OmpRuntime}
    {conv : Conv} (hw : Z) (argv : list string) (env : Z → rep_env)
    (evs : list event) (st : Z) :
  (threads_cli hw argv env = Done (evs, st) →
   (st = 0 ∨ st = 2) ∧
   (st = 2 ↔
    (("--csv-header" ∉ argv) ∧
     supported (get_str argv "--variant" "private") = false))) ∧
  (omp_cli argv env = Done (evs, st) →
   (st = 0 ∨ st = 2) ∧
   (st = 2 ↔
    (("--csv-header" ∉ argv) ∧
     supported (get_str argv "--variant" "private") = false ∧
     ∃ rp, get_int argv "--rep" 1 = Some rp ∧ 0 < rp))) ∧
  (seq_cli argv env = Done (evs, st) → st = 0).
Proof.
  unfold threads_cli, omp_cli, seq_cli.
  destruct (has_flag argv "--csv-header") eqn:Hh.
  { apply has_flag_elem_of in Hh.
    split; [|split]; intros [= <- <-]; [| |done];
      (split; [by left|]; split; [done|]; by intros [? _]). }
  assert ("--csv-header" ∉ argv) as Hno.
  { intros Hin%has_flag_elem_of. congruence. }
  split; [|split].
  - destruct (parse_args _ argv) as [a|] eqn:Hp; cbn [obind of_option];
      [|done].
    apply parse_args_variant in Hp as (Hvar & _). simpl in Hvar.
    rewrite <- Hvar. intros Hrun.
    destruct (supported (variant a)) eqn:Hsup.
    + change (threads_main a false env)
        with (run_main Threads a false env) in Hrun.
      rewrite run_main_reps in Hrun by auto.
      apply run_reps_status in Hrun as ->.
      * split; [by left|]. split; [done|]. by intros [_ ?].
      * intros r out. apply threads_rep_status.
    + rewrite threads_main_unsupported in Hrun by done.
      injection Hrun as <- <-. split; [by right|]. done.
  - destruct (parse_args _ argv) as [a|] eqn:Hp; cbn [obind of_option];
      [|done].
    apply parse_args_variant in Hp as (Hvar & rp & Hrp & Hrep).
    simpl in Hvar, Hrp. rewrite <- Hvar. intros Hrun.
    destruct (supported (variant a)) eqn:Hsup.
    + change (omp_main a false env)
        with (run_main OpenMP a false env) in Hrun.
      rewrite run_main_reps in Hrun by auto.
      apply run_reps_status in Hrun as ->.
      * split; [by left|]. split; [done|]. by intros (_ & ? & _).
      * intros r out. apply omp_rep_status.
        destruct (normalize_fields a) as (_ & _ & _ & -> & _). done.
    + rewrite omp_unsupported_rejected_late in Hrun by done.
      destruct (Z.leb_spec (rep a) 0) as [Hle|Hlt].
      * injection Hrun as <- <-. split; [by left|]. split; [done|].
        intros (_ & _ & rp' & Hrp' & Hpos). rewrite Hrp in Hrp'.
        injection Hrp' as <-. lia.
      * destruct (gen_phase _ _ _ _) as [data| |]; simpl in Hrun; try done.
        injection Hrun as <- <-. split; [by right|].
        split; [|done]. intros _. split; [done|]. split; [done|].
        exists rp. split; [done|lia].
  - destruct (seq_parse_args _ argv) as [a|] eqn:Hp; cbn [obind of_option];
      [|done].
    unfold seq_main. cbv zeta. intros Hrun.
    apply run_reps_status in Hrun; [done|].
    intros r out Hb. by apply seq_rep_Done in Hb as (? & ? & _ & _ & ->).
Qed.

(** ** The private variant of hist_openmp.cpp at every moment *)

(** X21.  After any number of steps of any interleaving nothing has
    faulted; the [hist_local] of every thread is the histogram of the
    elements that thread has dealt with; and [hist_global] is the histogram
    of the whole blocks of the threads that have left the critical region:
    a merge is never seen half done, and the bins of [hist_global] sum to
    the number of elements of the blocks merged. *)
Theorem omp_private_merges_whole_blocks (a : Args) (data : list Z)
    (blocks : list (Z * Z)) (sched : list nat) :
  valid_args a → minv a ≤ maxv a → in_range a data → tiles (N a) blocks →
  ∃ ws s,
    pool_run (opriv_step a data (bins a) (Z.of_nat (length blocks))) sched
      (opriv_init (bins a) blocks,
       mkOstore (replicate (Z.to_nat (bins a)) 0) 0)
    = Some (ws, s) ∧
    Forall2 (λ b w, ow_local w = hist_of a data (done_idx b (ow_i w)))
      blocks ws ∧
    os_hist s = hist_of a data (concat (zip_with opriv_contrib blocks ws)) ∧
    sumZ (os_hist s)
    = Z.of_nat (length (concat (zip_with opriv_contrib blocks ws))) ∧
    sumZ (os_hist s) ≤ N a.
Proof.
  intros Hvalid Hmm Hdata Htiles.
  pose proof (valid_N a Hvalid) as HN.
  pose proof (bin_at_ok a data Hvalid Hmm Hdata) as Hbin.
  destruct Hdata as [Hlen _].
  destruct (pool_run_inv
              (opriv_step a data (bins a) (Z.of_nat (length blocks)))
              (opriv_inv a data blocks)
              (opriv_step_inv a data blocks HN Htiles Hlen Hbin)
              sched (opriv_init (bins a) blocks)
              (mkOstore (replicate (Z.to_nat (bins a)) 0) 0)
              (opriv_inv_init a data blocks))
    as (ws & s & Hrun & Hok & Hhist & _).
  exists ws, s. split; [done|]. split.
  { eapply Forall2_impl; [done|]. by intros b w (_ & _ & ? & _). }
  split; [done|].
  pose proof (opriv_contrib_sublist blocks ws) as Hsub.
  assert (sumZ (os_hist s)
          = Z.of_nat (length (concat (zip_with opriv_contrib blocks ws))))
    as Hs.
  { rewrite Hhist. apply sumZ_hist_of, Forall_forall. intros i Hi.
    apply Hbin. eapply elem_of_sublist in Hi; [|done].
    rewrite Htiles in Hi. apply elem_of_seqZ in Hi. lia. }
  split; [done|]. rewrite Hs.
  apply sublist_length in Hsub. rewrite Htiles, length_seqZ in Hsub. lia.
Qed.

Lemma omp_private_merges_whole_blocks_witness :
  let a := mkArgs 4 0 9 42 1 "private" 2 in
  let data := [4; 6; 4; 4] in
  let blocks := gomp_static 4 2 in
  let sched := [0; 0; 0; 1; 1; 1; 0]%nat in
  ∃ ws s,
    pool_run (opriv_step a data (bins a) (Z.of_nat (length blocks))) sched
      (opriv_init (bins a) blocks,
       mkOstore (replicate (Z.to_nat (bins a)) 0) 0)
    = Some (ws, s) ∧
    Forall2 (λ b w, ow_local w = hist_of a data (done_idx b (ow_i w)))
      blocks ws ∧
    os_hist s = hist_of a data (concat (zip_with opriv_contrib blocks ws)) ∧
    sumZ (os_hist s)
    = Z.of_nat (length (concat (zip_with opriv_contrib blocks ws))) ∧
    sumZ (os_hist s) ≤ N a.
Proof.
  apply (omp_private_merges_whole_blocks (mkArgs 4 0 9 42 1 "private" 2)
           [4; 6; 4; 4] (gomp_static 4 2)).
  - solve_valid.
  - simpl. lia.
  - split; [reflexivity|]. repeat constructor; simpl; lia.
  - apply gomp_static_tiles; lia.
Defined.

(** ** scripts/run_bench.sh: the argument loop *)

(** The flags of the script, and the variable a flag sets. *)
Definition bench_flags : list string :=
  ["--backend"; "--n"; "--min"; "--max"; "--reps"; "--threads"; "--seed"].

Definition bench_value (flag : string) (b : bench) : option string :=
  if String.eqb flag "--backend" then Some (sh_BACKEND b)
  else if String.eqb flag "--n" then Some (sh_N b)
  else if String.eqb flag "--min" then Some (sh_MIN b)
  else if String.eqb flag "--max" then Some (sh_MAX b)
  else if String.eqb flag "--reps" then Some (sh_REPS b)
  else if String.eqb flag "--threads" then Some (sh_THREADS b)
  else if String.eqb flag "--seed" then Some (sh_SEED b)
  else None.

Ltac case_eqb f :=
  match goal with
  | |- context [String.eqb f ?x] => destruct (String.eqb_spec f x) as [->|?]
  end.

Lemma bench_assign_known flag v b :
  flag ∈ bench_flags ↔ is_Some (bench_assign flag v b).
Proof.
  unfold bench_flags, bench_assign. rewrite !elem_of_cons, elem_of_nil.
  repeat (case_eqb flag; [split; [intros _; by eexists|intros _; auto 10]|]).
  split; [|by intros [? ?]].
  intros H. repeat (destruct H as [H|H]; [done|]). done.
Qed.

Lemma bench_assign_value flag v b b' :
  bench_assign flag v b = Some b' →
  bench_value flag b' = Some v ∧
  ∀ f, f ≠ flag → bench_value f b' = bench_value f b.
Proof.
  unfold bench_assign.
  repeat (case_eqb flag;
    [intros [= <-]; split; [done|]; intros f Hf; unfold bench_value; simpl;
     repeat (case_eqb f; [done|]); done|]).
  done.
Qed.

Lemma bench_args_app args : ∀ b b1 more,
  bench_args args b = inr b1 →
  bench_args (args ++ more) b = bench_args more b1.
Proof.
  remember (length args) as n eqn:Hn. revert args Hn.
  induction n as [n IH] using lt_wf_ind.
  intros [|flag [|v rest]] Hn b b1 more.
  - by intros [= ->].
  - simpl. by destruct (bench_assign flag "" b).
  - change ((flag :: v :: rest) ++ more) with (flag :: v :: (rest ++ more)).
    cbn [bench_args]. destruct (bench_assign flag v b) as [b'|]; [|done].
    apply (IH (length rest)); [simpl in Hn; lia|done].
Qed.

(** X22.  The argument loop of the script.  Behind arguments the loop has
    accepted: a flag with a value sets its variable to that value whatever
    was given for it before, so that, unlike in the three programs, the last
    occurrence of a flag decides, and leaves the other variables alone; an
    argument that is no flag stops the script with ["Arg desconocido"],
    whatever follows it; and a flag in last position, with no value behind
    it, stops the script as well. *)
Theorem bench_args_last_wins (args : list string) (b b1 : bench) :
  bench_args args b = inr b1 →
  (∀ flag v, flag ∈ bench_flags →
     ∃ b2, bench_args (args ++ [flag; v]) b = inr b2 ∧
           bench_value flag b2 = Some v ∧
           ∀ f, f ≠ flag → bench_value f b2 = bench_value f b1) ∧
  (∀ x more, x ∉ bench_flags →
     bench_args (args ++ x :: more) b = inl (UnknownArg x)) ∧
  (∀ flag, flag ∈ bench_flags →
     bench_args (args ++ [flag]) b = inl (UnboundValue flag)).
Proof.
  intros Hargs. split; [|split].
  - intros flag v Hflag.
    apply (bench_assign_known flag v b1) in Hflag as [b2 Hb2].
    exists b2. rewrite (bench_args_app _ _ _ _ Hargs). simpl. rewrite Hb2.
    split; [done|]. by apply bench_assign_value.
  - intros x more Hx. rewrite (bench_args_app _ _ _ _ Hargs).
    assert (∀ v, bench_assign x v b1 = None) as Hnone.
    { intros v. destruct (bench_assign x v b1) eqn:E; [|done].
      destruct Hx. apply (bench_assign_known x v b1). by eexists. }
    destruct more as [|v more]; simpl; by rewrite Hnone.
  - intros flag Hflag. rewrite (bench_args_app _ _ _ _ Hargs). simpl.
    by apply (bench_assign_known flag "" b1) in Hflag as [b2 ->].
Qed.

Lemma bench_args_last_wins_witness :
  let args := ["--n"; "100"; "--threads"; "1 2"] in
  let b1 := mkBench "both" "100" "0" "255" "1" "1 2" "42" in
  bench_args args bench_defaults = inr b1 ∧
  (∀ flag v, flag ∈ bench_flags →
     ∃ b2, bench_args (args ++ [flag; v]) bench_defaults = inr b2 ∧
           bench_value flag b2 = Some v ∧
           ∀ f, f ≠ flag → bench_value f b2 = bench_value f b1) ∧
  (∀ x more, x ∉ bench_flags →
     bench_args (args ++ x :: more) bench_defaults = inl (UnknownArg x)) ∧
  (∀ flag, flag ∈ bench_flags →
     bench_args (args ++ [flag]) bench_defaults = inl (UnboundValue flag)).
Proof.
  split; [reflexivity|].
  apply (bench_args_last_wins ["--n"; "100"; "--threads"; "1 2"]
           bench_defaults).
  reflexivity.
Defined.

(** ** scripts/run_bench.sh: the thread counts *)

(** The first [m] powers of two. *)
Definition powers_of_two (m : nat) : list Z :=
  (λ i : nat, 2 ^ Z.of_nat i) <$> seq 0 m.

Lemma thread_set_loop_powers (maxt : Z) (k : nat) :
  2 ^ Z.of_nat k ≤ maxt < 2 ^ (Z.of_nat k + 1) → (k < 62)%nat →
  ∀ (d j fuel : nat), (j + d = S k)%nat → (d < fuel)%nat →
    thread_set_loop fuel maxt (2 ^ Z.of_nat j) (powers_of_two j)
    = Some (powers_of_two (S k)).
Proof.
  intros Hk Hk62. induction d as [|d IH]; intros j fuel Hj Hfuel.
  - destruct fuel as [|fuel]; [lia|]. simpl.
    assert (j = S k) as -> by lia.
    replace (Z.of_nat (S k)) with (Z.of_nat k + 1) by lia.
    destruct (Z.leb_spec (2 ^ (Z.of_nat k + 1)) maxt); [lia|done].
  - destruct fuel as [|fuel]; [lia|]. simpl.
    assert (2 ^ Z.of_nat j ≤ 2 ^ Z.of_nat k)
      by (apply Z.pow_le_mono_r; lia).
    destruct (Z.leb_spec (2 ^ Z.of_nat j) maxt); [|lia].
    assert (as_ll (2 ^ Z.of_nat j * 2) = 2 ^ Z.of_nat (S j)) as ->.
    { replace (Z.of_nat (S j)) with (Z.of_nat j + 1) by lia.
      rewrite Z.pow_add_r, Z.pow_1_r by lia.
      apply as_ll_small.
      assert (2 ^ Z.of_nat j ≤ 2 ^ 61) by (apply Z.pow_le_mono_r; lia).
      lia. }
    assert (powers_of_two j ++ [2 ^ Z.of_nat j] = powers_of_two (S j)) as ->.
    { unfold powers_of_two. by rewrite seq_S, fmap_app. }
    apply IH; lia.
Qed.

(** X23.  The thread counts of a sweep.  With an empty [THREADS] and a
    processor count [MAXT] below 2^62 the loop ends and [SET] holds the
    powers of two from 1 up to [MAXT], and 1 alone when [MAXT] is below 2:
    the sweep includes the full processor count only when that is a power
    of two. *)
Theorem thread_set_powers_of_two (maxt : Z) :
  maxt < 2 ^ 62 →
  thread_set 64 maxt = Some (powers_of_two (S (Z.to_nat (Z.log2 maxt)))) ∧
  (∀ t, t ∈ powers_of_two (S (Z.to_nat (Z.log2 maxt))) →
     t = 1 ∨ t ≤ maxt) ∧
  (1 ≤ maxt →
   maxt ∈ powers_of_two (S (Z.to_nat (Z.log2 maxt))) ↔
   maxt = 2 ^ Z.log2 maxt).
Proof.
  intros Hmax.
  pose proof (Z.log2_nonneg maxt) as Hl0.
  assert (∀ t, t ∈ powers_of_two (S (Z.to_nat (Z.log2 maxt))) ↔
               ∃ i, 0 ≤ i ≤ Z.log2 maxt ∧ t = 2 ^ i) as Hin.
  { intros t. unfold powers_of_two. rewrite list_elem_of_fmap. split.
    - intros (i & -> & Hi). apply elem_of_seq in Hi.
      exists (Z.of_nat i). split; [lia|done].
    - intros (i & Hi & ->). exists (Z.to_nat i).
      split; [by rewrite Z2Nat.id by lia|]. apply elem_of_seq. lia. }
  split; [|split].
  - destruct (Z.lt_ge_cases maxt 2) as [Hlt|Hge].
    + assert (Z.log2 maxt = 0) as ->.
      { destruct (Z.le_gt_cases maxt 0); [by apply Z.log2_nonpos|].
        by replace maxt with 1 by lia. }
      unfold thread_set. simpl.
      by destruct (Z.leb_spec 2 maxt); [lia|].
    + pose proof (Z.log2_spec maxt ltac:(lia)) as Hspec.
      assert (Z.log2 maxt < 62) as Hk.
      { apply (Z.pow_lt_mono_r_iff 2); lia. }
      assert (1 ≤ Z.log2 maxt) as Hk1.
      { apply Z.log2_le_pow2; simpl; lia. }
      unfold thread_set.
      apply (thread_set_loop_powers maxt (Z.to_nat (Z.log2 maxt))
               ltac:(rewrite Z2Nat.id by lia; unfold Z.succ in Hspec; lia)
               ltac:(lia) (Z.to_nat (Z.log2 maxt)) 1 64); lia.
  - intros t (i & Hi & ->)%Hin.
    destruct (Z.le_gt_cases maxt 0) as [Hle|Hgt].
    + rewrite Z.log2_nonpos in Hi by done. left.
      by replace i with 0 by lia.
    + right. pose proof (Z.log2_spec maxt Hgt) as Hspec.
      assert (2 ^ i ≤ 2 ^ Z.log2 maxt) by (apply Z.pow_le_mono_r; lia). lia.
  - intros H1. rewrite Hin. split.
    + intros (i & Hi & Heq).
      pose proof (Z.log2_spec maxt ltac:(lia)) as Hspec.
      destruct (Z.eq_dec i (Z.log2 maxt)) as [->|Hne]; [done|].
      assert (2 ^ i < 2 ^ Z.log2 maxt)
        by (apply Z.pow_lt_mono_r; lia). lia.
    + intros Heq. exists (Z.log2 maxt). split; [lia|done].
Qed.

Lemma thread_set_powers_of_two_witness :
  thread_set 64 6 = Some [1; 2; 4] ∧
  thread_set 64 6 = Some (powers_of_two (S (Z.to_nat (Z.log2 6)))) ∧
  (∀ t, t ∈ powers_of_two (S (Z.to_nat (Z.log2 6))) → t = 1 ∨ t ≤ 6) ∧
  (1 ≤ 6 → 6 ∈ powers_of_two (S (Z.to_nat (Z.log2 6))) ↔ 6 = 2 ^ Z.log2 6).
Proof.
  split; [reflexivity|]. apply (thread_set_powers_of_two 6). lia.
Defined.

(** ** scripts/run_bench.sh: from the sweep to the programs *)

(** The flags the programs look for. *)
Definition prog_flags : list string :=
  ["--csv-header"; "--n"; "--min"; "--max"; "--seed"; "--rep"; "--variant";
   "--threads"].

Lemma not_prog_flag w f : w ∉ prog_flags → f ∈ prog_flags → f ≠ w.
Proof. intros Hw Hf ->. done. Qed.

Ltac solve_not_among :=
  rewrite ?not_elem_of_cons; repeat split;
  try discriminate; try apply not_elem_of_nil;
  match goal with
  | H : ?w ∉ prog_flags |- _ ≠ ?w =>
      apply (not_prog_flag w _ H); unfold prog_flags; rewrite !elem_of_cons;
      auto 10
  end.

Ltac arg_at pre name v :=
  match goal with
  | |- context [arg_after ?argv name] =>
      let H := fresh in
      assert (arg_after argv name = Some v) as H
        by (apply (arg_after_first pre name v); solve_not_among);
      rewrite H; clear H
  end.

Definition variants : list string := ["private"; "atomic"; "mutex"].

Lemma variant_not_flag v : v ∈ variants → v ∉ prog_flags.
Proof.
  unfold variants. rewrite !elem_of_cons.
  intros [->|[->|[->|Hv]]]; [..|by apply elem_of_nil in Hv];
    unfold prog_flags; solve_not_elem.
Qed.

Section commands.
Context {conv : Conv}.
Variables n mn mx sd t v : string.
Hypothesis Hn : n ∉ prog_flags.
Hypothesis Hmn : mn ∉ prog_flags.
Hypothesis Hmx : mx ∉ prog_flags.
Hypothesis Hsd : sd ∉ prog_flags.
Hypothesis Ht : t ∉ prog_flags.
Hypothesis Hv : v ∈ variants.

(** What [main] of hist_threads.cpp makes of a command of the sweep. *)
Lemma threads_cmd_parse hw :
  has_flag (cmd_argv (threads_cmd [n] [mn] [mx] [sd] v t)) "--csv-header"
  = false ∧
  parse_args (threads_defaults hw)
    (cmd_argv (threads_cmd [n] [mn] [mx] [sd] v t))
  = (n' ← stoll n; mn' ← stoi mn; mx' ← stoi mx; sd' ← stoi sd;
     rp ← stoi "1"; th ← stoi t;
     Some (mkArgs (wrap64 n') mn' mx' (wrap32u sd') rp v th)).
Proof.
  pose proof (variant_not_flag v Hv) as Hvf. split.
  - assert ("--csv-header" ∉ cmd_argv (threads_cmd [n] [mn] [mx] [sd] v t))
      as Hno by (unfold threads_cmd; cbn [cmd_argv app]; solve_not_among).
    destruct (has_flag _ _) eqn:E; [|done]. by apply has_flag_elem_of in E.
  - unfold parse_args, get_ll, get_int, get_str, threads_cmd.
    cbn [cmd_argv app].
    arg_at ["./bin/hist_threads"] "--n" n.
    arg_at ["./bin/hist_threads"; "--n"; n; "--threads"; t] "--min" mn.
    arg_at ["./bin/hist_threads"; "--n"; n; "--threads"; t; "--min"; mn]
      "--max" mx.
    arg_at ["./bin/hist_threads"; "--n"; n; "--threads"; t; "--min"; mn;
            "--max"; mx; "--variant"; v] "--seed" sd.
    arg_at ["./bin/hist_threads"; "--n"; n; "--threads"; t; "--min"; mn;
            "--max"; mx; "--variant"; v; "--seed"; sd] "--rep" "1".
    arg_at ["./bin/hist_threads"; "--n"; n; "--threads"; t; "--min"; mn;
            "--max"; mx] "--variant" v.
    arg_at ["./bin/hist_threads"; "--n"; n] "--threads" t.
    done.
Qed.

(** What [main] of hist_openmp.cpp makes of a command of the sweep. *)
Lemma openmp_cmd_parse :
  has_flag (cmd_argv (openmp_cmd [n] [mn] [mx] [sd] v t)) "--csv-header"
  = false ∧
  parse_args omp_defaults (cmd_argv (openmp_cmd [n] [mn] [mx] [sd] v t))
  = (n' ← stoll n; mn' ← stoi mn; mx' ← stoi mx; sd' ← stoi sd;
     rp ← stoi "1";
     Some (mkArgs (wrap64 n') mn' mx' (wrap32u sd') rp v (-1))).
Proof.
  pose proof (variant_not_flag v Hv) as Hvf. split.
  - assert ("--csv-header" ∉ cmd_argv (openmp_cmd [n] [mn] [mx] [sd] v t))
      as Hno by (unfold openmp_cmd; cbn [cmd_argv app]; solve_not_among).
    destruct (has_flag _ _) eqn:E; [|done]. by apply has_flag_elem_of in E.
  - unfold parse_args, get_ll, get_int, get_str, openmp_cmd.
    cbn [cmd_argv app].
    arg_at ["./bin/hist_openmp"] "--n" n.
    arg_at ["./bin/hist_openmp"; "--n"; n] "--min" mn.
    arg_at ["./bin/hist_openmp"; "--n"; n; "--min"; mn] "--max" mx.
    arg_at ["./bin/hist_openmp"; "--n"; n; "--min"; mn; "--max"; mx;
            "--variant"; v] "--seed" sd.
    arg_at ["./bin/hist_openmp"; "--n"; n; "--min"; mn; "--max"; mx;
            "--variant"; v; "--seed"; sd] "--rep" "1".
    arg_at ["./bin/hist_openmp"; "--n"; n; "--min"; mn; "--max"; mx]
      "--variant" v.
    rewrite arg_after_absent by (cbn [removelast]; solve_not_among).
    destruct (stoll n), (stoi mn), (stoi mx), (stoi sd), (stoi "1"); done.
Qed.
End commands.

(** X24.  The sweep hands its parameters over.  For parameters that are
    single words and none of them a flag of the programs, a command of the
    sweep is converted by [main] into the configuration with the element
    count, the bounds and the seed of the script, the variant of the loop
    and one repetition.  hist_threads.cpp gets the thread count of the loop
    through [--threads]; hist_openmp.cpp gets no [--threads] at all, so that
    it never calls [omp_set_num_threads] and the size of its team is left
    to the variable [OMP_NUM_THREADS] of the command. *)
Theorem sweep_hands_over_parameters {conv : Conv} (hw : Z)
    (n mn mx sd t v : string) :
  Forall (λ w, w ∉ prog_flags) [n; mn; mx; sd; t] →
  v ∈ ["private"; "atomic"; "mutex"] →
  let tc := threads_cmd [n] [mn] [mx] [sd] v t in
  let oc := openmp_cmd [n] [mn] [mx] [sd] v t in
  cmd_omp_num_threads tc = None ∧ cmd_omp_num_threads oc = Some t ∧
  has_flag (cmd_argv tc) "--csv-header" = false ∧
  has_flag (cmd_argv oc) "--csv-header" = false ∧
  parse_args (threads_defaults hw) (cmd_argv tc)
  = (n' ← stoll n; mn' ← stoi mn; mx' ← stoi mx; sd' ← stoi sd;
     rp ← stoi "1"; th ← stoi t;
     Some (mkArgs (wrap64 n') mn' mx' (wrap32u sd') rp v th)) ∧
  parse_args omp_defaults (cmd_argv oc)
  = (n' ← stoll n; mn' ← stoi mn; mx' ← stoi mx; sd' ← stoi sd;
     rp ← stoi "1";
     Some (mkArgs (wrap64 n') mn' mx' (wrap32u sd') rp v (-1))) ∧
  ∀ a, parse_args omp_defaults (cmd_argv oc) = Some a →
       omp_request (normalize a) = None.
Proof.
  intros Hw Hv tc oc.
  apply Forall_cons in Hw as [Hn Hw]. apply Forall_cons in Hw as [Hmn Hw].
  apply Forall_cons in Hw as [Hmx Hw]. apply Forall_cons in Hw as [Hsd Hw].
  apply Forall_cons in Hw as [Ht _]. cbv beta in Hn, Hmn, Hmx, Hsd, Ht.
  destruct (threads_cmd_parse n mn mx sd t v Hn Hmn Hmx Hsd Ht Hv hw)
    as [Hth Htp].
  destruct (openmp_cmd_parse n mn mx sd t v Hn Hmn Hmx Hsd Hv)
    as [Hoh Hop].
  do 2 (split; [done|]). do 4 (split; [done|]).
  intros a. subst oc. rewrite Hop.
  destruct (stoll n), (stoi mn), (stoi mx), (stoi sd), (stoi "1");
    simpl; try done.
  intros [= <-]. unfold omp_request.
  destruct (normalize_fields
              (mkArgs (wrap64 z) z0 z1 (wrap32u z2) z3 v (-1)))
    as (_ & _ & _ & _ & ->). done.
Qed.

Lemma sweep_hands_over_parameters_witness :
  let tc := threads_cmd ["5000000"] ["0"] ["255"] ["42"] "atomic" "4" in
  let oc := openmp_cmd ["5000000"] ["0"] ["255"] ["42"] "atomic" "4" in
  cmd_omp_num_threads tc = None ∧ cmd_omp_num_threads oc = Some "4" ∧
  has_flag (cmd_argv tc) "--csv-header" = false ∧
  has_flag (cmd_argv oc) "--csv-header" = false ∧
  @parse_args std_conv (threads_defaults 8) (cmd_argv tc)
  = (n' ← std_stoll "5000000"; mn' ← std_stoi "0"; mx' ← std_stoi "255";
     sd' ← std_stoi "42"; rp ← std_stoi "1"; th ← std_stoi "4";
     Some (mkArgs (wrap64 n') mn' mx' (wrap32u sd') rp "atomic" th)) ∧
  @parse_args std_conv omp_defaults (cmd_argv oc)
  = (n' ← std_stoll "5000000"; mn' ← std_stoi "0"; mx' ← std_stoi "255";
     sd' ← std_stoi "42"; rp ← std_stoi "1";
     Some (mkArgs (wrap64 n') mn' mx' (wrap32u sd') rp "atomic" (-1))) ∧
  ∀ a, @parse_args std_conv omp_defaults (cmd_argv oc) = Some a →
       omp_request (normalize a) = None.
Proof.
  apply (@sweep_hands_over_parameters std_conv 8
           "5000000" "0" "255" "42" "4" "atomic").
  - repeat constructor; unfold prog_flags; solve_not_elem.
  - rewrite !elem_of_cons. auto.
Defined.

(** ** scripts/run_bench.sh: the sweep and its CSV file *)

Lemma length_sweep cmd (SET : list string) (k : nat) :
  length (sweep cmd SET k) = (3 * length SET * k)%nat.
Proof.
  assert (∀ v, length (t ← SET; _ ← replicate k (); [cmd v t])
               = (length SET * k)%nat) as Hv.
  { intros v. induction SET as [|t SET IH]; [done|].
    csimpl. rewrite length_app, IH. f_equal.
    clear. induction k as [|k IH]; [done|]. csimpl. by rewrite IH. }
  unfold sweep. csimpl. rewrite !length_app, !Hv. simpl. lia.
Qed.

(** What [run_all] has run: a prefix of the commands, every command but
    possibly the last having returned 0, and their output in order. *)
Lemma run_all_spec exec (cmds : list command) : ∀ i,
  let r := run_all exec i cmds in
  r.1.1 `prefix_of` cmds ∧
  r.1.2 = concat (imap (λ j c, (exec (i + j)%nat c).1) r.1.1) ∧
  (∀ j c, r.1.1 !! j = Some c → (S j < length r.1.1)%nat →
     (exec (i + j)%nat c).2 = 0) ∧
  match r.2 with
  | None =>
      r.1.1 = cmds ∧
      ∀ j c, cmds !! j = Some c → (exec (i + j)%nat c).2 = 0
  | Some st =>
      st ≠ 0 ∧
      ∃ c, last r.1.1 = Some c ∧
           (exec (i + length r.1.1 - 1)%nat c).2 = st
  end.
Proof.
  induction cmds as [|c cmds IH]; intros i; simpl.
  - split; [done|]. split; [done|]. split; [by intros ? ? ?|]. done.
  - destruct (Z.eqb_spec (exec i c).2 0) as [H0|Hne]; simpl.
    + destruct (IH (S i)) as (Hp & Hout & Hzero & Hend).
      split; [by apply prefix_cons|]. split.
      { rewrite Hout. rewrite Nat.add_0_r. f_equal. f_equal.
        apply imap_ext. intros j c' _. simpl. f_equal. f_equal. lia. }
      split.
      { intros [|j] c' Hc' Hj; simpl in *.
        - injection Hc' as <-. by rewrite Nat.add_0_r.
        - replace (i + S j)%nat with (S i + j)%nat by lia.
          apply Hzero; [done|lia]. }
      destruct (run_all exec (S i) cmds).2 as [st|].
      * destruct Hend as (Hst & c' & Hlast & Hc'). split; [done|].
        exists c'. split.
        { destruct (run_all exec (S i) cmds).1.1; [done|]. done. }
        destruct (run_all exec (S i) cmds).1.1 as [|c0 l] eqn:E; [done|].
        rewrite <- Hc'.
        match goal with
        | |- (exec ?x _).2 = (exec ?y _).2 =>
            replace x with y by (simpl; lia)
        end. done.
      * destruct Hend as (-> & Hall). split; [done|].
        intros [|j] c' Hc'; simpl in *.
        -- injection Hc' as <-. by rewrite Nat.add_0_r.
        -- replace (i + S j)%nat with (S i + j)%nat by lia. by apply Hall.
    + split; [by apply prefix_cons, prefix_nil|].
      split; [by rewrite Nat.add_0_r, app_nil_r|].
      split; [intros j c'; simpl; lia|]. split; [done|].
      exists c. split; [done|]. simpl.
      by replace (i + 1 - 1)%nat with i by lia.
Qed.

(** A call of the script that gets to its CSV file. *)
Lemma run_bench_Done fuel args maxt k exec ran csv st copied :
  run_bench fuel args maxt k exec = BenchDone ran csv st copied →
  ∃ b SET n mn mx sd,
    bench_args args bench_defaults = inr b ∧
    thread_words fuel b maxt = Some SET ∧
    expand (sh_N b) = Some n ∧ expand (sh_MIN b) = Some mn ∧
    expand (sh_MAX b) = Some mx ∧ expand (sh_SEED b) = Some sd ∧
    match bench_commands b n mn mx sd SET k with
    | None => ran = [] ∧ csv = [bench_header] ∧ st = 2 ∧ copied = false
    | Some cmds =>
        ∃ lines failed,
          run_all exec 0 cmds = (ran, lines, failed) ∧
          csv = bench_header :: lines ∧
          match failed with
          | None => st = 0 ∧ copied = true
          | Some st' => st = st' ∧ copied = false
          end
    end.
Proof.
  unfold run_bench.
  destruct (bench_args args bench_defaults) as [why|b] eqn:Hb; [done|].
  destruct (thread_words fuel b maxt) as [SET|] eqn:HSET; [|done].
  destruct (expand (sh_N b)) as [n|] eqn:E1; [|done].
  destruct (expand (sh_MIN b)) as [mn|] eqn:E2; [|done].
  destruct (expand (sh_MAX b)) as [mx|] eqn:E3; [|done].
  destruct (expand (sh_SEED b)) as [sd|] eqn:E4; [|done].
  intros H. exists b, SET, n, mn, mx, sd. do 6 (split; [done|]).
  destruct (bench_commands b n mn mx sd SET k) as [cmds|].
  - cbv zeta in H.
    destruct (run_all exec 0 cmds) as [[ran' lines] failed]; simpl in *.
    exists lines, failed.
    by destruct failed as [st'|]; injection H as <- <- <- <-.
  - by injection H as <- <- <- <-.
Qed.

Lemma length_bench_commands b n mn mx sd SET k cmds :
  bench_commands b n mn mx sd SET k = Some cmds →
  length cmds
  = ((if String.eqb (sh_BACKEND b) "both" then 6 else 3) * length SET * k)%nat.
Proof.
  unfold bench_commands.
  destruct (String.eqb (sh_BACKEND b) "openmp") eqn:E1.
  { apply String.eqb_eq in E1. rewrite E1. intros [= <-].
    rewrite length_sweep. simpl. lia. }
  destruct (String.eqb (sh_BACKEND b) "threads") eqn:E2.
  { apply String.eqb_eq in E2. rewrite E2. intros [= <-].
    rewrite length_sweep. simpl. lia. }
  destruct (String.eqb (sh_BACKEND b) "both") eqn:E3; [|done].
  intros [= <-]. rewrite length_app, !length_sweep. lia.
Qed.

(** X25.  How a call of the script ends.  Whenever the script gets to
    write its CSV file, the file begins with the header the three programs
    print for [--csv-header], followed by the output of the commands run,
    in order; every command but the last one run has returned 0; the file
    is copied to last.csv exactly when the script returns 0; a status
    other than 0 is the 2 of an invalid [--backend], with no command run,
    or the status of the last command run, which ended the sweep; and a
    script that returns 0 has run 3 |SET| k commands, twice as many for
    both backends, [k] being the number of repetitions per point. *)
Theorem bench_run_ends (fuel : nat) (args : list string) (maxt : Z)
    (k : nat) (exec : nat → command → list string * Z)
    (ran : list command) (csv : list string) (st : Z) (copied : bool) :
  run_bench fuel args maxt k exec = BenchDone ran csv st copied →
  bench_header = csv_header ∧
  csv = bench_header :: concat (imap (λ i c, (exec i c).1) ran) ∧
  (∀ i c, ran !! i = Some c → (S i < length ran)%nat → (exec i c).2 = 0) ∧
  (copied = true ↔ st = 0) ∧
  (st ≠ 0 →
   (ran = [] ∧ st = 2) ∨
   ∃ c, last ran = Some c ∧ (exec (length ran - 1)%nat c).2 = st) ∧
  (st = 0 →
   (∀ i c, ran !! i = Some c → (exec i c).2 = 0) ∧
   ∃ b SET,
     bench_args args bench_defaults = inr b ∧
     thread_words fuel b maxt = Some SET ∧
     length ran
     = ((if String.eqb (sh_BACKEND b) "both" then 6 else 3)
        * length SET * k)%nat).
Proof.
  intros (b & SET & n & mn & mx & sd & Hb & HSET & _ & _ & _ & _ & Hrun)
    %run_bench_Done.
  split; [reflexivity|].
  destruct (bench_commands b n mn mx sd SET k) as [cmds|] eqn:Hcmds.
  2:{ destruct Hrun as (-> & -> & -> & ->). split; [done|].
      split; [by intros ? ? ?|]. split; [done|]. split; [by left|]. done. }
  destruct Hrun as (lines & failed & Hall & -> & Hst).
  pose proof (run_all_spec exec cmds 0%nat) as (Hp & Hout & Hzero & Hend).
  rewrite Hall in Hp, Hout, Hzero, Hend. simpl in *.
  split; [by rewrite Hout|]. split; [done|].
  destruct failed as [st'|]; destruct Hst as [-> ->].
  - destruct Hend as (Hst & c & Hlast & Hc).
    split; [done|]. split; [|done]. intros _. right. by exists c.
  - destruct Hend as (-> & Hall0).
    split; [done|]. split; [done|]. intros _. split; [done|].
    exists b, SET. split; [done|]. split; [done|].
    by eapply length_bench_commands.
Qed.

Lemma bench_run_ends_witness :
  let exec := λ (i : nat) (c : command),
    (["x"], if (i =? 3)%nat then 134 else 0) in
  let ran := take 4 (sweep (openmp_cmd ["5000000"] ["0"] ["255"] ["42"])
                       ["1"; "2"; "4"] 1) in
  let csv := [bench_header; "x"; "x"; "x"; "x"] in
  run_bench 64 [] 4 1 exec = BenchDone ran csv 134 false ∧
  bench_header = csv_header ∧
  csv = bench_header :: concat (imap (λ i c, (exec i c).1) ran) ∧
  (∀ i c, ran !! i = Some c → (S i < length ran)%nat → (exec i c).2 = 0) ∧
  (false = true ↔ 134 = 0) ∧
  (134 ≠ 0 →
   (ran = [] ∧ 134 = 2) ∨
   ∃ c, last ran = Some c ∧ (exec (length ran - 1)%nat c).2 = 134) ∧
  (134 = 0 →
   (∀ i c, ran !! i = Some c → (exec i c).2 = 0) ∧
   ∃ b SET,
     bench_args [] bench_defaults = inr b ∧
     thread_words 64 b 4 = Some SET ∧
     length ran
     = ((if String.eqb (sh_BACKEND b) "both" then 6 else 3)
        * length SET * 1)%nat).
Proof.
  split; [vm_compute; reflexivity|].
  apply (bench_run_ends 64 [] 4 1
           (λ (i : nat) (c : command),
              (["x"], if (i =? 3)%nat then 134 else 0))).
  vm_compute. reflexivity.
Defined.

(** ** The script and the programs together *)

Lemma elem_of_sweep cmd (SET : list string) (k : nat) c :
  c ∈ sweep cmd SET k → ∃ v t, v ∈ variants ∧ t ∈ SET ∧ c = cmd v t.
Proof.
  unfold sweep. intros Hc.
  apply list_elem_of_bind in Hc as (v & Hc & Hv).
  apply list_elem_of_bind in Hc as (t & Hc & Ht).
  apply list_elem_of_bind in Hc as (u & Hc & _).
  apply list_elem_of_singleton in Hc. by exists v, t.
Qed.

Lemma elem_of_bench_commands b n mn mx sd SET k cmds c :
  bench_commands b n mn mx sd SET k = Some cmds → c ∈ cmds →
  ∃ v t, v ∈ variants ∧ t ∈ SET ∧
    (c = openmp_cmd n mn mx sd v t ∨ c = threads_cmd n mn mx sd v t).
Proof.
  unfold bench_commands. intros Hcmds Hc.
  destruct (String.eqb (sh_BACKEND b) "openmp").
  { injection Hcmds as <-.
    apply elem_of_sweep in Hc as (v & t & ? & ? & ->). exists v, t. auto. }
  destruct (String.eqb (sh_BACKEND b) "threads").
  { injection Hcmds as <-.
    apply elem_of_sweep in Hc as (v & t & ? & ? & ->). exists v, t. auto. }
  destruct (String.eqb (sh_BACKEND b) "both"); [|done].
  injection Hcmds as <-. apply elem_of_app in Hc as [Hc|Hc];
    apply elem_of_sweep in Hc as (v & t & ? & ? & ->); exists v, t; auto.
Qed.

(** The records of a run name the backend and the variant of the run. *)
Lemma run_main_record_names {G : Type} {rng : Rng G} {omp : OmpRuntime}
    be a env evs st :
  run_main be a false env = Done (evs, st) →
  Forall (λ ev, ∀ rec, ev = EvRecord rec →
            r_backend rec = backend_name be ∧ r_variant rec = variant a) evs.
Proof.
  intros Hrun.
  destruct (normalize_fields a) as (_ & _ & _ & Hvar & _).
  assert (∀ r out, rep_body be (normalize a) r (env r) = Done out →
            Forall (λ ev, ∀ rec, ev = EvRecord rec →
                      r_backend rec = backend_name be ∧
                      r_variant rec = variant a) out.1) as Hbody.
  { intros r out Hb.
    apply rep_body_Done in Hb as (data & res & _ & ->).
    destruct res as [hs|]; simpl.
    - constructor; [by intros ? [=]|]. constructor; [|constructor].
      intros rec [= <-]. by rewrite <- Hvar.
    - constructor; [by intros ? [=]|].
      constructor; [by intros ? [=]|constructor]. }
  destruct (supported (variant a)) eqn:Hsup.
  - rewrite run_main_reps in Hrun by auto. eapply run_reps_events; [|exact Hrun]. exact Hbody.
  - destruct be.
    + unfold run_main in Hrun.
      rewrite threads_main_unsupported in Hrun by done.
      injection Hrun as <- <-. constructor; [by intros ? [=]|constructor].
    + rewrite (run_main_reps OpenMP) in Hrun by auto.
      eapply run_reps_events; [|exact Hrun]. exact Hbody.
Qed.

(** One run of a parallel program for a supported variant and one
    repetition: status 0 and one line. *)
Lemma run_main_one_line {G : Type} {rng : Rng G} {omp : OmpRuntime}
    be a env evs s :
  supported (variant a) = true → rep a = 1 →
  run_main be a false env = Done (evs, s) →
  s = 0 ∧
  ∃ rec, stdout_lines evs = [csv_line rec] ∧ twelve_fields (csv_line rec) ∧
         r_backend rec = backend_name be ∧ r_variant rec = variant a.
Proof.
  intros Hsup Hrep Hrun.
  destruct (run_main_count be a env evs s Hsup Hrun) as (-> & _ & Hlen).
  destruct (run_main_stdout be a env evs 0 Hrun) as (Htw & Hlines).
  pose proof (run_main_record_names be a env evs 0 Hrun) as Hnames.
  split; [done|]. rewrite Hrep in Hlen.
  destruct (records evs) as [|rec [|]] eqn:Hrec; try done.
  exists rec. rewrite Hlines in Htw |- *. simpl in *.
  split; [done|]. split; [by apply Forall_cons in Htw as [? _]|].
  assert (EvRecord rec ∈ evs) as Hin.
  { assert (rec ∈ records evs) as Hr by (rewrite Hrec; left).
    unfold records in Hr. apply list_elem_of_omap in Hr as (ev & Hev & Heq).
    by destruct ev; simplify_eq. }
  rewrite Forall_forall in Hnames. by apply (Hnames _ Hin).
Qed.

Lemma variants_supported v : v ∈ variants → supported v = true.
Proof.
  unfold variants. rewrite !elem_of_cons.
  by intros [->|[->|[->|Hv]]]; [..|apply elem_of_nil in Hv].
Qed.

(** What a command of the sweep that returns has printed and returned. *)
Lemma sweep_cmd_line {G : Type} {rng : Rng G} {conv : Conv}
    (omp_of : option string → OmpRuntime) (hw : Z)
    n mn mx sd t v c env evs s :
  stoi "1" = Some 1 →
  n ∉ prog_flags → mn ∉ prog_flags → mx ∉ prog_flags → sd ∉ prog_flags →
  t ∉ prog_flags → v ∈ variants →
  c = openmp_cmd [n] [mn] [mx] [sd] v t ∨
  c = threads_cmd [n] [mn] [mx] [sd] v t →
  program_run omp_of hw c env = Some (Done (evs, s)) →
  s = 0 ∧
  ∃ rec, stdout_lines evs = [csv_line rec] ∧ twelve_fields (csv_line rec) ∧
    r_backend rec = match cmd_omp_num_threads c with
        | Some _ => "openmp"
        | None => "threads"
        end ∧
    arg_after (cmd_argv c) "--variant" = Some (r_variant rec).
Proof.
  intros H1 Hn Hmn Hmx Hsd Ht Hv Hc Hrun.
  pose proof (variant_not_flag v Hv) as Hvf.
  pose proof (variants_supported v Hv) as Hsup.
  destruct Hc as [-> | ->].
  - destruct (openmp_cmd_parse n mn mx sd t v Hn Hmn Hmx Hsd Hv)
      as [Hh Hp].
    assert (arg_after (cmd_argv (openmp_cmd [n] [mn] [mx] [sd] v t))
              "--variant" = Some v) as Hvar.
    { unfold openmp_cmd. cbn [cmd_argv app].
      apply (arg_after_first
               ["./bin/hist_openmp"; "--n"; n; "--min"; mn; "--max"; mx]
               "--variant" v).
      solve_not_among. }
    change (program_run omp_of hw (openmp_cmd [n] [mn] [mx] [sd] v t) env)
      with (Some (@omp_cli G rng (omp_of (Some t)) conv
                    (cmd_argv (openmp_cmd [n] [mn] [mx] [sd] v t)) env))
      in Hrun.
    injection Hrun as Hrun. unfold omp_cli in Hrun.
    unfold openmp_cmd in Hh, Hp. cbn [cmd_argv app] in Hh, Hp.
    rewrite Hh, Hp, H1 in Hrun.
    destruct (stoll n) as [n'|]; [|done].
    destruct (stoi mn) as [mn'|]; [|done].
    destruct (stoi mx) as [mx'|]; [|done].
    destruct (stoi sd) as [sd'|]; [|done].
    cbn [mbind option_bind of_option obind] in Hrun.
    eapply (run_main_one_line OpenMP) in Hrun as (-> & rec & ? & ? & ? & ?);
      [|done..].
    split; [done|]. exists rec. rewrite Hvar. simpl in *. by subst.
  - destruct (threads_cmd_parse n mn mx sd t v Hn Hmn Hmx Hsd Ht Hv hw)
      as [Hh Hp].
    assert (arg_after (cmd_argv (threads_cmd [n] [mn] [mx] [sd] v t))
              "--variant" = Some v) as Hvar.
    { unfold threads_cmd. cbn [cmd_argv app].
      apply (arg_after_first
               ["./bin/hist_threads"; "--n"; n; "--threads"; t; "--min"; mn;
                "--max"; mx] "--variant" v).
      solve_not_among. }
    change (program_run omp_of hw (threads_cmd [n] [mn] [mx] [sd] v t) env)
      with (Some (threads_cli hw
                    (cmd_argv (threads_cmd [n] [mn] [mx] [sd] v t)) env))
      in Hrun.
    injection Hrun as Hrun. unfold threads_cli in Hrun.
    unfold threads_cmd in Hh, Hp. cbn [cmd_argv app] in Hh, Hp.
    rewrite Hh, Hp, H1 in Hrun.
    destruct (stoll n) as [n'|]; [|done].
    destruct (stoi mn) as [mn'|]; [|done].
    destruct (stoi mx) as [mx'|]; [|done].
    destruct (stoi sd) as [sd'|]; [|done].
    destruct (stoi t) as [th|]; [|done].
    cbn [mbind option_bind of_option obind] in Hrun.
    eapply (run_main_one_line (omp := omp_of None) Threads) in Hrun
      as (-> & rec & ? & ? & ? & ?); [|done..].
    split; [done|]. exists rec. rewrite Hvar. simpl in *. by subst.
Qed.

(** Commands that print one line each. *)
Lemma concat_imap_lines {A} (P : string → Prop) (l : list A) :
  ∀ f : nat → A → list string,
  (∀ i c, l !! i = Some c → ∃ x, f i c = [x] ∧ P x) →
  length (concat (imap f l)) = length l ∧
  Forall P (concat (imap f l)) ∧
  ∀ i c, l !! i = Some c →
    ∃ x, f i c = [x] ∧ concat (imap f l) !! i = Some x.
Proof.
  induction l as [|c l IH]; intros f Hf; simpl.
  { split; [done|]. split; [done|]. by intros ? ? ?. }
  destruct (Hf 0%nat c eq_refl) as (x & Hx & HP).
  destruct (IH (f ∘ S)) as (Hlen & Hall & Hnth).
  { intros i c' Hc'. by apply (Hf (S i)). }
  rewrite Hx. simpl. split; [by rewrite Hlen|]. split; [by constructor|].
  intros [|i] c' Hc'; simpl in *.
  - injection Hc' as <-. by exists x.
  - by apply Hnth.
Qed.

(** X26.  A sweep that runs to its end leaves one line per command.  When
    the parameters of the script are single words, none of them a flag of
    the programs, and [--backend] is one of the three the script knows,
    then, provided every command the script starts returns, no command
    ends the sweep early: the script returns 0 and copies the CSV file,
    having run 3 |SET| k commands, twice as many for both backends.  The
    file holds the header and then exactly one line for each command, in
    the order of the commands, every line with twelve fields, the first
    naming the program of the command and the second the variant given to
    it. *)
Theorem sweep_writes_one_line_per_command {G : Type} {rng : Rng G}
    {conv : Conv} (omp_of : option string → OmpRuntime) (hw : Z)
    (fuel : nat) (args : list string) (maxt : Z) (k : nat)
    (exec : nat → command → list string * Z) (envs : nat → Z → rep_env)
    (b : bench) (n mn mx sd : string) (SET : list string)
    (ran : list command) (csv : list string) (st : Z) (copied : bool) :
  stoi "1" = Some 1 →
  bench_args args bench_defaults = inr b →
  sh_BACKEND b ∈ ["openmp"; "threads"; "both"] →
  expand (sh_N b) = Some [n] → expand (sh_MIN b) = Some [mn] →
  expand (sh_MAX b) = Some [mx] → expand (sh_SEED b) = Some [sd] →
  thread_words fuel b maxt = Some SET →
  Forall (λ w, w ∉ prog_flags) ([n; mn; mx; sd] ++ SET) →
  run_bench fuel args maxt k exec = BenchDone ran csv st copied →
  (∀ i c, ran !! i = Some c →
     ∃ evs s, program_run omp_of hw c (envs i) = Some (Done (evs, s)) ∧
              exec i c = (stdout_lines evs, s)) →
  st = 0 ∧ copied = true ∧
  length ran
  = ((if String.eqb (sh_BACKEND b) "both" then 6 else 3)
     * length SET * k)%nat ∧
  length csv = S (length ran) ∧
  Forall twelve_fields csv ∧
  ∀ i c, ran !! i = Some c →
    ∃ rec, exec i c = ([csv_line rec], 0) ∧
      csv !! S i = Some (csv_line rec) ∧
      r_backend rec
      = match cmd_omp_num_threads c with
        | Some _ => "openmp"
        | None => "threads"
        end ∧
      arg_after (cmd_argv c) "--variant" = Some (r_variant rec).
Proof.
  intros H1 Hb Hbe En Emn Emx Esd HSET Hw Hrun Hexec.
  apply run_bench_Done in Hrun
    as (b' & SET' & n' & mn' & mx' & sd' & Hb' & HSET' & En' & Emn' & Emx'
        & Esd' & Hrun).
  rewrite Hb in Hb'. injection Hb' as <-.
  rewrite HSET in HSET'. injection HSET' as <-.
  rewrite En in En'. injection En' as <-.
  rewrite Emn in Emn'. injection Emn' as <-.
  rewrite Emx in Emx'. injection Emx' as <-.
  rewrite Esd in Esd'. injection Esd' as <-.
  apply Forall_app in Hw as [Hw HwS].
  apply Forall_cons in Hw as [Hn Hw]. apply Forall_cons in Hw as [Hmn Hw].
  apply Forall_cons in Hw as [Hmx Hw]. apply Forall_cons in Hw as [Hsd _].
  cbv beta in Hn, Hmn, Hmx, Hsd. rewrite Forall_forall in HwS.
  destruct (bench_commands b [n] [mn] [mx] [sd] SET k) as [cmds|] eqn:Hcmds.
  2:{ exfalso. unfold bench_commands in Hcmds.
      rewrite !elem_of_cons in Hbe.
      destruct Hbe as [E|[E|[E|E]]]; [..|by apply elem_of_nil in E];
        rewrite E in Hcmds; done. }
  destruct Hrun as (lines & failed & Hall & -> & Hst).
  pose proof (run_all_spec exec cmds 0%nat) as (Hp & Hout & _ & Hend).
  rewrite Hall in Hp, Hout, Hend. simpl in Hp, Hout, Hend.
  assert (∀ i c, ran !! i = Some c →
            ∃ x, exec i c = ([x], 0) ∧
              (twelve_fields x ∧
               ∃ rec, x = csv_line rec ∧
                 r_backend rec
                 = match cmd_omp_num_threads c with
        | Some _ => "openmp"
        | None => "threads"
        end ∧
                 arg_after (cmd_argv c) "--variant" = Some (r_variant rec)))
    as Hline.
  { intros i c Hc. destruct (Hexec i c Hc) as (evs & s & Hprog & Hex).
    assert (c ∈ cmds) as Hin.
    { destruct Hp as [rest ->]. apply elem_of_app. left.
      by eapply list_elem_of_lookup_2. }
    destruct (elem_of_bench_commands _ _ _ _ _ _ _ _ _ Hcmds Hin)
      as (v & t & Hv & Ht & Hc').
    destruct (sweep_cmd_line omp_of hw n mn mx sd t v c (envs i) evs s)
      as (-> & rec & Hl & Htw & Hbk & Hvar); auto.
    exists (csv_line rec). rewrite Hex, Hl. split; [done|]. split; [done|].
    by exists rec. }
  destruct failed as [st'|].
  { exfalso. destruct Hend as (Hne & c & Hlast & Hc).
    rewrite last_lookup in Hlast.
    destruct (Hline _ _ Hlast) as (x & Hx & _).
    replace (length ran - 1)%nat with (pred (length ran)) in Hc by lia.
    rewrite Hx in Hc. simpl in Hc. by subst st'. }
  destruct Hst as [-> ->]. destruct Hend as [-> _].
  split; [done|]. split; [done|].
  split; [by eapply length_bench_commands|].
  destruct (concat_imap_lines
              (λ x, twelve_fields x) cmds (λ i c, (exec i c).1))
    as (Hlen & Htw & Hnth).
  { intros i c Hc. destruct (Hline i c Hc) as (x & Hx & Hx2 & _).
    exists x. by rewrite Hx. }
  rewrite Hout. simpl. split; [by rewrite Hlen|].
  split.
  { constructor; [|done].
    split; [reflexivity|]. split; [reflexivity|]. by eexists. }
  intros i c Hc.
  destruct (Hline i c Hc) as (x & Hx & _ & rec & -> & Hbk & Hvar).
  exists rec. split; [done|]. split; [|done].
  destruct (Hnth i c Hc) as (y & Hy & Hy'). rewrite Hx in Hy. simpl in Hy.
  by injection Hy as <-.
Qed.

Lemma sweep_writes_one_line_per_command_witness :
  let omp_of := λ v : option string,
    gomp (match v with Some s => default 4 (std_stoi s) | None => 4 end) in
  let envs := λ (_ : nat) (_ : Z),
    mkEnv [0; 1; 0; 1]%nat (concat (replicate 12 [0; 1]%nat)) 7 9 in
  let exec := λ (i : nat) (c : command),
    match @program_run Z lcg std_conv omp_of 4 c (envs i) with
    | Some (Done (evs, s)) => (stdout_lines evs, s)
    | _ => ([], 134)
    end in
  let args := ["--n"; "2"; "--max"; "3"; "--threads"; "1 2"] in
  let ran := sweep (openmp_cmd ["2"] ["0"] ["3"] ["42"]) ["1"; "2"] 1
             ++ sweep (threads_cmd ["2"] ["0"] ["3"] ["42"]) ["1"; "2"] 1 in
  let csv := bench_header ::
    ((λ l, l +:+ newline) <$>
     ["openmp,private,1,2,4,0,3,42,7,9,16,2";
      "openmp,private,2,2,4,0,3,42,7,9,16,2";
      "openmp,atomic,1,2,4,0,3,42,7,9,16,2";
      "openmp,atomic,2,2,4,0,3,42,7,9,16,2";
      "openmp,mutex,1,2,4,0,3,42,7,9,16,2";
      "openmp,mutex,2,2,4,0,3,42,7,9,16,2";
      "threads,private,1,2,4,0,3,42,7,9,16,2";
      "threads,private,2,2,4,0,3,42,7,9,16,2";
      "threads,atomic,1,2,4,0,3,42,7,9,16,2";
      "threads,atomic,2,2,4,0,3,42,7,9,16,2";
      "threads,mutex,1,2,4,0,3,42,7,9,16,2";
      "threads,mutex,2,2,4,0,3,42,7,9,16,2"]) in
  run_bench 64 args 4 1 exec = BenchDone ran csv 0 true ∧
  (0 = 0 ∧ true = true ∧
   length ran = (6 * 2 * 1)%nat ∧
   length csv = S (length ran) ∧
   Forall twelve_fields csv ∧
   ∀ i c, ran !! i = Some c →
     ∃ rec, exec i c = ([csv_line rec], 0) ∧
       csv !! S i = Some (csv_line rec) ∧
       r_backend rec
       = match cmd_omp_num_threads c with
         | Some _ => "openmp"
         | None => "threads"
         end ∧
       arg_after (cmd_argv c) "--variant" = Some (r_variant rec)).
Proof.
  split; [vm_compute; reflexivity|].
  apply (@sweep_writes_one_line_per_command Z lcg std_conv
           (λ v : option string,
              gomp (match v with
                    | Some s => default 4 (std_stoi s)
                    | None => 4
                    end))
           4 64 ["--n"; "2"; "--max"; "3"; "--threads"; "1 2"] 4 1
           (λ (i : nat) (c : command),
              match @program_run Z lcg std_conv
                      (λ v : option string,
                         gomp (match v with
                               | Some s => default 4 (std_stoi s)
                               | None => 4
                               end))
                      4 c
                      (λ _ : Z,
                         mkEnv [0; 1; 0; 1]%nat
                           (concat (replicate 12 [0; 1]%nat)) 7 9) with
              | Some (Done (evs, s)) => (stdout_lines evs, s)
              | _ => ([], 134)
              end)
           (λ (_ : nat) (_ : Z),
              mkEnv [0; 1; 0; 1]%nat (concat (replicate 12 [0; 1]%nat)) 7 9)
           (mkBench "both" "2" "0" "3" "1" "1 2" "42")
           "2" "0" "3" "42" ["1"; "2"]).
  - vm_compute. reflexivity.
  - reflexivity.
  - simpl. rewrite !elem_of_cons. auto.
  - reflexivity.
  - reflexivity.
  - reflexivity.
  - reflexivity.
  - reflexivity.
  - unfold prog_flags. repeat (constructor; [solve_not_elem|]). constructor.
  - vm_compute. reflexivity.
  - intros i c Hc.
    do 12 (destruct i as [|i];
           [injection Hc as <-; eexists _, _; split; vm_compute; reflexivity|]).
    done.
Defined.
